(** * Strata capability runtime: authorization plane

    A shallow embedding of the Go sources of the Strata node-local
    capability runtime (packages [capability], [policy], [auth], [ipc] and
    the FS service of [cmd/fs]) together with the properties of its
    authorization plane.

    Conventions of the embedding.
    - A Go [string] is a Rocq [string] (a sequence of bytes); a [[]byte]
      is a [list ascii].
    - A Go [error] result is an [option] ([None] is [nil]) or a [result].
    - A Go [map] is a stdpp [gmap]; the set [map[string]struct{}] is a
      [gset string].
    - [time.Time] and [time.Duration] are integers (nanoseconds); the
      clock is an explicit component of the state, it does not advance
      while a request is served, and the requests are served one after
      the other.
    - A [float64] is an exact rational, or an infinity, or NaN: rounding is
      not modelled, the special values and their comparisons are.
    - Functions of the Go standard library whose behaviour the sources rely
      on but do not define ([filepath.Abs], [strconv.ParseFloat], the
      Ed25519 primitives, the JSON codec, the file system) are fields of
      interface classes; every theorem holds for all their instances, and
      reference instances are given for evaluation on concrete inputs. *)

From Stdlib Require Import ZArith QArith Qminmax Lia Lqa Bool List Ascii String.
From stdpp Require Import base option list gmap strings pretty.

Local Open Scope Z_scope.
Local Open Scope string_scope.
Local Open Scope list_scope.

(** ** Results of fallible library calls *)

Inductive result (A : Type) : Type :=
| Ok (a : A)
| Err (msg : string).
Arguments Ok {A} a.
Arguments Err {A} msg.

(** ** Package [strings] (byte-level functions used by the sources) *)

Module strings.

(** [strings.HasPrefix(s, prefix)] *)
Definition HasPrefix (s pre : string) : bool := String.prefix pre s.

(** [strings.Contains(s, substr)] *)
Fixpoint Contains (s substr : string) : bool :=
  String.prefix substr s ||
  match s with
  | EmptyString => false
  | String _ s' => Contains s' substr
  end.

(** [strings.Cut(s, ".")]: the text before and after the first dot. *)
Fixpoint cut_dot (s : string) : option (string * string) :=
  match s with
  | EmptyString => None
  | String c s' =>
      if Ascii.eqb c "."%char then Some (EmptyString, s')
      else match cut_dot s' with
           | Some (a, b) => Some (String c a, b)
           | None => None
           end
  end.

(** [strings.SplitN(s, ".", 2)] *)
Definition SplitN_dot_2 (s : string) : list string :=
  match cut_dot s with
  | Some (a, b) => [a; b]
  | None => [s]
  end.

(** The text of [s] without its last [n] bytes. *)
Definition drop_last (n : nat) (s : string) : string :=
  String.substring 0 (String.length s - n) s.

(** [strings.HasSuffix(s, suffix)] *)
Definition HasSuffix (s suf : string) : bool :=
  (String.length suf <=? String.length s)%nat &&
  String.eqb (String.substring (String.length s - String.length suf)
                               (String.length suf) s) suf.

(** [strings.TrimSuffix(s, suffix)] *)
Definition TrimSuffix (s suf : string) : string :=
  if HasSuffix s suf then drop_last (String.length suf) s else s.

End strings.

(** ** [float64]

    Finite values are exact rationals; [Inf] and [NaN] are kept because
    [strconv.ParseFloat] can produce them and every comparison with NaN is
    false. *)

Inductive float64 : Type :=
| Fin (q : Q)
| Inf (neg : bool)
| NaN.

Module f64.

Definition add (x y : float64) : float64 :=
  match x, y with
  | NaN, _ | _, NaN => NaN
  | Fin a, Fin b => Fin (a + b)
  | Fin _, Inf n | Inf n, Fin _ => Inf n
  | Inf n, Inf m => if Bool.eqb n m then Inf n else NaN
  end.

Definition mul_inf (a : Q) (n : bool) : float64 :=
  match (a ?= 0)%Q with
  | Eq => NaN
  | Gt => Inf n
  | Lt => Inf (negb n)
  end.

Definition mul (x y : float64) : float64 :=
  match x, y with
  | NaN, _ | _, NaN => NaN
  | Fin a, Fin b => Fin (a * b)
  | Fin a, Inf n | Inf n, Fin a => mul_inf a n
  | Inf n, Inf m => Inf (xorb n m)
  end.

(** [x - 1] *)
Definition dec (x : float64) : float64 := add x (Fin (-1)).

(** [x < y] *)
Definition lt (x y : float64) : bool :=
  match x, y with
  | NaN, _ | _, NaN => false
  | Fin a, Fin b => negb (Qle_bool b a)
  | Fin _, Inf n => negb n
  | Inf n, Fin _ => n
  | Inf n, Inf m => n && negb m
  end.

(** [x > y] *)
Definition gt (x y : float64) : bool := lt y x.

(** [x <= y] *)
Definition le (x y : float64) : bool :=
  match x, y with
  | NaN, _ | _, NaN => false
  | Fin a, Fin b => Qle_bool a b
  | Fin _, Inf n => negb n
  | Inf n, Fin _ => n
  | Inf n, Inf m => n || negb m
  end.

End f64.

(** ** Package [time] *)

Module time.

(** A [time.Time] is an instant in nanoseconds; a [time.Duration] is a
    signed 64-bit count of nanoseconds. *)
Definition Time := Z.
Definition Duration := Z.

Definition minDuration : Z := - 2 ^ 63.
Definition maxDuration : Z := 2 ^ 63 - 1.
Definition Second : Z := 1000000000.

(** [t.Sub(u)]: the difference, saturated to the range of [Duration]. *)
Definition Sub (t u : Time) : Duration :=
  Z.max minDuration (Z.min maxDuration (t - u)).

(** [d.Seconds()] *)
Definition Seconds (d : Duration) : float64 := Fin (d # 1000000000).

(** [t.After(u)] *)
Definition After (t u : Time) : bool := Z.ltb u t.

(** [t.Add(d)] *)
Definition Add (t : Time) (d : Duration) : Time := t + d.

End time.

(** ** Package [capability] *)

Module capability.

Record Constraints : Type := {
  PathPrefix : string;
  RateLimit : string
}.

Record Capability : Type := {
  ID : string;
  Subject : string;
  IssuedAt : time.Time;
  ExpiresAt : time.Time;
  Service : string;
  Actions : list string;
  Rights : list string;
  constraints : Constraints
}.

(** [c.IsExpired()], reading the clock [now]. *)
Definition IsExpired (now : time.Time) (c : Capability) : bool :=
  time.After now (ExpiresAt c).

End capability.

(** ** Dynamically typed values ([any]) of request parameters and contexts *)

Inductive any : Type :=
| AString (s : string)
| ANumber (x : float64)
| ABool (b : bool)
| ANull.

(** [v, _ := m[key].(string)] *)
Definition get_string (m : gmap string any) (key : string) : string :=
  match m !! key with
  | Some (AString s) => s
  | _ => ""
  end.

(** [v, _ := m[key].(float64)] *)
Definition get_float64 (m : gmap string any) (key : string) : float64 :=
  match m !! key with
  | Some (ANumber x) => x
  | _ => Fin 0
  end.

(** ** Standard-library functions used by package [policy]

    [filepath_Abs] is [filepath.Abs] (it depends on the working directory
    of the process), [strings_TrimSpace] is [strings.TrimSpace],
    [strconv_ParseFloat s] is [strconv.ParseFloat(s, 64)] and [fmt_q] is
    the [%q] verb of [fmt.Sprintf] on a string. *)

Class PolicyLib : Type := {
  filepath_Abs : string -> result string;
  strings_TrimSpace : string -> string;
  strconv_ParseFloat : string -> result float64;
  fmt_q : string -> string
}.

(** [filepath.Separator] on the platforms Strata runs on. *)
Definition filepath_Separator : string := "/".

(** ** Package [policy] *)

Module policy.
Import capability.

Definition CodeUnauthenticated : Z := 2.
Definition CodePermissionDenied : Z := 3.
Definition CodeResourceExhausted : Z := 7.

(** [PolicyError]; an [error] returned by the package is
    [option PolicyError], with [None] for [nil]. *)
Record PolicyError : Type := {
  Code : Z;
  Name : string;
  Message : string
}.

Definition denied (msg : string) : PolicyError :=
  {| Code := CodePermissionDenied; Name := "PERMISSION_DENIED"; Message := msg |}.

Definition unauthenticated : PolicyError :=
  {| Code := CodeUnauthenticated; Name := "UNAUTHENTICATED";
     Message := "token required" |}.

Definition exhausted : PolicyError :=
  {| Code := CodeResourceExhausted; Name := "RESOURCE_EXHAUSTED";
     Message := "rate limit exceeded" |}.

(** The token bucket of one capability. *)
Record bucket : Type := {
  tokens : float64;
  rate : float64;
  last : time.Time
}.

Fixpoint hasRight (rights : list string) (required : string) : bool :=
  match rights with
  | [] => false
  | r :: rest => if String.eqb r required then true else hasRight rest required
  end.

Fixpoint hasAction (actions : list string) (required : string) : bool :=
  match actions with
  | [] => false
  | a :: rest => if String.eqb a required then true else hasAction rest required
  end.

Section Policy.
Context `{PolicyLib}.

(** [enforcePathPrefix]: [ctx["path"]] must lie within [prefix]. *)
Definition enforcePathPrefix (prefix : string) (ctx : gmap string any)
  : option PolicyError :=
  if String.eqb prefix "" then None
  else
    let path := get_string ctx "path" in
    if String.eqb path "" then None
    else if strings.Contains path ".." then
      Some (denied "path traversal not allowed")
    else
      match filepath_Abs path with
      | Err e => Some (denied ("cannot resolve path: " +:+ e))
      | Ok absPath =>
          match filepath_Abs prefix with
          | Err e => Some (denied ("cannot resolve prefix: " +:+ e))
          | Ok absPrefix =>
              if negb (String.eqb absPath absPrefix)
                 && negb (strings.HasPrefix absPath (absPrefix +:+ filepath_Separator))
              then Some (denied ("path " +:+ absPath +:+
                                 " outside allowed prefix " +:+ absPrefix))
              else None
          end
      end.

(** [parseRate]: ["50rps"] is 50 tokens per second. *)
Definition parseRate (s : string) : float64 * bool :=
  let s := strings_TrimSpace s in
  if negb (strings.HasSuffix s "rps") then (Fin 0, false)
  else
    match strconv_ParseFloat (strings.TrimSuffix s "rps") with
    | Err _ => (Fin 0, false)
    | Ok n => if f64.le n (Fin 0) then (Fin 0, false) else (n, true)
    end.

(** [enforceRateLimit], on the bucket map of [globalLimiter] and with
    [now] the reading of [time.Now()].  A bucket is a pointer in the Go
    map: its update in place is an insertion here.  A new bucket is
    created with [last] equal to a clock reading taken just before
    [now]; both readings are [now] here. *)
Definition enforceRateLimit (now : time.Time) (capID rateLimit : string)
    (buckets : gmap string bucket) : option PolicyError * gmap string bucket :=
  if String.eqb rateLimit "" then (None, buckets)
  else
    match parseRate rateLimit with
    | (_, false) => (None, buckets)
    | (r, true) =>
        let b := match buckets !! capID with
                 | Some b => b
                 | None => {| tokens := r; rate := r; last := now |}
                 end in
        let refilled :=
          f64.add (tokens b)
                  (f64.mul (time.Seconds (time.Sub now (last b))) (rate b)) in
        let capped := if f64.gt refilled (rate b) then rate b else refilled in
        if f64.lt capped (Fin 1) then
          (Some exhausted,
           <[capID := {| tokens := capped; rate := rate b; last := now |}]> buckets)
        else
          (None,
           <[capID := {| tokens := f64.dec capped; rate := rate b; last := now |}]>
             buckets)
    end.

(** [enforceConstraints] *)
Definition enforceConstraints (now : time.Time) (claims : Capability)
    (ctx : gmap string any) (buckets : gmap string bucket)
  : option PolicyError * gmap string bucket :=
  match enforcePathPrefix (PathPrefix (constraints claims)) ctx with
  | Some err => (Some err, buckets)
  | None =>
      match enforceRateLimit now (ID claims) (RateLimit (constraints claims)) buckets with
      | (Some err, buckets') => (Some err, buckets')
      | (None, buckets') => (None, buckets')
      end
  end.

(** [Authorize]: [claims] is [None] for a nil pointer; a nil [ctx] is
    the empty map. *)
Definition Authorize (now : time.Time) (claims : option Capability)
    (method : string) (ctx : gmap string any) (buckets : gmap string bucket)
  : option PolicyError * gmap string bucket :=
  match claims with
  | None => (Some unauthenticated, buckets)
  | Some claims =>
      match strings.SplitN_dot_2 method with
      | [service; action] =>
          if negb (String.eqb (Service claims) service) then
            (Some (denied ("token not valid for service " +:+ fmt_q service)), buckets)
          else if negb (hasRight (Rights claims) method)
                  && negb (hasAction (Actions claims) action) then
            (Some (denied ("method " +:+ fmt_q method +:+ " not permitted")), buckets)
          else enforceConstraints now claims ctx buckets
      | _ =>
          (Some (denied ("invalid method format: " +:+ fmt_q method)), buckets)
      end
  end.

End Policy.

End policy.

(** ** Package [encoding/base64]: [RawURLEncoding]

    The URL-safe alphabet without padding, in the default (non-strict)
    decoding mode: carriage returns and line feeds are skipped, and the
    unused low bits of a final partial group are not inspected. *)

Module base64.

Definition encodeURL : string :=
  "ABCDEFGHIJKLMNOPQRSTUVWXYZabcdefghijklmnopqrstuvwxyz0123456789-_".

(** The value of a byte, and the byte of a value ([byte(v)]). *)
Definition val_of (c : ascii) : Z := Z.of_N (N_of_ascii c).
Definition byte_of (v : Z) : ascii := ascii_of_N (Z.to_N (v mod 256)).

(** [enc.encode[v]] *)
Definition encode_char (v : Z) : ascii :=
  match String.get (Z.to_nat v) encodeURL with
  | Some c => c
  | None => "A"%char
  end.

Fixpoint index_of (c : ascii) (s : string) (i : Z) : Z :=
  match s with
  | EmptyString => 255
  | String d s' => if Ascii.eqb c d then i else index_of c s' (i + 1)
  end.

(** [enc.decodeMap[c]]: the position of [c] in the alphabet, or [0xff]. *)
Definition decodeMap (c : ascii) : Z := index_of c encodeURL 0.

(** [enc.EncodeToString(src)] *)
Fixpoint Encode (src : list ascii) : list ascii :=
  match src with
  | [] => []
  | [a] =>
      let val := Z.shiftl (val_of a) 16 in
      [encode_char (Z.land (Z.shiftr val 18) 63);
       encode_char (Z.land (Z.shiftr val 12) 63)]
  | [a; b] =>
      let val := Z.lor (Z.shiftl (val_of a) 16) (Z.shiftl (val_of b) 8) in
      [encode_char (Z.land (Z.shiftr val 18) 63);
       encode_char (Z.land (Z.shiftr val 12) 63);
       encode_char (Z.land (Z.shiftr val 6) 63)]
  | a :: b :: c :: rest =>
      let val := Z.lor (Z.lor (Z.shiftl (val_of a) 16) (Z.shiftl (val_of b) 8))
                       (val_of c) in
      encode_char (Z.land (Z.shiftr val 18) 63)
      :: encode_char (Z.land (Z.shiftr val 12) 63)
      :: encode_char (Z.land (Z.shiftr val 6) 63)
      :: encode_char (Z.land val 63)
      :: Encode rest
  end.

Definition EncodeToString (src : list ascii) : string :=
  string_of_list_ascii (Encode src).

(** [CorruptInputError(i).Error()] *)
Definition CorruptInputError (i : Z) : string :=
  "illegal base64 data at input byte " +:+ pretty i.

(** The 24 bits of a group of four 6-bit digits. *)
Definition quantum (d0 d1 d2 d3 : Z) : Z :=
  Z.lor (Z.lor (Z.lor (Z.shiftl d0 18) (Z.shiftl d1 12)) (Z.shiftl d2 6)) d3.

Definition prepend (bs : list ascii) (r : result (list ascii)) : result (list ascii) :=
  match r with
  | Ok rest => Ok (bs ++ rest)
  | Err e => Err e
  end.

(** The decoding loop of [Decode] and [decodeQuantum]: [si] is the index
    of the next input byte and [dbuf] holds the digits of the group being
    read. *)
Fixpoint decode_loop (src : list ascii) (si : Z) (dbuf : list Z)
  : result (list ascii) :=
  match src with
  | [] =>
      match dbuf with
      | [] => Ok []
      | [_] => Err (CorruptInputError (si - 1))
      | [d0; d1] => Ok [byte_of (Z.shiftr (quantum d0 d1 0 0) 16)]
      | d0 :: d1 :: d2 :: _ =>
          let val := quantum d0 d1 d2 0 in
          Ok [byte_of (Z.shiftr val 16); byte_of (Z.shiftr val 8)]
      end
  | c :: rest =>
      let out := decodeMap c in
      if negb (Z.eqb out 255) then
        match dbuf with
        | [d0; d1; d2] =>
            let val := quantum d0 d1 d2 out in
            prepend [byte_of (Z.shiftr val 16); byte_of (Z.shiftr val 8); byte_of val]
                    (decode_loop rest (si + 1) [])
        | _ => decode_loop rest (si + 1) (dbuf ++ [out])
        end
      else if Ascii.eqb c "010"%char || Ascii.eqb c "013"%char then
        decode_loop rest (si + 1) dbuf
      else Err (CorruptInputError si)
  end.

(** [enc.DecodeString(s)] *)
Definition DecodeString (s : string) : result (list ascii) :=
  decode_loop (list_ascii_of_string s) 0 [].

End base64.

(** ** Standard-library functions used by package [auth] *)

(** [crypto/ed25519]: keys are values of the right size, so that [Sign] and
    [Verify] do not panic. *)
Class Ed25519Lib : Type := {
  PrivateKey : Type;
  PublicKey : Type;
  ed25519_Sign : PrivateKey -> list ascii -> list ascii;
  ed25519_Verify : PublicKey -> list ascii -> list ascii -> bool
}.

Definition ed25519_SignatureSize : nat := 64.

(** [encoding/json] at type [capability.Capability]. *)
Class JsonLib : Type := {
  json_Marshal : capability.Capability -> result (list ascii);
  json_Unmarshal : list ascii -> result capability.Capability
}.

(** ** Package [auth] *)

Module auth.
Import capability.

Definition v2PublicHeader : string := "v2.public.".

(** [binary.LittleEndian.PutUint64(buf, n)] *)
Definition le64 (n : Z) : list ascii :=
  map (fun i => base64.byte_of (Z.shiftr n (8 * Z.of_nat i))) (seq 0 8).

Fixpoint pae_pieces (pieces : list (list ascii)) : list ascii :=
  match pieces with
  | [] => []
  | p :: rest => le64 (Z.of_nat (length p)) ++ p ++ pae_pieces rest
  end.

(** [pae]: pre-authentication encoding. *)
Definition pae (pieces : list (list ascii)) : list ascii :=
  le64 (Z.of_nat (length pieces)) ++ pae_pieces pieces.

(** [copy(dst, sig)] into a zeroed [dst] of [ed25519.SignatureSize] bytes. *)
Definition copy_sig (sig : list ascii) : list ascii :=
  firstn ed25519_SignatureSize (sig ++ repeat Ascii.zero ed25519_SignatureSize).

Section Auth.
Context `{Ed25519Lib} `{JsonLib}.

(** [Sign] *)
Definition Sign (cap : Capability) (key : PrivateKey) : result string :=
  match json_Marshal cap with
  | Err e => Err ("marshal capability: " +:+ e)
  | Ok message =>
      let m2 := pae [list_ascii_of_string v2PublicHeader; message; []] in
      let sig := ed25519_Sign key m2 in
      let body := message ++ copy_sig sig in
      Ok (v2PublicHeader +:+ base64.EncodeToString body)
  end.

(** [Verify] *)
Definition Verify (token : string) (key : PublicKey) : result Capability :=
  if negb (strings.HasPrefix token v2PublicHeader) then
    Err "invalid token header"
  else
    match base64.DecodeString
            (String.substring (String.length v2PublicHeader)
               (String.length token - String.length v2PublicHeader) token) with
    | Err e => Err ("decode token: " +:+ e)
    | Ok decoded =>
        if (length decoded <? ed25519_SignatureSize)%nat then
          Err "token too short"
        else
          let message := firstn (length decoded - ed25519_SignatureSize) decoded in
          let sig := skipn (length decoded - ed25519_SignatureSize) decoded in
          let m2 := pae [list_ascii_of_string v2PublicHeader; message; []] in
          if negb (ed25519_Verify key m2 sig) then Err "invalid signature"
          else
            match json_Unmarshal message with
            | Err e => Err ("unmarshal capability: " +:+ e)
            | Ok cap => Ok cap
            end
    end.

End Auth.

End auth.

(** ** Package [ipc]: request and response envelopes *)

Module ipc.

Record Auth : Type := { Token : string }.

Record Request : Type := {
  V : Z;
  ReqID : string;
  Method : string;
  auth : option Auth;
  Params : gmap string any
}.

Record Error : Type := {
  Code : Z;
  Message : string
}.

(** One entry of a directory listing: [name], [is_dir] and, when
    [e.Info()] succeeds, [size]. *)
Record Item : Type := {
  name : string;
  is_dir : bool;
  size : option Z
}.

(** The [Result] values that the FS service puts in a response. *)
Inductive Result : Type :=
| ResultHandle (handle : string)
| ResultRead (data : string) (bytes_read : Z)
| ResultEntries (entries : list Item)
| ResultStatus (status : string).

Record Response : Type := {
  RespV : Z;
  RespReqID : string;
  OK : bool;
  result_ : option Result;
  error_ : option Error
}.

Definition ErrInvalidRequest : Z := 1.
Definition ErrAuthRequired : Z := 2.
Definition ErrPermDenied : Z := 3.
Definition ErrNotFound : Z := 4.
Definition ErrInternal : Z := 5.

Definition SuccessResponse (reqID : string) (r : Result) : Response :=
  {| RespV := 1; RespReqID := reqID; OK := true; result_ := Some r; error_ := None |}.

Definition ErrorResponse (reqID : string) (code : Z) (msg : string) : Response :=
  {| RespV := 1; RespReqID := reqID; OK := false; result_ := None;
     error_ := Some {| Code := code; Message := msg |} |}.

(** The error code of a response, if it carries an error. *)
Definition code_of (r : Response) : option Z := Code <$> error_ r.

(** The error message of a response, if it carries an error. *)
Definition message_of (r : Response) : option string := Message <$> error_ r.

End ipc.

(** ** The operating system as seen by the FS service

    [os_Open], [os_ReadDir] and [file_ReadAt] give the outcome of
    [os.Open], [os.ReadDir] and the [ReadAt] method of an open file; the last one takes the
    [size] and [offset] request parameters as the handler has them, before
    their conversion to integers. *)

Inductive os_error : Type :=
| NotExist (msg : string)
| OtherError (msg : string).

Definition os_IsNotExist (e : os_error) : bool :=
  match e with NotExist _ => true | OtherError _ => false end.

Definition os_error_text (e : os_error) : string :=
  match e with NotExist m => m | OtherError m => m end.

Record DirEntry : Type := {
  entry_Name : string;
  entry_IsDir : bool;
  entry_Info : option Z
}.

Inductive read_outcome : Type :=
| ReadDone (data : string)
| ReadEOF (data : string)
| ReadFailed (msg : string).

Class OsLib : Type := {
  File : Type;
  os_Open : string -> os_error + File;
  os_ReadDir : string -> os_error + list DirEntry;
  file_ReadAt : File -> float64 -> float64 -> read_outcome
}.

(** ** The FS service ([cmd/fs]) *)

Module fs.
Import capability ipc.

Section Service.
Context `{PolicyLib} `{Ed25519Lib} `{JsonLib} `{OsLib}.

(** The verification key loaded at startup. *)
Variable pubKey : PublicKey.

(** [handleEntry] *)
Record handleEntry : Type := {
  file : File;
  capID : string;
  path : string;
  createdAt : time.Time
}.

(** [handleTable]; [nextID] is the value of the [atomic.Uint64]. *)
Record handleTable : Type := {
  handles : gmap string handleEntry;
  revoked : gset string;
  nextID : Z
}.

(** An operation performed on the operating system. *)
Inductive OsCall : Type :=
| CallOpen (path : string)
| CallReadDir (path : string)
| CallReadAt (f : File) (size offset : float64)
| CallClose (f : File).

(** The state of the service process: the handle table, the bucket map
    of [policy.globalLimiter], the clock, and the operations performed
    on the operating system so far (most recent first). *)
Record State : Type := {
  table : handleTable;
  buckets : gmap string policy.bucket;
  clock : time.Time;
  oscalls : list OsCall
}.

Definition set_table (t : handleTable) (s : State) : State :=
  {| table := t; buckets := buckets s; clock := clock s; oscalls := oscalls s |}.

Definition set_buckets (b : gmap string policy.bucket) (s : State) : State :=
  {| table := table s; buckets := b; clock := clock s; oscalls := oscalls s |}.

Definition log_call (c : OsCall) (s : State) : State :=
  {| table := table s; buckets := buckets s; clock := clock s;
     oscalls := c :: oscalls s |}.

Definition newHandleTable : handleTable :=
  {| handles := ∅; revoked := ∅; nextID := 0 |}.

(** The state in which the service starts, at time [t0]. *)
Definition initial (t0 : time.Time) : State :=
  {| table := newHandleTable; buckets := ∅; clock := t0; oscalls := [] |}.

(** [ht.nextID.Add(1)] on a 64-bit unsigned counter. *)
Definition nextID_Add1 (n : Z) : Z := (n + 1) mod 2 ^ 64.

(** [fmt.Sprintf("h%d", n)] *)
Definition handle_name (n : Z) : string := "h" +:+ pretty n.

(** [handleTable.Open] *)
Definition Open (path capID : string) (s : State) : (os_error + string) * State :=
  let s := log_call (CallOpen path) s in
  match os_Open path with
  | inl err => (inl err, s)
  | inr f =>
      let absPath := match filepath_Abs path with Ok p => p | Err _ => "" end in
      let n := nextID_Add1 (nextID (table s)) in
      let id := handle_name n in
      let e := {| file := f; capID := capID; path := absPath; createdAt := clock s |} in
      (inr id,
       set_table {| handles := <[id := e]> (handles (table s));
                    revoked := revoked (table s);
                    nextID := n |} s)
  end.

(** [handleTable.Get] *)
Definition Get (id : string) (ht : handleTable) : option handleEntry :=
  handles ht !! id.

(** [handleTable.Revoke] *)
Definition Revoke (capID : string) (ht : handleTable) : handleTable :=
  {| handles := handles ht; revoked := {[capID]} ∪ revoked ht; nextID := nextID ht |}.

(** [handleTable.IsRevoked] *)
Definition IsRevoked (capID : string) (ht : handleTable) : bool :=
  bool_decide (capID ∈ revoked ht).

(** [handleTable.CloseAll] *)
Definition CloseAll (s : State) : State :=
  let closes := map (fun kv => CallClose (file (snd kv)))
                    (map_to_list (handles (table s))) in
  {| table := {| handles := ∅; revoked := revoked (table s);
                 nextID := nextID (table s) |};
     buckets := buckets s; clock := clock s;
     oscalls := rev closes ++ oscalls s |}.

(** [extractClaims]: the claims ([None] for nil) and, when the token is
    present but rejected, the error response. *)
Definition extractClaims (req : Request) (now : time.Time)
  : option Capability * option Response :=
  match auth req with
  | None => (None, None)
  | Some a =>
      if String.eqb (Token a) "" then (None, None)
      else
        match auth.Verify (Token a) pubKey with
        | Err e =>
            (None, Some (ErrorResponse (ReqID req) ErrAuthRequired
                                       ("invalid token: " +:+ e)))
        | Ok cap =>
            if IsExpired now cap then
              (None, Some (ErrorResponse (ReqID req) ErrAuthRequired "token expired"))
            else (Some cap, None)
        end
  end.

(** [policyError] *)
Definition policyError (reqID : string) (err : policy.PolicyError) : Response :=
  ErrorResponse reqID (policy.Code err) (policy.Message err).

(** The response standing for the run-time panic of a handler that
    dereferences nil claims.  No handler reaches it: [policy.Authorize]
    rejects nil claims first. *)
Definition nil_claims_panic (reqID : string) : Response :=
  ErrorResponse reqID ErrInternal "nil pointer dereference".

(** The handler of [fs.open]. *)
Definition fs_open (req : Request) (s : State) : Response * State :=
  match extractClaims req (clock s) with
  | (_, Some errResp) => (errResp, s)
  | (claims, None) =>
      let path := get_string (Params req) "path" in
      if String.eqb path "" then
        (ErrorResponse (ReqID req) ErrInvalidRequest "missing path param", s)
      else
        match policy.Authorize (clock s) claims "fs.open"
                {["path" := AString path]} (buckets s) with
        | (Some err, bs) => (policyError (ReqID req) err, set_buckets bs s)
        | (None, bs) =>
            let s := set_buckets bs s in
            match claims with
            | None => (nil_claims_panic (ReqID req), s)
            | Some c =>
                if IsRevoked (ID c) (table s) then
                  (ErrorResponse (ReqID req) ErrPermDenied "capability revoked", s)
                else
                  match Open path (ID c) s with
                  | (inl err, s) =>
                      if os_IsNotExist err then
                        (ErrorResponse (ReqID req) ErrNotFound "file not found", s)
                      else
                        (ErrorResponse (ReqID req) ErrInternal (os_error_text err), s)
                  | (inr handle, s) =>
                      (SuccessResponse (ReqID req) (ResultHandle handle), s)
                  end
            end
        end
  end.

(** The handler of [fs.read]. *)
Definition fs_read (req : Request) (s : State) : Response * State :=
  match extractClaims req (clock s) with
  | (_, Some errResp) => (errResp, s)
  | (claims, None) =>
      match policy.Authorize (clock s) claims "fs.read" ∅ (buckets s) with
      | (Some err, bs) => (policyError (ReqID req) err, set_buckets bs s)
      | (None, bs) =>
          let s := set_buckets bs s in
          let handle := get_string (Params req) "handle" in
          if String.eqb handle "" then
            (ErrorResponse (ReqID req) ErrInvalidRequest "missing handle param", s)
          else
            match Get handle (table s) with
            | None => (ErrorResponse (ReqID req) ErrNotFound "invalid handle", s)
            | Some entry =>
                match claims with
                | None => (nil_claims_panic (ReqID req), s)
                | Some c =>
                    if negb (String.eqb (capID entry) (ID c)) then
                      (ErrorResponse (ReqID req) ErrPermDenied
                                     "handle not bound to this capability", s)
                    else if IsRevoked (capID entry) (table s) then
                      (ErrorResponse (ReqID req) ErrPermDenied "capability revoked", s)
                    else
                      let offset := get_float64 (Params req) "offset" in
                      let size := get_float64 (Params req) "size" in
                      let size := if f64.le size (Fin 0) then Fin 4096 else size in
                      let s := log_call (CallReadAt (file entry) size offset) s in
                      match file_ReadAt (file entry) size offset with
                      | ReadFailed msg =>
                          (ErrorResponse (ReqID req) ErrInternal msg, s)
                      | ReadDone data | ReadEOF data =>
                          (SuccessResponse (ReqID req)
                             (ResultRead data (Z.of_nat (String.length data))), s)
                      end
                end
            end
      end
  end.

Definition item_of (e : DirEntry) : Item :=
  {| name := entry_Name e; is_dir := entry_IsDir e; size := entry_Info e |}.

(** The handler of [fs.list]. *)
Definition fs_list (req : Request) (s : State) : Response * State :=
  match extractClaims req (clock s) with
  | (_, Some errResp) => (errResp, s)
  | (claims, None) =>
      let path := get_string (Params req) "path" in
      if String.eqb path "" then
        (ErrorResponse (ReqID req) ErrInvalidRequest "missing path param", s)
      else
        match policy.Authorize (clock s) claims "fs.list"
                {["path" := AString path]} (buckets s) with
        | (Some err, bs) => (policyError (ReqID req) err, set_buckets bs s)
        | (None, bs) =>
            let s := set_buckets bs s in
            match claims with
            | None => (nil_claims_panic (ReqID req), s)
            | Some c =>
                if IsRevoked (ID c) (table s) then
                  (ErrorResponse (ReqID req) ErrPermDenied "capability revoked", s)
                else
                  let s := log_call (CallReadDir path) s in
                  match os_ReadDir path with
                  | inl err =>
                      if os_IsNotExist err then
                        (ErrorResponse (ReqID req) ErrNotFound "directory not found", s)
                      else
                        (ErrorResponse (ReqID req) ErrInternal (os_error_text err), s)
                  | inr entries =>
                      (SuccessResponse (ReqID req)
                         (ResultEntries (map item_of entries)), s)
                  end
            end
        end
  end.

(** The handler of [fs.revoke]. *)
Definition fs_revoke (req : Request) (s : State) : Response * State :=
  let capID := get_string (Params req) "cap_id" in
  if String.eqb capID "" then
    (ErrorResponse (ReqID req) ErrInvalidRequest "missing cap_id param", s)
  else
    (SuccessResponse (ReqID req) (ResultStatus "revoked"),
     set_table (Revoke capID (table s)) s).

(** The dispatch of [ipc.Server.handleConn] over the handlers that
    [main] registers. *)
Definition serve (req : Request) (s : State) : Response * State :=
  if negb (Z.eqb (V req) 1) then
    (ErrorResponse (ReqID req) ErrInvalidRequest "unsupported protocol version", s)
  else if String.eqb (Method req) "fs.open" then fs_open req s
  else if String.eqb (Method req) "fs.read" then fs_read req s
  else if String.eqb (Method req) "fs.list" then fs_list req s
  else if String.eqb (Method req) "fs.revoke" then fs_revoke req s
  else
    (ErrorResponse (ReqID req) ErrInvalidRequest
                   ("unknown method: " +:+ Method req), s).

(** What happens to the service: a request is served, or time passes. *)
Inductive event : Type :=
| Serve (req : Request)
| Elapse (d : time.Duration).

Definition advance (d : time.Duration) (s : State) : State :=
  {| table := table s; buckets := buckets s; clock := time.Add (clock s) d;
     oscalls := oscalls s |}.

Definition step (e : event) (s : State) : State :=
  match e with
  | Serve req => snd (serve req s)
  | Elapse d => advance d s
  end.

(** The state after a sequence of events, the earliest first. *)
Fixpoint run (es : list event) (s : State) : State :=
  match es with
  | [] => s
  | e :: rest => run rest (step e s)
  end.

End Service.

End fs.

(** ** Reference instances of the library interfaces

    They are used to evaluate the embedding on concrete inputs.  Each one
    follows the documented behaviour of the Go function on the inputs it
    covers; none of the general theorems depends on them. *)

Module ref.

Definition split_on (sep : ascii) : string -> list string :=
  fix go (s : string) : list string :=
    match s with
    | EmptyString => [EmptyString]
    | String c s' =>
        if Ascii.eqb c sep then EmptyString :: go s'
        else match go s' with
             | w :: ws => String c w :: ws
             | [] => [String c EmptyString]
             end
    end.

Fixpoint join (sep : string) (l : list string) : string :=
  match l with
  | [] => ""
  | [x] => x
  | x :: rest => x +:+ sep +:+ join sep rest
  end.

(** *** [filepath.Clean] and [filepath.Abs] on a Unix system *)

(** One path element read by [Clean]; [out] holds the elements kept so
    far, the last one first. *)
Definition clean_step (rooted : bool) (out : list string) (elem : string)
  : list string :=
  if String.eqb elem "" || String.eqb elem "." then out
  else if String.eqb elem ".." then
    match out with
    | top :: below => if String.eqb top ".." then elem :: out else below
    | [] => if rooted then [] else [elem]
    end
  else elem :: out.

Definition Clean (path : string) : string :=
  if String.eqb path "" then "."
  else
    let rooted := strings.HasPrefix path "/" in
    let out := fold_left (clean_step rooted) (split_on "/"%char path) [] in
    let body := join "/" (rev out) in
    if rooted then "/" +:+ body
    else if String.eqb body "" then "." else body.

(** [filepath.Abs] in a process whose working directory is [cwd]. *)
Definition Abs (cwd path : string) : result string :=
  if strings.HasPrefix path "/" then Ok (Clean path)
  else if String.eqb path "" then Ok (Clean cwd)
  else Ok (Clean (cwd +:+ "/" +:+ path)).

(** *** [strings.TrimSpace] on ASCII text *)

Definition is_space (c : ascii) : bool :=
  let n := nat_of_ascii c in
  ((9 <=? n) && (n <=? 13) || (n =? 32))%nat.

Fixpoint trim_left (l : list ascii) : list ascii :=
  match l with
  | c :: rest => if is_space c then trim_left rest else l
  | [] => []
  end.

Definition TrimSpace (s : string) : string :=
  string_of_list_ascii
    (rev (trim_left (rev (trim_left (list_ascii_of_string s))))).

(** *** [strconv.ParseFloat] on decimal literals without exponent, and
    on [inf] and [nan] *)

Definition is_digit (c : ascii) : bool :=
  let n := nat_of_ascii c in ((48 <=? n) && (n <=? 57))%nat.

Fixpoint digits_value (s : string) (acc : Z) : option Z :=
  match s with
  | EmptyString => Some acc
  | String c s' =>
      if is_digit c then digits_value s' (acc * 10 + Z.of_nat (nat_of_ascii c - 48))
      else None
  end.

Definition syntax_error (s : string) : string :=
  "strconv.ParseFloat: parsing " +:+ s +:+ ": invalid syntax".

Definition unsigned_float (s : string) : option float64 :=
  if String.eqb s "inf" || String.eqb s "Inf" then Some (Inf false)
  else if String.eqb s "nan" || String.eqb s "NaN" then Some NaN
  else
    let (ip, fp) := match strings.cut_dot s with
                    | Some (a, b) => (a, b)
                    | None => (s, "")
                    end in
    if String.eqb (ip +:+ fp) "" then None
    else
      match digits_value ip 0, digits_value fp 0 with
      | Some i, Some f =>
          let scale := Pos.pow 10 (Pos.of_succ_nat (String.length fp)) in
          Some (Fin (Qmake (10 * (i * Z.pow 10 (Z.of_nat (String.length fp)) + f)) scale))
      | _, _ => None
      end.

Definition fneg (x : float64) : float64 :=
  match x with
  | Fin q => Fin (- q)
  | Inf n => Inf (negb n)
  | NaN => NaN
  end.

Definition ParseFloat (s : string) : result float64 :=
  let r := match s with
           | String "-" s' => fneg <$> unsigned_float s'
           | String "+" s' => unsigned_float s'
           | _ => unsigned_float s
           end in
  match r with
  | Some x => Ok x
  | None => Err (syntax_error s)
  end.

(** *** [%q] on text that needs no escape *)

Definition quote_char : string := String (ascii_of_nat 34) EmptyString.

Definition Quote (s : string) : string := quote_char +:+ s +:+ quote_char.

#[export] Instance policyLib (cwd : string) : PolicyLib := {|
  filepath_Abs := Abs cwd;
  strings_TrimSpace := TrimSpace;
  strconv_ParseFloat := ParseFloat;
  fmt_q := Quote
|}.

(** *** A line-oriented stand-in for [encoding/json]

    One field per line, list elements separated by commas, times as
    decimal numbers. *)

Definition parse_Z (s : string) : option Z :=
  match s with
  | String "-" s' => Z.opp <$> digits_value s' 0
  | _ => digits_value s 0
  end.

Definition lf : ascii := ascii_of_nat 10.

Definition list_field (l : list string) : string := join "," l.

Definition parse_list_field (s : string) : list string :=
  if String.eqb s "" then [] else split_on ","%char s.

Definition Marshal (c : capability.Capability) : result (list ascii) :=
  Ok (list_ascii_of_string
        (join (String lf EmptyString)
           [capability.ID c; capability.Subject c;
            pretty (capability.IssuedAt c); pretty (capability.ExpiresAt c);
            capability.Service c;
            list_field (capability.Actions c); list_field (capability.Rights c);
            capability.PathPrefix (capability.constraints c);
            capability.RateLimit (capability.constraints c)])).

Definition Unmarshal (data : list ascii) : result capability.Capability :=
  match split_on lf (string_of_list_ascii data) with
  | [id; sub; iat; exp; svc; acts; rts; pp; rl] =>
      match parse_Z iat, parse_Z exp with
      | Some iat, Some exp =>
          Ok {| capability.ID := id; capability.Subject := sub;
                capability.IssuedAt := iat; capability.ExpiresAt := exp;
                capability.Service := svc;
                capability.Actions := parse_list_field acts;
                capability.Rights := parse_list_field rts;
                capability.constraints :=
                  {| capability.PathPrefix := pp; capability.RateLimit := rl |} |}
      | _, _ => Err "invalid time"
      end
  | _ => Err "unexpected end of input"
  end.

#[export] Instance jsonLib : JsonLib := {|
  json_Marshal := Marshal;
  json_Unmarshal := Unmarshal
|}.

(** *** Stand-ins for Ed25519

    [mac] is a keyed checksum of 64 bytes; the signing key is also the
    verification key.  [macLib] accepts the checksum of every message;
    [idealLib m0] accepts it for the message [m0] only, as a signer that
    has issued a single signature. *)

Definition mac (k m : list ascii) : list ascii :=
  map (fun i =>
         base64.byte_of
           (fold_left (fun acc c => (acc * 31 + base64.val_of c) mod 65536)
                      (k ++ m) (7 + 131 * Z.of_nat i)))
      (seq 0 64).

Definition bytes_eqb (a b : list ascii) : bool :=
  String.eqb (string_of_list_ascii a) (string_of_list_ascii b).

#[export] Instance macLib : Ed25519Lib := {|
  PrivateKey := list ascii;
  PublicKey := list ascii;
  ed25519_Sign := mac;
  ed25519_Verify := fun k m sig => bytes_eqb sig (mac k m)
|}.

Definition idealLib (m0 : list ascii) : Ed25519Lib := {|
  PrivateKey := list ascii;
  PublicKey := list ascii;
  ed25519_Sign := mac;
  ed25519_Verify := fun k m sig => bytes_eqb m m0 && bytes_eqb sig (mac k m)
|}.

(** *** A file system with one directory and one file *)

Definition Open (path : string) : os_error + string :=
  if String.eqb path "/tmp/x" then inr path
  else inl (NotExist ("open " +:+ path +:+ ": no such file or directory")).

Definition ReadDir (path : string) : os_error + list DirEntry :=
  if String.eqb path "/tmp" then
    inr [{| entry_Name := "x"; entry_IsDir := false; entry_Info := Some 5 |}]
  else inl (NotExist ("open " +:+ path +:+ ": no such file or directory")).

Definition ReadAt (f : string) (size offset : float64) : read_outcome :=
  ReadEOF "hello".

#[export] Instance osLib : OsLib := {|
  File := string;
  os_Open := Open;
  os_ReadDir := ReadDir;
  file_ReadAt := ReadAt
|}.

End ref.

(** ** Consecutive calls of the rate limiter *)

Module scenario.



(** The handle ids that the successful [fs.open] requests of a run have
    returned, the earliest first. *)
Fixpoint issued `{PolicyLib} `{Ed25519Lib} `{JsonLib} `{OsLib}
    (pubKey : PublicKey) (es : list (fs.event)) (s : fs.State) : list string :=
  match es with
  | [] => []
  | e :: rest =>
      match e with
      | fs.Serve req =>
          match ipc.result_ (fst (fs.serve pubKey req s)) with
          | Some (ipc.ResultHandle h) => [h]
          | _ => []
          end
      | fs.Elapse _ => []
      end ++ issued pubKey rest (fs.step pubKey e s)
  end.

End scenario.

(** ** Concrete inputs used in examples *)

Module examples.
Import capability.

(** A capability for the FS service, confined to [/tmp]. *)
Definition cap_tmp : Capability := {|
  ID := "6afc36c2484a8db0";
  Subject := "capability";
  IssuedAt := 0;
  ExpiresAt := 3600000000000;
  Service := "fs";
  Actions := ["open"; "read"; "list"];
  Rights := ["fs.open"; "fs.read"; "fs.list"];
  constraints := {| PathPrefix := "/tmp"; RateLimit := "" |}
|}.

Definition ctx_path (p : string) : gmap string any := {["path" := AString p]}.

(** The reference policy library of a process running in [/]. *)
Definition lib : PolicyLib := ref.policyLib "/".


(** A signing key, the signed material of [cap_tmp], and a signer that
    has issued that one signature. *)
Definition node_key : list ascii := list_ascii_of_string "node-key".

Definition cap_tmp_message : list ascii :=
  match ref.Marshal cap_tmp with Ok m => m | Err _ => [] end.

Definition cap_tmp_signed : list ascii :=
  auth.pae [list_ascii_of_string auth.v2PublicHeader; cap_tmp_message; []].

Definition signer : Ed25519Lib := ref.idealLib cap_tmp_signed.

(** The token of [cap_tmp] under [node_key], and the same token with its
    last character changed from [8] to [9]. *)
Definition signed_token : string :=
  "v2.public.NmFmYzM2YzI0ODRhOGRiMApjYXBhYmlsaXR5CjAKMzYwMDAwMDAwMDAwMApmcwpvcGVuLHJlYWQsbGlzdApmcy5vcGVuLGZzLnJlYWQsZnMubGlzdAovdG1wCvxZthNwzSqH5EGe-1i1Em_MKYbjQJ36V7QRbssoheI_nPlWsxBtyieE4T6b-FWyD2zJJoPgPZr3VLEOa8glgt8".



(** A second capability with the same rights, limited to one request per
    second. *)
Definition cap_limited : Capability := {|
  ID := "0b1d9e07c3a2f455";
  Subject := "capability";
  IssuedAt := 0;
  ExpiresAt := 3600000000000;
  Service := "fs";
  Actions := ["open"; "read"; "list"];
  Rights := ["fs.open"; "fs.read"; "fs.list"];
  constraints := {| PathPrefix := "/tmp"; RateLimit := "1rps" |}
|}.

(** The token that the issuer signs for [c] under [node_key], with the
    keyed checksum in place of Ed25519. *)
Definition token_of (c : Capability) : string :=
  match @auth.Sign ref.macLib ref.jsonLib c node_key with
  | Ok t => t
  | Err _ => ""
  end.

(** The FS service over the reference libraries, with [node_key] as its
    verification key. *)
Definition State : Type := @fs.State ref.osLib.

Definition start : State := @fs.initial ref.osLib 0.

Definition serve : ipc.Request -> State -> ipc.Response * State :=
  @fs.serve lib ref.macLib ref.jsonLib ref.osLib node_key.

Definition request (method token : string) (params : gmap string any) : ipc.Request :=
  {| ipc.V := 1; ipc.ReqID := "r"; ipc.Method := method;
     ipc.auth := Some {| ipc.Token := token |}; ipc.Params := params |}.

Definition open_req (token path : string) : ipc.Request :=
  request "fs.open" token {["path" := AString path]}.

Definition list_req (token path : string) : ipc.Request :=
  request "fs.list" token {["path" := AString path]}.

Definition read_req (token handle : string) : ipc.Request :=
  request "fs.read" token {["handle" := AString handle]}.

Definition revoke_req (capID : string) : ipc.Request :=
  {| ipc.V := 1; ipc.ReqID := "revoke-" +:+ capID; ipc.Method := "fs.revoke";
     ipc.auth := None; ipc.Params := {["cap_id" := AString capID]} |}.

End examples.

(** * The transport, the identity service and the rate limiter over time

    The framing and the server loop of package [ipc], the revocation
    list of package [auth], [NewCapability], the handlers of the
    identity service, and sequences of calls of the rate limiter. *)

(** ** Connections

    One end of a [net.Conn] over a Unix socket, as the framing layer uses
    it.  [input] holds the bytes that the peer sends before it closes its
    end, [output] the bytes written so far, and [broken] the error that
    a [Write] meets, if the connection is broken. *)

Module conn.

Record Conn : Type := {
  input : list ascii;
  output : list ascii;
  broken : option string
}.

(** A connection on which [bytes] arrive and nothing is written yet. *)
Definition receiving (bytes : list ascii) : Conn :=
  {| input := bytes; output := []; broken := None |}.

(** [conn.Write(b)] *)
Definition Write (b : list ascii) (c : Conn) : option string * Conn :=
  match broken c with
  | Some e => (Some e, c)
  | None => (None, {| input := input c; output := output c ++ b; broken := None |})
  end.

(** [io.ReadFull(conn, buf)] with [len(buf) = n]: all of [buf] is
    filled, or the input ends first: [io.EOF] when no byte was read,
    [io.ErrUnexpectedEOF] after some. *)
Definition ReadFull (n : nat) (c : Conn) : result (list ascii) * Conn :=
  if (length (input c) <? n)%nat then
    (Err (match input c with [] => "EOF" | _ => "unexpected EOF" end),
     {| input := []; output := output c; broken := broken c |})
  else
    (Ok (take n (input c)),
     {| input := drop n (input c); output := output c; broken := broken c |}).

End conn.

(** ** Package [ipc]: frames ([frame.go]) *)

Module frame.
Import conn.

Definition maxFrameSize : Z := Z.shiftl 1 20.

(** [uint32(n)] *)
Definition uint32 (n : Z) : Z := n mod 2 ^ 32.

(** [binary.BigEndian.PutUint32(b, v)] on a buffer of four bytes. *)
Definition PutUint32 (v : Z) : list ascii :=
  [base64.byte_of (Z.shiftr v 24); base64.byte_of (Z.shiftr v 16);
   base64.byte_of (Z.shiftr v 8); base64.byte_of v].

(** [binary.BigEndian.Uint32(b)] *)
Definition Uint32 (b : list ascii) : Z :=
  match b with
  | [b0; b1; b2; b3] =>
      Z.lor (Z.lor (Z.lor (base64.val_of b3) (Z.shiftl (base64.val_of b2) 8))
                   (Z.shiftl (base64.val_of b1) 16))
            (Z.shiftl (base64.val_of b0) 24)
  | _ => 0
  end.

(** [WriteFrame(conn, v)]; [marshalled] is the result of
    [json.Marshal(v)]. *)
Definition WriteFrame (marshalled : result (list ascii)) (c : Conn)
  : option string * Conn :=
  match marshalled with
  | Err e => (Some ("marshal: " +:+ e), c)
  | Ok data =>
      let header := PutUint32 (uint32 (Z.of_nat (length data))) in
      match Write header c with
      | (Some e, c) => (Some ("write header: " +:+ e), c)
      | (None, c) =>
          match Write data c with
          | (Some e, c) => (Some ("write payload: " +:+ e), c)
          | (None, c) => (None, c)
          end
      end
  end.

(** [ReadFrame(conn)] *)
Definition ReadFrame (c : Conn) : result (list ascii) * Conn :=
  match ReadFull 4 c with
  | (Err e, c) => (Err e, c)
  | (Ok header, c) =>
      let size := Uint32 header in
      if Z.ltb maxFrameSize size then
        (Err ("frame too large: " +:+ pretty size +:+ " bytes"), c)
      else
        match ReadFull (Z.to_nat size) c with
        | (Err e, c) => (Err ("read payload: " +:+ e), c)
        | (Ok data, c) => (Ok data, c)
        end
  end.

(** The bytes of the frame that carries [data]. *)
Definition frame_of (data : list ascii) : list ascii :=
  PutUint32 (uint32 (Z.of_nat (length data))) ++ data.

End frame.

(** [encoding/json] at the types [ipc.Request] and [ipc.Response]. *)
Class WireLib : Type := {
  json_Marshal_Request : ipc.Request -> result (list ascii);
  json_Unmarshal_Request : list ascii -> result ipc.Request;
  json_Marshal_Response : ipc.Response -> result (list ascii);
  json_Unmarshal_Response : list ascii -> result ipc.Response
}.

(** ** Package [ipc]: the server ([server.go]) *)

Module server.
Import conn ipc.

Section Server.
Context `{WireLib}.

(** The state that the handlers of a service share. *)
Context {S : Type}.

(** A [Handler], with the state of the service passed through. *)
Definition Handler : Type := Request -> S -> Response * S.

(** The handlers that [Server.Handle] has registered. *)
Variable handlers : gmap string Handler.

(** [ReadRequest(conn)] *)
Definition ReadRequest (c : Conn) : result Request * Conn :=
  match frame.ReadFrame c with
  | (Err e, c) => (Err e, c)
  | (Ok data, c) =>
      match json_Unmarshal_Request data with
      | Err e => (Err ("unmarshal request: " +:+ e), c)
      | Ok req => (Ok req, c)
      end
  end.

(** The response to one request in the loop of [handleConn]. *)
Definition dispatch (req : Request) (s : S) : Response * S :=
  if negb (Z.eqb (V req) 1) then
    (ErrorResponse (ReqID req) ErrInvalidRequest "unsupported protocol version", s)
  else
    match handlers !! Method req with
    | None =>
        (ErrorResponse (ReqID req) ErrInvalidRequest
                       ("unknown method: " +:+ Method req), s)
    | Some h => h req s
    end.

(** The loop of [handleConn]; it ends when [ReadRequest] fails, and the
    result of [WriteFrame] is not inspected.  Every iteration that does
    not end the loop consumes the four bytes of a header at least, so
    that [fuel] above the length of the input is never used up. *)
Fixpoint handleConn_loop (fuel : nat) (c : Conn) (s : S) : Conn * S :=
  match fuel with
  | O => (c, s)
  | Datatypes.S fuel' =>
      match ReadRequest c with
      | (Err _, c) => (c, s)
      | (Ok req, c) =>
          let (resp, s) := dispatch req s in
          let (_, c) := frame.WriteFrame (json_Marshal_Response resp) c in
          handleConn_loop fuel' c s
      end
  end.

(** [handleConn(conn)] *)
Definition handleConn (c : Conn) (s : S) : Conn * S :=
  handleConn_loop (Datatypes.S (length (input c))) c s.

(** The responses to a sequence of requests served one after the other,
    and the state they leave. *)
Fixpoint serve_all (reqs : list Request) (s : S) : list Response * S :=
  match reqs with
  | [] => ([], s)
  | req :: rest =>
      let (resp, s) := dispatch req s in
      let (resps, s) := serve_all rest s in
      (resp :: resps, s)
  end.

(** The bytes that [WriteFrame] puts on a working connection for a
    request and for a response: the frame, or nothing when the value
    cannot be marshalled. *)
Definition request_bytes (req : Request) : list ascii :=
  match json_Marshal_Request req with
  | Ok data => frame.frame_of data
  | Err _ => []
  end.

Definition response_bytes (resp : Response) : list ascii :=
  match json_Marshal_Response resp with
  | Ok data => frame.frame_of data
  | Err _ => []
  end.

(** A request that the codec carries through unchanged, in a frame that
    the reader accepts. *)
Definition carried (req : Request) : Prop :=
  exists data,
    json_Marshal_Request req = Ok data /\
    Z.of_nat (length data) <= frame.maxFrameSize /\
    json_Unmarshal_Request data = Ok req.

(** The service at the other end of a connection: it runs [handleConn]
    on the bytes that the client sends before it closes, and answers
    with what it has written. *)
Definition accept (bytes : list ascii) (s : S) : list ascii * S :=
  let (c, s) := handleConn (receiving bytes) s in (output c, s).

End Server.

(** [SendRequest(socketPath, req)].  [dial] is the outcome of
    [net.Dial]: an error, or the peer that accepts the connection, as a
    function of the bytes it is sent and of its state [t]. *)
Definition SendRequest `{WireLib} {T : Type} (socketPath : string)
    (dial : result (list ascii -> T -> list ascii * T)) (req : Request) (t : T)
  : result Response * T :=
  match dial with
  | Err e => (Err ("dial " +:+ socketPath +:+ ": " +:+ e), t)
  | Ok peer =>
      match frame.WriteFrame (json_Marshal_Request req) (receiving []) with
      | (Some e, _) => (Err ("write request: " +:+ e), t)
      | (None, c) =>
          let (answer, t) := peer (output c) t in
          match frame.ReadFrame (receiving answer) with
          | (Err e, _) => (Err ("read response: " +:+ e), t)
          | (Ok data, _) =>
              match json_Unmarshal_Response data with
              | Err e => (Err ("unmarshal response: " +:+ e), t)
              | Ok resp => (Ok resp, t)
              end
          end
      end
  end.

End server.

(** ** The handlers of the FS service *)

Module fs_main.

Section Main.
Context `{PolicyLib} `{Ed25519Lib} `{JsonLib} `{OsLib}.
Variable pubKey : PublicKey.

(** The handlers that [main] registers with [srv.Handle]. *)
Definition handlers : gmap string (@server.Handler fs.State) :=
  {[ "fs.open" := fs.fs_open pubKey;
     "fs.read" := fs.fs_read pubKey;
     "fs.list" := fs.fs_list pubKey;
     "fs.revoke" := fs.fs_revoke ]}.

End Main.

(** A response in the form that [SuccessResponse] and [ErrorResponse]
    give it, for the request [req]. *)
Definition answers (req : ipc.Request) (resp : ipc.Response) : Prop :=
  ipc.RespV resp = 1 /\
  ipc.RespReqID resp = ipc.ReqID req /\
  ((ipc.OK resp = true /\ is_Some (ipc.result_ resp) /\ ipc.error_ resp = None) \/
   (ipc.OK resp = false /\ ipc.result_ resp = None /\ is_Some (ipc.error_ resp))).

End fs_main.

(** ** A line-oriented stand-in for [encoding/json] on requests and
    responses

    One field per line.  It carries the requests whose parameters are
    strings, and the responses that hold a handle, a status or an
    error. *)

Module ref_wire.
Import ipc.

Definition lines (l : list string) : list ascii :=
  list_ascii_of_string (ref.join (String ref.lf EmptyString) l).

Definition unlines (data : list ascii) : list string :=
  ref.split_on ref.lf (string_of_list_ascii data).

Fixpoint params_lines (kvs : list (string * any)) : option (list string) :=
  match kvs with
  | [] => Some []
  | (k, AString v) :: rest => (fun l => k :: v :: l) <$> params_lines rest
  | _ => None
  end.

Fixpoint lines_params (l : list string) : option (gmap string any) :=
  match l with
  | [] => Some ∅
  | k :: v :: rest => (fun m => <[k := AString v]> m) <$> lines_params rest
  | _ => None
  end.

Definition Marshal_Request (req : Request) : result (list ascii) :=
  match params_lines (map_to_list (Params req)) with
  | None => Err "unsupported parameter"
  | Some ps =>
      Ok (lines (pretty (V req) :: ReqID req :: Method req
                 :: match auth req with
                    | None => "-"
                    | Some a => "+" +:+ Token a
                    end
                 :: ps))
  end.

Definition Unmarshal_Request (data : list ascii) : result Request :=
  match unlines data with
  | v :: id :: m :: a :: ps =>
      match ref.parse_Z v, lines_params ps with
      | Some v, Some params =>
          Ok {| V := v; ReqID := id; Method := m;
                auth := match a with
                        | String "+" t => Some {| Token := t |}
                        | _ => None
                        end;
                Params := params |}
      | _, _ => Err "invalid request"
      end
  | _ => Err "unexpected end of input"
  end.

Definition Marshal_Response (r : Response) : result (list ascii) :=
  if negb (Z.eqb (RespV r) 1) then Err "unsupported response"
  else
    match OK r, result_ r, error_ r with
    | true, Some (ResultHandle h), None => Ok (lines [RespReqID r; "handle"; h])
    | true, Some (ResultStatus st), None => Ok (lines [RespReqID r; "status"; st])
    | false, None, Some e =>
        Ok (lines [RespReqID r; "error"; pretty (Code e); Message e])
    | _, _, _ => Err "unsupported response"
    end.

Definition Unmarshal_Response (data : list ascii) : result Response :=
  match unlines data with
  | [id; kind; x] =>
      if String.eqb kind "handle" then Ok (SuccessResponse id (ResultHandle x))
      else if String.eqb kind "status" then Ok (SuccessResponse id (ResultStatus x))
      else Err "invalid response"
  | [id; kind; code; msg] =>
      match String.eqb kind "error", ref.parse_Z code with
      | true, Some code => Ok (ErrorResponse id code msg)
      | _, _ => Err "invalid response"
      end
  | _ => Err "unexpected end of input"
  end.

Definition wireLib : WireLib := {|
  json_Marshal_Request := Marshal_Request;
  json_Unmarshal_Request := Unmarshal_Request;
  json_Marshal_Response := Marshal_Response;
  json_Unmarshal_Response := Unmarshal_Response
|}.

End ref_wire.

(** ** Calls of the rate limiter over time *)

Module limiter.

(** The calls of [policy.enforceRateLimit] for one capability at the
    clock readings [times], the earliest first: the results and the
    bucket map left by the last call. *)
Fixpoint calls `{PolicyLib} (times : list time.Time) (capID rateLimit : string)
    (buckets : gmap string policy.bucket)
  : list (option policy.PolicyError) * gmap string policy.bucket :=
  match times with
  | [] => ([], buckets)
  | now :: rest =>
      let (r, buckets1) := policy.enforceRateLimit now capID rateLimit buckets in
      let (rs, buckets2) := calls rest capID rateLimit buckets1 in
      (r :: rs, buckets2)
  end.



End limiter.

(** ** Package [auth]: the revocation list ([revocation.go]) *)

Module revocation.

(** [RevocationList]: the set of revoked capability ids. *)
Definition RevocationList : Type := gset string.

Definition NewRevocationList : RevocationList := ∅.

(** [rl.Revoke(tokenID)] *)
Definition Revoke (tokenID : string) (rl : RevocationList) : RevocationList :=
  {[tokenID]} ∪ rl.

(** [rl.IsRevoked(tokenID)] *)
Definition IsRevoked (tokenID : string) (rl : RevocationList) : bool :=
  bool_decide (tokenID ∈ rl).

End revocation.

(** ** Package [encoding/hex] *)

Module hex.

Definition hextable : string := "0123456789abcdef".

Definition digit (v : Z) : ascii :=
  match String.get (Z.to_nat v) hextable with
  | Some c => c
  | None => "0"%char
  end.

(** [hex.EncodeToString(src)] *)
Fixpoint EncodeToString (src : list ascii) : string :=
  match src with
  | [] => EmptyString
  | b :: rest =>
      String (digit (Z.shiftr (base64.val_of b) 4))
        (String (digit (Z.land (base64.val_of b) 15)) (EncodeToString rest))
  end.

End hex.

(** ** Conversions and arithmetic of [int64] *)

(** The value of [int64(x)] for an [x] that is NaN, infinite or out of
    the range of [int64]: the language leaves it to the
    implementation. *)
Class ConvLib : Type := {
  int64_unspecified : float64 -> Z
}.

Module int64.

(** The value of a 64-bit pattern as a signed integer. *)
Definition wrap (z : Z) : Z := (z + 2 ^ 63) mod 2 ^ 64 - 2 ^ 63.

Definition in_range (z : Z) : bool := Z.leb (- 2 ^ 63) z && Z.ltb z (2 ^ 63).

(** [int64(x)]: the fraction is discarded. *)
Definition of_float64 `{ConvLib} (x : float64) : Z :=
  match x with
  | Fin q =>
      let z := Z.quot (Qnum q) (Z.pos (Qden q)) in
      if in_range z then z else wrap (int64_unspecified x)
  | _ => wrap (int64_unspecified x)
  end.

(** [a * b] *)
Definition mul (a b : Z) : Z := wrap (a * b).

End int64.

(** ** Package [capability]: [NewCapability] *)

Module issuing.
Import capability.

(** [NewCapability]; [rnd] holds the bytes that [rand.Read] puts in
    the buffer of 16 bytes, and [now] is the reading of [time.Now()]. *)
Definition NewCapability (rnd : list ascii) (now : time.Time) (service : string)
    (actions : list string) (cs : Constraints) (ttl : time.Duration) : Capability :=
  {| ID := hex.EncodeToString (firstn 16 (rnd ++ repeat Ascii.zero 16));
     Subject := "capability";
     IssuedAt := now;
     ExpiresAt := time.Add now ttl;
     Service := service;
     Actions := actions;
     Rights := [];
     constraints := cs |}.

(** [t.Unix()]: the seconds since the epoch, rounded down. *)
Definition Unix (t : time.Time) : Z := t / time.Second.

End issuing.

(** ** The identity service ([cmd/identity]) *)

Module identity.
Import capability.

(** A request parameter as the handlers tell them apart: an array, or a
    value that is no array. *)
Inductive param : Type :=
| Scalar (a : any)
| Array (elems : list any).

(** [ipc.Request], with parameters that can hold arrays. *)
Record Request : Type := {
  V : Z;
  ReqID : string;
  Method : string;
  auth : option ipc.Auth;
  Params : gmap string param
}.

(** The [Result] values that the identity service puts in a response. *)
Inductive Result : Type :=
| ResultIssued (token cap_id : string) (expires : Z)
| ResultStatus (status : string).

(** [ipc.Response], with these results. *)
Record Response : Type := {
  RespV : Z;
  RespReqID : string;
  OK : bool;
  result_ : option Result;
  error_ : option ipc.Error
}.

Definition SuccessResponse (reqID : string) (r : Result) : Response :=
  {| RespV := 1; RespReqID := reqID; OK := true; result_ := Some r; error_ := None |}.

Definition ErrorResponse (reqID : string) (code : Z) (msg : string) : Response :=
  {| RespV := 1; RespReqID := reqID; OK := false; result_ := None;
     error_ := Some {| ipc.Code := code; ipc.Message := msg |} |}.

(** [v, _ := m[key].(string)] *)
Definition get_string (m : gmap string param) (key : string) : string :=
  match m !! key with
  | Some (Scalar (AString s)) => s
  | _ => ""
  end.

(** [v, _ := m[key].(float64)] *)
Definition get_float64 (m : gmap string param) (key : string) : float64 :=
  match m !! key with
  | Some (Scalar (ANumber x)) => x
  | _ => Fin 0
  end.

(** The strings among the elements of the array [m[key]]; none when
    [m[key]] is no array. *)
Definition get_strings (m : gmap string param) (key : string) : list string :=
  match m !! key with
  | Some (Array elems) =>
      omap (fun a => match a with AString s => Some s | _ => None end) elems
  | _ => []
  end.

Section Service.
Context `{Ed25519Lib} `{JsonLib} `{WireLib} `{ConvLib}.

(** The signing key generated at startup, and the path of the socket
    of the FS service. *)
Variable privKey : PrivateKey.
Variable fsSock : string.

(** The claims that [identity.issue] signs for a request that passes
    its checks. *)
Definition claims_of (req : Request) (now : time.Time) (rnd : list ascii)
  : Capability :=
  let service := get_string (Params req) "service" in
  let actions := get_strings (Params req) "actions" in
  let rights := get_strings (Params req) "rights" in
  let pathPrefix := get_string (Params req) "path_prefix" in
  let rateLimit := get_string (Params req) "rate_limit" in
  let ttlSec := get_float64 (Params req) "ttl_seconds" in
  let ttlSec := if f64.le ttlSec (Fin 0) then Fin 3600 else ttlSec in
  let cap :=
    issuing.NewCapability rnd now service actions
      {| PathPrefix := pathPrefix; RateLimit := rateLimit |}
      (int64.mul (int64.of_float64 ttlSec) time.Second) in
  {| ID := ID cap; Subject := Subject cap; IssuedAt := IssuedAt cap;
     ExpiresAt := ExpiresAt cap; Service := Service cap; Actions := Actions cap;
     Rights := rights; constraints := constraints cap |}.

(** The handler of [identity.issue]. *)
Definition issue (req : Request) (now : time.Time) (rnd : list ascii) : Response :=
  let service := get_string (Params req) "service" in
  if String.eqb service "" then
    ErrorResponse (ReqID req) ipc.ErrInvalidRequest "missing service param"
  else
    let actions := get_strings (Params req) "actions" in
    let rights := get_strings (Params req) "rights" in
    if Nat.eqb (length actions) 0 && Nat.eqb (length rights) 0 then
      ErrorResponse (ReqID req) ipc.ErrInvalidRequest "actions or rights required"
    else
      let cap := claims_of req now rnd in
      match auth.Sign cap privKey with
      | Err e => ErrorResponse (ReqID req) ipc.ErrInternal e
      | Ok token =>
          SuccessResponse (ReqID req)
            (ResultIssued token (ID cap) (issuing.Unix (ExpiresAt cap)))
      end.

(** The request that [identity.revoke] sends to the FS service. *)
Definition notification (capID : string) : ipc.Request :=
  {| ipc.V := 1; ipc.ReqID := "revoke-" +:+ capID; ipc.Method := "fs.revoke";
     ipc.auth := None; ipc.Params := {["cap_id" := AString capID]} |}.

(** The handler of [identity.revoke]; [dial] is the outcome of dialling
    the socket of the FS service, whose state is [t], and the outcome
    of the notification is logged only. *)
Definition revoke {T : Type} (req : Request)
    (dial : result (list ascii -> T -> list ascii * T))
    (revocations : revocation.RevocationList) (t : T)
  : Response * revocation.RevocationList * T :=
  let capID := get_string (Params req) "cap_id" in
  if String.eqb capID "" then
    (ErrorResponse (ReqID req) ipc.ErrInvalidRequest "missing cap_id param",
     revocations, t)
  else
    let revocations := revocation.Revoke capID revocations in
    let (_, t) := server.SendRequest fsSock dial (notification capID) t in
    (SuccessResponse (ReqID req) (ResultStatus "revoked"), revocations, t).

End Service.

End identity.

(** ** Concrete inputs for the identity service *)

Module identity_examples.

(** The conversion of the amd64 implementation: the smallest [int64]
    for every value that has no [int64]. *)
Definition convLib : ConvLib := {| int64_unspecified := fun _ => - 2 ^ 63 |}.

(** A request for a capability for the FS service, for one minute. *)
Definition issue_req : identity.Request := {|
  identity.V := 1;
  identity.ReqID := "i1";
  identity.Method := "identity.issue";
  identity.auth := None;
  identity.Params :=
    {[ "service" := identity.Scalar (AString "fs");
       "actions" := identity.Array [AString "open"; AString "read"; ANumber (Fin 1)];
       "path_prefix" := identity.Scalar (AString "/tmp");
       "ttl_seconds" := identity.Scalar (ANumber (Fin (605 # 10))) ]}
|}.

(** A request whose actions hold no string. *)
Definition bad_issue_req : identity.Request := {|
  identity.V := 1;
  identity.ReqID := "i2";
  identity.Method := "identity.issue";
  identity.auth := None;
  identity.Params :=
    {[ "service" := identity.Scalar (AString "fs");
       "actions" := identity.Array [ANumber (Fin 1); ABool true];
       "rights" := identity.Scalar (AString "fs.open") ]}
|}.

Definition revoke_req (capID : string) : identity.Request := {|
  identity.V := 1;
  identity.ReqID := "i3";
  identity.Method := "identity.revoke";
  identity.auth := None;
  identity.Params := {[ "cap_id" := identity.Scalar (AString capID) ]}
|}.

(** Sixteen bytes drawn for a capability id. *)
Definition drawn : list ascii := list_ascii_of_string "0123456789abcdef".

(** The claims that the identity service signs for [issue_req] at time
    5, and their JSON text. *)
Definition issued_claims : capability.Capability :=
  @identity.claims_of convLib issue_req 5 drawn.

Definition issued_message : list ascii :=
  match ref.Marshal issued_claims with Ok m => m | Err _ => [] end.

(** The handlers of the FS service of the examples. *)
Definition fs_handlers : gmap string (@server.Handler examples.State) :=
  @fs_main.handlers examples.lib ref.macLib ref.jsonLib ref.osLib examples.node_key.

End identity_examples.

(** * Properties *)

(** ** Text *)

Module strings_facts.

Lemma prefix_append (p r : string) : String.prefix p (p +:+ r) = true.
Proof.
  induction p as [|c p IH]; simpl.
  - now destruct r.
  - destruct (ascii_dec c c) as [_|n]; [exact IH | now elim n].
Qed.

(** [HasPrefix s p] holds exactly when [s] is [p] followed by some text. *)
Lemma HasPrefix_spec (s p : string) :
  strings.HasPrefix s p = true <-> exists r, s = p +:+ r.
Proof.
  unfold strings.HasPrefix. split.
  - revert s. induction p as [|c p IH]; intros s Hp.
    + exists s. reflexivity.
    + destruct s as [|d s]; simpl in Hp; [discriminate|].
      destruct (ascii_dec c d) as [->|]; [|discriminate].
      destruct (IH _ Hp) as [r ->]. now exists r.
  - intros [r ->]. apply prefix_append.
Qed.

Lemma Contains_unfold (s sub : string) :
  strings.Contains s sub =
  strings.HasPrefix s sub ||
  match s with
  | EmptyString => false
  | String _ s' => strings.Contains s' sub
  end.
Proof. destruct s; reflexivity. Qed.

(** [Contains s sub] holds exactly when [sub] occurs in [s]. *)
Lemma Contains_spec (s sub : string) :
  strings.Contains s sub = true <-> exists a b, s = a +:+ sub +:+ b.
Proof.
  split.
  - induction s as [|c s IH]; rewrite Contains_unfold; intros Hc.
    + rewrite orb_false_r in Hc.
      apply (proj1 (HasPrefix_spec _ _)) in Hc as [r Hr].
      exists EmptyString, r. exact Hr.
    + apply orb_true_iff in Hc as [Hc|Hc].
      * apply (proj1 (HasPrefix_spec _ _)) in Hc as [r Hr].
        exists EmptyString, r. exact Hr.
      * destruct (IH Hc) as (a & b & ->). now exists (String c a), b.
  - intros (a & b & ->). induction a as [|c a IH].
    + rewrite Contains_unfold.
      rewrite (proj2 (HasPrefix_spec _ _)); [reflexivity|].
      now exists b.
    + rewrite Contains_unfold. simpl in *. rewrite IH. apply orb_true_r.
Qed.

(** [cut_dot] splits at a dot, and the first part has none. *)
Lemma cut_dot_spec (s a b : string) :
  strings.cut_dot s = Some (a, b) ->
  s = a +:+ "." +:+ b /\ strings.Contains a "." = false.
Proof.
  revert a. induction s as [|c s IH]; simpl; intros a Hc; [discriminate|].
  destruct (Ascii.eqb c ".") eqn:E.
  - apply Ascii.eqb_eq in E. subst c. inversion Hc; subst. now split.
  - destruct (strings.cut_dot s) as [[a' b']|]; [|discriminate].
    inversion Hc; subst. destruct (IH a' eq_refl) as [-> Hn].
    split; [reflexivity|].
    rewrite Contains_unfold. unfold strings.HasPrefix. cbn [String.prefix].
    destruct (ascii_dec "." c) as [<-|_];
      [now rewrite Ascii.eqb_refl in E|].
    exact Hn.
Qed.

Lemma SplitN_two (s a b : string) :
  strings.SplitN_dot_2 s = [a; b] -> s = a +:+ "." +:+ b.
Proof.
  unfold strings.SplitN_dot_2.
  destruct (strings.cut_dot s) as [[a' b']|] eqn:E; [|discriminate].
  intros Heq. inversion Heq; subst. exact (proj1 (cut_dot_spec _ _ _ E)).
Qed.

End strings_facts.

(** ** The authorization decision *)

Module policy_facts.
Import capability policy.

Lemma hasRight_In (rights : list string) (required : string) :
  hasRight rights required = true <-> In required rights.
Proof.
  induction rights as [|r rest IH]; simpl.
  - split; [discriminate | tauto].
  - destruct (String.eqb r required) eqn:E.
    + apply String.eqb_eq in E. tauto.
    + apply String.eqb_neq in E. rewrite IH. split; [tauto|].
      intros [Heq|Hin]; [contradiction | exact Hin].
Qed.

Lemma hasAction_In (actions : list string) (required : string) :
  hasAction actions required = true <-> In required actions.
Proof.
  induction actions as [|a rest IH]; simpl.
  - split; [discriminate | tauto].
  - destruct (String.eqb a required) eqn:E.
    + apply String.eqb_eq in E. tauto.
    + apply String.eqb_neq in E. rewrite IH. split; [tauto|].
      intros [Heq|Hin]; [contradiction | exact Hin].
Qed.

Section Decision.
Context `{PolicyLib}.

(** The result of [enforceConstraints] is that of the two enforcers,
    the path prefix first. *)
Lemma enforceConstraints_None now c ctx bs :
  fst (enforceConstraints now c ctx bs) = None <->
  enforcePathPrefix (PathPrefix (constraints c)) ctx = None /\
  fst (enforceRateLimit now (ID c) (RateLimit (constraints c)) bs) = None.
Proof.
  unfold enforceConstraints.
  destruct (enforcePathPrefix _ ctx) as [e|]; simpl.
  - split; [discriminate | intros [Hd _]; discriminate].
  - destruct (enforceRateLimit _ _ _ _) as [[e|] bs']; simpl;
      split; try tauto; try discriminate.
Qed.

(** Every step of the decision order is sufficient as well: when all of
    them pass, the request is authorized. *)
Lemma Authorize_complete now c method ctx bs service action :
  strings.SplitN_dot_2 method = [service; action] ->
  Service c = service ->
  In method (Rights c) \/ In action (Actions c) ->
  enforcePathPrefix (PathPrefix (constraints c)) ctx = None ->
  fst (enforceRateLimit now (ID c) (RateLimit (constraints c)) bs) = None ->
  fst (Authorize now (Some c) method ctx bs) = None.
Proof.
  intros Hsplit Hsvc Hperm Hpath Hrate. unfold Authorize. rewrite Hsplit.
  rewrite Hsvc, String.eqb_refl. cbn [negb].
  assert (negb (hasRight (Rights c) method) && negb (hasAction (Actions c) action)
          = false) as ->.
  { destruct Hperm as [Hr|Ha].
    - apply hasRight_In in Hr. now rewrite Hr.
    - apply hasAction_In in Ha. rewrite Ha. apply andb_false_r. }
  apply enforceConstraints_None. now split.
Qed.

(** What a nil result of [Authorize] implies. *)
Lemma Authorize_None_inv now claims method ctx bs :
  fst (Authorize now claims method ctx bs) = None ->
  exists c service action,
    claims = Some c /\
    strings.SplitN_dot_2 method = [service; action] /\
    method = service +:+ "." +:+ action /\
    Service c = service /\
    (In method (Rights c) \/ In action (Actions c)) /\
    enforcePathPrefix (PathPrefix (constraints c)) ctx = None /\
    fst (enforceRateLimit now (ID c) (RateLimit (constraints c)) bs) = None.
Proof.
  unfold Authorize. destruct claims as [c|]; [|discriminate].
  destruct (strings.SplitN_dot_2 method) as [|service [|action [|]]] eqn:Hsplit;
    try discriminate.
  destruct (String.eqb (Service c) service) eqn:Hsvc; [|discriminate].
  cbn [negb].
  destruct (hasRight (Rights c) method) eqn:Hr;
    destruct (hasAction (Actions c) action) eqn:Ha; cbn [negb andb];
    try discriminate;
    intros Hc; apply enforceConstraints_None in Hc as [Hp Hl];
    exists c, service, action;
    (split; [reflexivity|]); (split; [reflexivity|]);
    (split; [exact (strings_facts.SplitN_two _ _ _ Hsplit)|]);
    (split; [now apply String.eqb_eq|]);
    (split; [|now split]).
  - left. now apply hasRight_In.
  - left. now apply hasRight_In.
  - right. now apply hasAction_In.
Qed.

(** C1 (deny by default).  [Authorize] returns nil only when the claims
    are present, the method is [service.action], the claims are for
    that service, the method is among the rights or the action among
    the actions, and the path-prefix and rate-limit constraints pass;
    on nil claims it returns [Unauthenticated], code 2. *)
Theorem Authorize_deny_by_default now claims method ctx bs :
  (fst (Authorize now claims method ctx bs) = None ->
   exists c service action,
     claims = Some c /\
     strings.SplitN_dot_2 method = [service; action] /\
     method = service +:+ "." +:+ action /\
     Service c = service /\
     (In method (Rights c) \/ In action (Actions c)) /\
     enforcePathPrefix (PathPrefix (constraints c)) ctx = None /\
     fst (enforceRateLimit now (ID c) (RateLimit (constraints c)) bs) = None)
  /\ Authorize now None method ctx bs =
     (Some {| Code := 2; Name := "UNAUTHENTICATED"; Message := "token required" |},
      bs).
Proof.
  split; [apply Authorize_None_inv | reflexivity].
Qed.

End Decision.

(** The decision order is passed by a listing of [/tmp/x] under a
    capability for [/tmp]. *)
Lemma Authorize_deny_by_default_witness :
  exists c service action,
    Some examples.cap_tmp = Some c /\
    strings.SplitN_dot_2 "fs.list" = [service; action] /\
    "fs.list" = service +:+ "." +:+ action /\
    Service c = service /\
    (In "fs.list" (Rights c) \/ In action (Actions c)) /\
    @enforcePathPrefix examples.lib (PathPrefix (constraints c))
      (examples.ctx_path "/tmp/x") = None /\
    fst (@enforceRateLimit examples.lib 5 (ID c) (RateLimit (constraints c)) ∅) = None.
Proof.
  apply (proj1 (@Authorize_deny_by_default examples.lib 5 (Some examples.cap_tmp)
                  "fs.list" (examples.ctx_path "/tmp/x") ∅)).
  vm_compute. reflexivity.
Defined.

End policy_facts.

(** ** The path-prefix constraint *)

Module path_facts.
Import capability policy.

Section Path.
Context `{PolicyLib}.

(** The constraint passes only for a path without [..] whose absolute
    form is the absolute prefix or lies below it. *)
Lemma enforcePathPrefix_None (P Q : string) (ctx : gmap string any) :
  P <> "" -> Q <> "" -> get_string ctx "path" = Q ->
  enforcePathPrefix P ctx = None ->
  strings.Contains Q ".." = false /\
  exists absQ absP,
    filepath_Abs Q = Ok absQ /\ filepath_Abs P = Ok absP /\
    (absQ = absP \/ strings.HasPrefix absQ (absP +:+ filepath_Separator) = true).
Proof.
  intros HP HQ Hctx. unfold enforcePathPrefix. rewrite Hctx.
  apply String.eqb_neq in HP, HQ. rewrite HP, HQ.
  destruct (strings.Contains Q "..") eqn:Hdots; [discriminate|].
  destruct (filepath_Abs Q) as [absQ|e]; [|discriminate].
  destruct (filepath_Abs P) as [absP|e]; [|discriminate].
  destruct (String.eqb absQ absP) eqn:Heq; cbn [negb andb].
  - intros _. split; [reflexivity|]. exists absQ, absP.
    apply String.eqb_eq in Heq. auto.
  - destruct (strings.HasPrefix absQ _) eqn:Hpre; cbn [negb]; [|discriminate].
    intros _. split; [reflexivity|]. exists absQ, absP. auto.
Qed.

(** C2 (path containment).  With a non-empty prefix [P] and a non-empty
    context path [Q], the constraint, and hence [Authorize], passes
    only if [abs(Q)] is [abs(P)] or starts with [abs(P)] followed by the
    separator; a [Q] that contains [..] is denied as a traversal; and
    under the prefix [/tmp] the path [/tmpevil] is denied. *)
Theorem path_containment (P Q : string) (ctx : gmap string any) :
  P <> "" -> Q <> "" -> get_string ctx "path" = Q ->
  (enforcePathPrefix P ctx = None ->
   exists absQ absP,
     filepath_Abs Q = Ok absQ /\ filepath_Abs P = Ok absP /\
     (absQ = absP \/ exists rest, absQ = (absP +:+ filepath_Separator) +:+ rest))
  /\ (forall now c method bs,
        PathPrefix (constraints c) = P ->
        fst (Authorize now (Some c) method ctx bs) = None ->
        enforcePathPrefix P ctx = None)
  /\ ((exists a b, Q = a +:+ ".." +:+ b) ->
      enforcePathPrefix P ctx = Some (denied "path traversal not allowed"))
  /\ (filepath_Abs "/tmp" = Ok "/tmp" ->
      filepath_Abs "/tmpevil" = Ok "/tmpevil" ->
      enforcePathPrefix "/tmp" (examples.ctx_path "/tmpevil") =
      Some (denied "path /tmpevil outside allowed prefix /tmp")).
Proof.
  intros HP HQ Hctx. repeat apply conj.
  - intros Hok.
    destruct (enforcePathPrefix_None P Q ctx HP HQ Hctx Hok)
      as (_ & absQ & absP & HaQ & HaP & Hin).
    exists absQ, absP. repeat split; try assumption.
    destruct Hin as [Heq|Hpre]; [now left | right].
    now apply strings_facts.HasPrefix_spec.
  - intros now c method bs HPc Hauth.
    destruct (policy_facts.Authorize_None_inv now (Some c) method ctx bs Hauth)
      as (c' & _ & _ & Hc & _ & _ & _ & _ & Hp & _).
    inversion Hc; subst c'. now rewrite HPc in Hp.
  - intros Hsub. apply strings_facts.Contains_spec in Hsub.
    unfold enforcePathPrefix. rewrite Hctx.
    apply String.eqb_neq in HP, HQ. now rewrite HP, HQ, Hsub.
  - intros Htmp Hevil. unfold enforcePathPrefix.
    replace (get_string (examples.ctx_path "/tmpevil") "path") with "/tmpevil"
      by (vm_compute; reflexivity).
    cbn [String.eqb Ascii.eqb Bool.eqb].
    replace (strings.Contains "/tmpevil" "..") with false by (vm_compute; reflexivity).
    rewrite Htmp, Hevil. vm_compute. reflexivity.
Qed.

End Path.

(** Under the prefix [/tmp], the path [/tmp/x] passes and is contained;
    the library is the reference one, in a process running in [/]. *)
Lemma path_containment_witness :
  (@enforcePathPrefix examples.lib "/tmp" (examples.ctx_path "/tmp/x") = None ->
   exists absQ absP,
     @filepath_Abs examples.lib "/tmp/x" = Ok absQ /\
     @filepath_Abs examples.lib "/tmp" = Ok absP /\
     (absQ = absP \/ exists rest, absQ = (absP +:+ filepath_Separator) +:+ rest))
  /\ (forall now c method bs,
        PathPrefix (constraints c) = "/tmp" ->
        fst (@Authorize examples.lib now (Some c) method (examples.ctx_path "/tmp/x") bs)
        = None ->
        @enforcePathPrefix examples.lib "/tmp" (examples.ctx_path "/tmp/x") = None)
  /\ ((exists a b, "/tmp/x" = a +:+ ".." +:+ b) ->
      @enforcePathPrefix examples.lib "/tmp" (examples.ctx_path "/tmp/x") =
      Some (denied "path traversal not allowed"))
  /\ (@filepath_Abs examples.lib "/tmp" = Ok "/tmp" ->
      @filepath_Abs examples.lib "/tmpevil" = Ok "/tmpevil" ->
      @enforcePathPrefix examples.lib "/tmp" (examples.ctx_path "/tmpevil") =
      Some (denied "path /tmpevil outside allowed prefix /tmp")).
Proof.
  apply (@path_containment examples.lib "/tmp" "/tmp/x" (examples.ctx_path "/tmp/x")).
  - discriminate.
  - discriminate.
  - vm_compute. reflexivity.
Defined.

(** The boundary cases of the prefix [/tmp], whatever the working
    directory: [/tmp], [/tmp/x] and [/tmp/a/b] pass; [/tmpevil],
    [/tmpevil/x], [/var] and [/tmp/../etc/passwd] are denied. *)
Lemma prefix_tmp_boundary (cwd : string) :
  Forall (fun q => @enforcePathPrefix (ref.policyLib cwd) "/tmp" (examples.ctx_path q)
                   = None)
         ["/tmp"; "/tmp/x"; "/tmp/a/b"]
  /\ Forall (fun q => exists e,
               @enforcePathPrefix (ref.policyLib cwd) "/tmp" (examples.ctx_path q)
               = Some e /\ Code e = 3)
            ["/tmpevil"; "/tmpevil/x"; "/var"; "/tmp/../etc/passwd"].
Proof.
  split; repeat constructor; eexists; split; vm_compute; reflexivity.
Qed.

End path_facts.

(** ** The rate-limit constraint *)

Module rate_facts.
Import capability policy.

Section Rate.
Context `{PolicyLib}.


(** [parseRate] accepts what [strconv.ParseFloat] reads as NaN, since the
    comparison [n <= 0] is false for it. *)
Lemma parseRate_NaN (s : string) :
  strings.HasSuffix (strings_TrimSpace s) "rps" = true ->
  strconv_ParseFloat (strings.TrimSuffix (strings_TrimSpace s) "rps") = Ok NaN ->
  parseRate s = (NaN, true).
Proof.
  intros Hsuf Hparse. unfold parseRate. now rewrite Hsuf, Hparse.
Qed.

(** One call on the bucket that the call finds or creates, when its
    token count [t] and rate [r] are finite. *)
Lemma enforceRateLimit_finite now capID rateLimit bs q t r lst :
  rateLimit <> "" ->
  parseRate rateLimit = (q, true) ->
  match bs !! capID with
  | Some b => b
  | None => {| tokens := q; rate := q; last := now |}
  end = {| tokens := Fin t; rate := Fin r; last := lst |} ->
  enforceRateLimit now capID rateLimit bs =
  let refilled := (t + (time.Sub now lst # 1000000000) * r)%Q in
  let capped := if Qle_bool refilled r then refilled else r in
  if Qle_bool 1 capped then
    (None, <[capID := {| tokens := Fin (capped + -1); rate := Fin r; last := now |}]> bs)
  else
    (Some exhausted,
     <[capID := {| tokens := Fin capped; rate := Fin r; last := now |}]> bs).
Proof.
  intros Hne Hparse Hb. unfold enforceRateLimit.
  apply String.eqb_neq in Hne. rewrite Hne, Hparse, Hb.
  cbn [tokens rate last].
  unfold time.Seconds, f64.gt, f64.mul, f64.add, f64.lt. cbv zeta.
  destruct (Qle_bool (t + (time.Sub now lst # 1000000000) * r) r);
    unfold f64.dec, f64.add; cbn [negb].
  - destruct (Qle_bool 1 _); reflexivity.
  - destruct (Qle_bool 1 r); reflexivity.
Qed.

Lemma Sub_same (now : time.Time) : time.Sub now now = 0.
Proof. unfold time.Sub. rewrite Z.sub_diag. reflexivity. Qed.




End Rate.



End rate_facts.

(** ** Base64 *)

Module base64_facts.
Import base64.

Lemma land_shiftl_small (a b k : Z) :
  0 <= k -> 0 <= b < 2 ^ k -> Z.land (Z.shiftl a k) b = 0.
Proof.
  intros Hk Hb. apply Z.bits_inj'. intros n Hn.
  rewrite Z.land_spec, Z.bits_0.
  destruct (Z.lt_ge_cases n k) as [Hlt|Hge].
  - now rewrite Z.shiftl_spec_low.
  - assert (Z.testbit b n = false) as ->; [|apply andb_false_r].
    apply Z.testbit_false; [exact Hn|].
    rewrite Z.div_small; [reflexivity|].
    split; [lia|]. apply Z.lt_le_trans with (2 ^ k); [lia|].
    apply Z.pow_le_mono_r; lia.
Qed.

(** A bitwise or of a multiple of [2^k] and a value below [2^k] is their
    sum. *)
Lemma lor_add (x b k : Z) :
  0 <= k -> 0 <= b < 2 ^ k -> x mod 2 ^ k = 0 -> Z.lor x b = x + b.
Proof.
  intros Hk Hb Hx.
  assert (Hsh : x = Z.shiftl (x / 2 ^ k) k).
  { rewrite Z.shiftl_mul_pow2 by exact Hk.
    pose proof (Z.div_mod x (2 ^ k)) as Hdm. lia. }
  rewrite <- Z.add_lor_land.
  assert (Z.land x b = 0) as ->; [|lia].
  rewrite Hsh. now apply land_shiftl_small.
Qed.

Lemma val_of_range (c : ascii) : 0 <= val_of c < 256.
Proof.
  unfold val_of. pose proof (N_ascii_bounded c) as Hb. lia.
Qed.

Lemma byte_of_val_of (c : ascii) (z : Z) :
  z mod 256 = val_of c -> byte_of z = c.
Proof.
  intros Hz. unfold byte_of. rewrite Hz. unfold val_of.
  rewrite N2Z.id. apply ascii_N_embedding.
Qed.

(** The three bytes of a group as one 24-bit number. *)
Lemma group_value (a b c : ascii) :
  Z.lor (Z.lor (Z.shiftl (val_of a) 16) (Z.shiftl (val_of b) 8)) (val_of c)
  = val_of a * 65536 + val_of b * 256 + val_of c.
Proof.
  pose proof (val_of_range a). pose proof (val_of_range b).
  pose proof (val_of_range c).
  rewrite !Z.shiftl_mul_pow2 by lia.
  change (2 ^ 16) with 65536. change (2 ^ 8) with 256.
  rewrite (lor_add (val_of a * 65536) (val_of b * 256) 16);
    [|lia|change (2 ^ 16) with 65536; lia
     |change (2 ^ 16) with 65536; apply Z.mod_mul; lia].
  rewrite (lor_add _ (val_of c) 8);
    [reflexivity|lia|change (2 ^ 8) with 256; lia|].
  change (2 ^ 8) with 256.
  replace (val_of a * 65536 + val_of b * 256) with ((val_of a * 256 + val_of b) * 256)
    by lia.
  apply Z.mod_mul. lia.
Qed.

(** The four digits of a group as one 24-bit number. *)
Lemma quantum_value (d0 d1 d2 d3 : Z) :
  0 <= d0 < 64 -> 0 <= d1 < 64 -> 0 <= d2 < 64 -> 0 <= d3 < 64 ->
  quantum d0 d1 d2 d3 = d0 * 262144 + d1 * 4096 + d2 * 64 + d3.
Proof.
  intros H0 H1 H2 H3. unfold quantum.
  rewrite !Z.shiftl_mul_pow2 by lia.
  change (2 ^ 18) with 262144. change (2 ^ 12) with 4096. change (2 ^ 6) with 64.
  rewrite (lor_add (d0 * 262144) (d1 * 4096) 18);
    [|lia|change (2 ^ 18) with 262144; lia
     |change (2 ^ 18) with 262144; apply Z.mod_mul; lia].
  rewrite (lor_add _ (d2 * 64) 12);
    [|lia|change (2 ^ 12) with 4096; lia|].
  2:{ change (2 ^ 12) with 4096.
      replace (d0 * 262144 + d1 * 4096) with ((d0 * 64 + d1) * 4096) by lia.
      apply Z.mod_mul. lia. }
  rewrite (lor_add _ d3 6); [reflexivity|lia|change (2 ^ 6) with 64; lia|].
  change (2 ^ 6) with 64.
  replace (d0 * 262144 + d1 * 4096 + d2 * 64)
    with ((d0 * 4096 + d1 * 64 + d2) * 64) by lia.
  apply Z.mod_mul. lia.
Qed.

(** A 6-bit digit of a number. *)
Lemma digit_value (v k : Z) :
  0 <= k -> Z.land (Z.shiftr v k) 63 = (v / 2 ^ k) mod 64.
Proof.
  intros Hk. rewrite Z.shiftr_div_pow2 by exact Hk.
  change 63 with (Z.ones 6). rewrite Z.land_ones by lia. reflexivity.
Qed.

Lemma digit_value_0 (v : Z) : Z.land v 63 = v mod 64.
Proof. change 63 with (Z.ones 6). rewrite Z.land_ones by lia. reflexivity. Qed.

Lemma digit_range (v : Z) : 0 <= v mod 64 < 64.
Proof. apply Z.mod_pos_bound. lia. Qed.

(** Every digit is read back from its character, which is neither a
    line break nor outside the alphabet. *)
Lemma decodeMap_encode_char (v : Z) :
  0 <= v < 64 -> decodeMap (encode_char v) = v.
Proof.
  intros Hv. rewrite <- (Z2Nat.id v) by lia.
  assert (Hn : (Z.to_nat v < 64)%nat) by lia.
  generalize dependent (Z.to_nat v). clear v Hv. intros n Hn.
  do 64 (destruct n as [|n]; [reflexivity|]). lia.
Qed.

Lemma decode_digit (v : Z) (rest : list ascii) (si : Z) (dbuf : list Z) :
  0 <= v < 64 -> (length dbuf < 3)%nat ->
  decode_loop (encode_char v :: rest) si dbuf =
  decode_loop rest (si + 1) (dbuf ++ [v]).
Proof.
  intros Hv Hlen. cbn [decode_loop]. rewrite decodeMap_encode_char by exact Hv.
  destruct (Z.eqb_spec v 255) as [->|_]; [lia|]. cbn [negb].
  destruct dbuf as [|d0 [|d1 [|d2 [|d3 dbuf]]]]; cbn [length] in Hlen;
    try reflexivity; lia.
Qed.

Lemma decode_fourth_digit (v d0 d1 d2 : Z) (rest : list ascii) (si : Z) :
  0 <= v < 64 ->
  decode_loop (encode_char v :: rest) si [d0; d1; d2] =
  prepend [byte_of (Z.shiftr (quantum d0 d1 d2 v) 16);
           byte_of (Z.shiftr (quantum d0 d1 d2 v) 8);
           byte_of (quantum d0 d1 d2 v)]
          (decode_loop rest (si + 1) []).
Proof.
  intros Hv. cbn [decode_loop]. rewrite decodeMap_encode_char by exact Hv.
  destruct (Z.eqb_spec v 255) as [->|_]; [lia|]. reflexivity.
Qed.

(** A full group of three bytes is read back. *)
Lemma decode_group (a b c : ascii) (rest : list ascii) (si : Z) :
  decode_loop (Encode (a :: b :: c :: rest)) si [] =
  prepend [a; b; c] (decode_loop (Encode rest) (si + 1 + 1 + 1 + 1) []).
Proof.
  cbn [Encode]. cbv zeta. rewrite group_value.
  pose proof (val_of_range a) as Ha. pose proof (val_of_range b) as Hb.
  pose proof (val_of_range c) as Hc.
  set (val := val_of a * 65536 + val_of b * 256 + val_of c).
  rewrite !digit_value by lia. rewrite digit_value_0.
  change (2 ^ 18) with 262144. change (2 ^ 12) with 4096. change (2 ^ 6) with 64.
  rewrite (decode_digit _ _ si []) by (apply digit_range || (cbn; lia)).
  cbn [app].
  rewrite (decode_digit _ _ _ [_]) by (apply digit_range || (cbn; lia)).
  cbn [app].
  rewrite (decode_digit _ _ _ [_; _]) by (apply digit_range || (cbn; lia)).
  cbn [app]. rewrite decode_fourth_digit by apply digit_range.
  rewrite quantum_value by apply digit_range.
  assert (Hq : (val / 262144) mod 64 * 262144 + (val / 4096) mod 64 * 4096
               + (val / 64) mod 64 * 64 + val mod 64 = val).
  { unfold val. Z.div_mod_to_equations. lia. }
  rewrite Hq. rewrite !Z.shiftr_div_pow2 by lia.
  change (2 ^ 16) with 65536. change (2 ^ 8) with 256.
  rewrite (byte_of_val_of a), (byte_of_val_of b), (byte_of_val_of c);
    [reflexivity| | |]; unfold val; Z.div_mod_to_equations; lia.
Qed.

(** [DecodeString] undoes [EncodeToString]. *)
Lemma decode_Encode (bs : list ascii) :
  forall si, decode_loop (Encode bs) si [] = Ok bs.
Proof.
  assert (Hall : forall n bs, (length bs <= n)%nat ->
                              forall si, decode_loop (Encode bs) si [] = Ok bs).
  { clear bs. induction n as [|n IH]; intros bs Hlen si.
    - destruct bs; [reflexivity | cbn in Hlen; lia].
    - destruct bs as [|a [|b [|c rest]]].
      + reflexivity.
      + (* one byte left *)
        cbn [Encode]. cbv zeta.
        pose proof (val_of_range a) as Ha.
        rewrite !Z.shiftl_mul_pow2 by lia. change (2 ^ 16) with 65536.
        rewrite !digit_value by lia.
        change (2 ^ 18) with 262144. change (2 ^ 12) with 4096.
        rewrite (decode_digit _ _ si []) by (apply digit_range || (cbn; lia)).
        cbn [app].
  cbn [app].
        rewrite (decode_digit _ _ _ [_]) by (apply digit_range || (cbn; lia)).
        cbn [app].
  cbn [app].
        cbn [app decode_loop].
        rewrite quantum_value by (apply digit_range || lia).
        rewrite Z.shiftr_div_pow2 by lia. change (2 ^ 16) with 65536.
        rewrite (byte_of_val_of a); [reflexivity|].
        Z.div_mod_to_equations. lia.
      + (* two bytes left *)
        cbn [Encode]. cbv zeta.
        pose proof (val_of_range a) as Ha. pose proof (val_of_range b) as Hb.
        rewrite !Z.shiftl_mul_pow2 by lia.
        change (2 ^ 16) with 65536. change (2 ^ 8) with 256.
        rewrite (lor_add (val_of a * 65536) (val_of b * 256) 16);
          [|lia|change (2 ^ 16) with 65536; lia
           |change (2 ^ 16) with 65536; apply Z.mod_mul; lia].
        rewrite !digit_value by lia.
        change (2 ^ 18) with 262144. change (2 ^ 12) with 4096.
        change (2 ^ 6) with 64.
        rewrite (decode_digit _ _ si []) by (apply digit_range || (cbn; lia)).
        cbn [app].
  cbn [app].
        rewrite (decode_digit _ _ _ [_]) by (apply digit_range || (cbn; lia)).
        cbn [app].
  cbn [app].
        rewrite (decode_digit _ _ _ [_; _]) by (apply digit_range || (cbn; lia)).
        cbn [app decode_loop]. cbv zeta.
        rewrite quantum_value by (apply digit_range || lia).
        rewrite !Z.shiftr_div_pow2 by lia.
        change (2 ^ 16) with 65536. change (2 ^ 8) with 256.
        rewrite (byte_of_val_of a), (byte_of_val_of b);
          [reflexivity| |]; Z.div_mod_to_equations; lia.
      + rewrite decode_group. rewrite IH; [reflexivity|].
        cbn [length] in Hlen. lia. }
  exact (Hall (length bs) bs (le_n _)).
Qed.

Lemma DecodeString_EncodeToString (bs : list ascii) :
  DecodeString (EncodeToString bs) = Ok bs.
Proof.
  unfold DecodeString, EncodeToString.
  rewrite list_ascii_of_string_of_list_ascii. apply decode_Encode.
Qed.

End base64_facts.

(** ** Tokens *)

Module auth_facts.
Import capability auth.

Lemma substring_all (s : string) : String.substring 0 (String.length s) s = s.
Proof. induction s as [|c s IH]; simpl; [reflexivity | now f_equal]. Qed.

Lemma length_append (a b : string) :
  String.length (a +:+ b) = (String.length a + String.length b)%nat.
Proof. induction a as [|c a IH]; simpl; [reflexivity | now f_equal]. Qed.

(** The text that follows a prefix, as [token[len(prefix):]] takes it. *)
Lemma substring_after (h r : string) :
  String.substring (String.length h)
                   (String.length (h +:+ r) - String.length h) (h +:+ r) = r.
Proof.
  rewrite length_append.
  replace (String.length h + String.length r - String.length h)%nat
    with (String.length r) by lia.
  induction h as [|c h IH]; simpl; [apply substring_all | exact IH].
Qed.

Lemma le64_length (n : Z) : length (le64 n) = 8%nat.
Proof. reflexivity. Qed.


Lemma copy_sig_full (sig : list ascii) :
  length sig = ed25519_SignatureSize -> copy_sig sig = sig.
Proof.
  intros Hlen. unfold copy_sig.
  rewrite firstn_app, Hlen, Nat.sub_diag. cbn [firstn].
  rewrite <- Hlen, firstn_all. apply app_nil_r.
Qed.


Section Tokens.
Context `{Ed25519Lib} `{JsonLib}.

(** [Verify] reads a token through its header and the bytes that the
    rest decodes to. *)
Lemma Verify_header (rest : string) (pk : PublicKey) :
  Verify (v2PublicHeader +:+ rest) pk =
  match base64.DecodeString rest with
  | Err e => Err ("decode token: " +:+ e)
  | Ok decoded =>
      if (length decoded <? ed25519_SignatureSize)%nat then Err "token too short"
      else
        let message := firstn (length decoded - ed25519_SignatureSize) decoded in
        let sig := skipn (length decoded - ed25519_SignatureSize) decoded in
        if negb (ed25519_Verify pk
                   (pae [list_ascii_of_string v2PublicHeader; message; []]) sig)
        then Err "invalid signature"
        else match json_Unmarshal message with
             | Err e => Err ("unmarshal capability: " +:+ e)
             | Ok cap => Ok cap
             end
  end.
Proof.
  unfold Verify.
  rewrite (proj2 (strings_facts.HasPrefix_spec _ _)) by (now exists rest).
  cbn [negb]. now rewrite substring_after.
Qed.

Lemma Verify_Ok_header (token : string) (pk : PublicKey) (c : Capability) :
  Verify token pk = Ok c -> exists rest, token = v2PublicHeader +:+ rest.
Proof.
  unfold Verify.
  destruct (strings.HasPrefix token v2PublicHeader) eqn:Hp; [|discriminate].
  intros _. now apply strings_facts.HasPrefix_spec.
Qed.


End Tokens.



End auth_facts.

(** ** The FS service *)

Module fs_facts.
Import capability ipc fs.

(** Conjunctions of facts that hold by evaluation. *)
Ltac evaluate :=
  cbv zeta;
  repeat match goal with |- _ /\ _ => split end;
  try (vm_compute; reflexivity).

(** Case analysis on the branches of a handler that produced [H]. *)
Ltac branches H :=
  repeat match type of H with
         | context [match ?x with _ => _ end] => destruct x eqn:?
         end.

Section Service.
Context `{PolicyLib} `{Ed25519Lib} `{JsonLib} `{OsLib}.
Variable pubKey : PublicKey.

(** [Authorize] rejects nil claims, so no handler dereferences them. *)
Lemma Authorize_None_claims now method ctx bs bs' :
  policy.Authorize now None method ctx bs <> (None, bs').
Proof. discriminate. Qed.

(** [extractClaims] returns either claims or an error response, never
    both; the claims it returns come from a verified, unexpired
    token. *)
Lemma extractClaims_Some (req : Request) (now : time.Time) (c : Capability) o :
  extractClaims pubKey req now = (Some c, o) ->
  o = None /\
  exists a, auth req = Some a /\ Token a <> "" /\
            auth.Verify (Token a) pubKey = Ok c /\ IsExpired now c = false.
Proof.
  unfold extractClaims. intros Hx. branches Hx; inversion Hx; subst.
  split; [reflexivity|]. eexists. split; [reflexivity|].
  split; [now apply String.eqb_neq|]. now split.
Qed.

Lemma extractClaims_error (req : Request) (now : time.Time) o resp :
  extractClaims pubKey req now = (o, Some resp) ->
  o = None /\ OK resp = false /\ code_of resp = Some 2.
Proof.
  unfold extractClaims. intros Hx. branches Hx; inversion Hx; subst; now split.
Qed.

Lemma extractClaims_error_result (req : Request) (now : time.Time) o resp :
  extractClaims pubKey req now = (o, Some resp) -> result_ resp = None.
Proof.
  unfold extractClaims. intros Hx. branches Hx; inversion Hx; subst; reflexivity.
Qed.

(** C7 (denial never touches the resource).  When the verifier, or
    [Authorize], or the revocation check denies an [fs.open] or
    [fs.list] request, the handler answers with an error, performs no
    operation on the operating system and leaves the handle table and
    the clock as they are: the state is unchanged, or changed in the
    bucket map of the rate limiter only. *)
Theorem denial_never_touches_resource (req : Request) (s : State)
    (handler : Request -> State -> Response * State) (method : string) :
  (handler = fs_open pubKey /\ method = "fs.open") \/
  (handler = fs_list pubKey /\ method = "fs.list") ->
  let claims := fst (extractClaims pubKey req (clock s)) in
  let path := get_string (Params req) "path" in
  let decision :=
    policy.Authorize (clock s) claims method {["path" := AString path]} (buckets s) in
  is_Some (snd (extractClaims pubKey req (clock s))) \/
  is_Some (fst decision) \/
  (exists c, claims = Some c /\ IsRevoked (ID c) (table s) = true) ->
  forall resp s',
    handler req s = (resp, s') ->
    OK resp = false /\
    oscalls s' = oscalls s /\
    table s' = table s /\
    clock s' = clock s /\
    (s' = s \/ s' = set_buckets (snd decision) s).
Proof.
  intros Hhandler claims path decision Hdenied resp s' Hrun.
  assert (Hframe : forall bs, oscalls (set_buckets bs s) = oscalls s /\
                              table (set_buckets bs s) = table s /\
                              clock (set_buckets bs s) = clock s)
    by (intros; now repeat split).
  destruct Hhandler as [[-> ->]|[-> ->]].
  - unfold fs_open in Hrun. fold path in Hrun.
    subst claims decision.
    destruct (extractClaims pubKey req (clock s)) as [claims [errResp|]] eqn:Hx.
    + inversion Hrun; subst.
      destruct (extractClaims_error _ _ _ _ Hx) as (_ & Hok & _). tauto.
    + cbn [fst snd] in *.
      destruct (String.eqb path ""); [inversion Hrun; subst; tauto|].
      destruct (policy.Authorize _ claims _ _ _) as [[err|] bs] eqn:Hauth;
        cbn [fst snd] in *.
      * inversion Hrun; subst. destruct (Hframe bs) as (? & ? & ?). tauto.
      * destruct claims as [c|]; [|inversion Hrun; subst;
                                   destruct (Hframe bs) as (? & ? & ?); tauto].
        change (table (set_buckets bs s)) with (table s) in Hrun.
        destruct (IsRevoked (ID c) (table s)) eqn:Hrev.
        -- inversion Hrun; subst. destruct (Hframe bs) as (? & ? & ?). tauto.
        -- exfalso. destruct Hdenied as [Hd|[Hd|Hd]].
           ++ now destruct Hd.
           ++ now destruct Hd.
           ++ destruct Hd as (c' & Hc & Hr). inversion Hc; subst. congruence.
  - unfold fs_list in Hrun. fold path in Hrun.
    subst claims decision.
    destruct (extractClaims pubKey req (clock s)) as [claims [errResp|]] eqn:Hx.
    + inversion Hrun; subst.
      destruct (extractClaims_error _ _ _ _ Hx) as (_ & Hok & _). tauto.
    + cbn [fst snd] in *.
      destruct (String.eqb path ""); [inversion Hrun; subst; tauto|].
      destruct (policy.Authorize _ claims _ _ _) as [[err|] bs] eqn:Hauth;
        cbn [fst snd] in *.
      * inversion Hrun; subst. destruct (Hframe bs) as (? & ? & ?). tauto.
      * destruct claims as [c|]; [|inversion Hrun; subst;
                                   destruct (Hframe bs) as (? & ? & ?); tauto].
        change (table (set_buckets bs s)) with (table s) in Hrun.
        destruct (IsRevoked (ID c) (table s)) eqn:Hrev.
        -- inversion Hrun; subst. destruct (Hframe bs) as (? & ? & ?). tauto.
        -- exfalso. destruct Hdenied as [Hd|[Hd|Hd]].
           ++ now destruct Hd.
           ++ now destruct Hd.
           ++ destruct Hd as (c' & Hc & Hr). inversion Hc; subst. congruence.
Qed.

(** The errors of [Verify] name the step that failed. *)
Lemma Verify_errors (token : string) (e : string) :
  auth.Verify token pubKey = Err e ->
  e = "invalid token header" \/
  (exists d, e = "decode token: " +:+ d) \/
  e = "token too short" \/
  e = "invalid signature" \/
  (exists d, e = "unmarshal capability: " +:+ d).
Proof.
  unfold auth.Verify. intros Hv. branches Hv; inversion Hv; subst; eauto 6.
Qed.

(** C8, as amended (rejected tokens).  A request whose token fails
    verification is answered with code 2 ([Unauthenticated]) by every
    handler, without any change of state; the message is
    [invalid token: ] followed by the error of [Verify], which names the
    step that failed: header, base64 decoding, length, signature or
    JSON decoding. *)
Theorem invalid_token_response (req : Request) (a : Auth) (e : string) (s : State) :
  auth req = Some a ->
  Token a <> "" ->
  auth.Verify (Token a) pubKey = Err e ->
  let resp := ErrorResponse (ReqID req) 2 ("invalid token: " +:+ e) in
  fs_open pubKey req s = (resp, s) /\
  fs_read pubKey req s = (resp, s) /\
  fs_list pubKey req s = (resp, s) /\
  (e = "invalid token header" \/
   (exists d, e = "decode token: " +:+ d) \/
   e = "token too short" \/
   e = "invalid signature" \/
   (exists d, e = "unmarshal capability: " +:+ d)).
Proof.
  intros Hauth Htoken Hverify resp.
  assert (Hx : extractClaims pubKey req (clock s) = (None, Some resp)).
  { unfold extractClaims. rewrite Hauth.
    apply String.eqb_neq in Htoken. now rewrite Htoken, Hverify. }
  unfold fs_open, fs_read, fs_list. rewrite Hx.
  repeat split. exact (Verify_errors _ _ Hverify).
Qed.

Lemma enforceRateLimit_error now capID rateLimit bs err bs' :
  policy.enforceRateLimit now capID rateLimit bs = (Some err, bs') ->
  err = policy.exhausted.
Proof.
  unfold policy.enforceRateLimit. intros Hr.
  branches Hr; inversion Hr; reflexivity.
Qed.

Lemma enforcePathPrefix_error prefix ctx err :
  policy.enforcePathPrefix prefix ctx = Some err -> policy.Code err = 3.
Proof.
  unfold policy.enforcePathPrefix. intros Hp.
  branches Hp; inversion Hp; reflexivity.
Qed.

(** [Authorize] refuses present claims with code 3, or with the
    rate limiter's [ResourceExhausted]. *)
Lemma Authorize_error now c method ctx bs err bs' :
  policy.Authorize now (Some c) method ctx bs = (Some err, bs') ->
  policy.Code err = 3 \/ err = policy.exhausted.
Proof.
  unfold policy.Authorize, policy.enforceConstraints. intros Ha.
  destruct (strings.SplitN_dot_2 method) as [|service [|action [|]]];
    try (inversion Ha; left; reflexivity).
  destruct (negb _); [inversion Ha; left; reflexivity|].
  destruct (_ && _); [inversion Ha; left; reflexivity|].
  destruct (policy.enforcePathPrefix _ ctx) as [e|] eqn:Hp.
  - inversion Ha; subst. left. exact (enforcePathPrefix_error _ _ _ Hp).
  - destruct (policy.enforceRateLimit _ _ _ _) as [[e|] bs1] eqn:Hr;
      inversion Ha; subst. right. exact (enforceRateLimit_error _ _ _ _ _ _ Hr).
Qed.

(** What [handleTable.Open] does: the call is performed on the
    operating system; on failure nothing else changes; on success the
    counter is incremented and an entry bound to [cid] is stored
    under the new handle id. *)
Lemma Open_inv (path cid : string) (s : State) r (s' : State) :
  Open path cid s = (r, s') ->
  oscalls s' = CallOpen path :: oscalls s /\
  buckets s' = buckets s /\ clock s' = clock s /\
  revoked (table s') = revoked (table s) /\
  match r with
  | inl _ => table s' = table s
  | inr id =>
      id = handle_name (nextID_Add1 (nextID (table s))) /\
      nextID (table s') = nextID_Add1 (nextID (table s)) /\
      exists entry,
        capID entry = cid /\
        handles (table s') = <[id := entry]> (handles (table s))
  end.
Proof.
  unfold Open. intros Ho.
  destruct (os_Open path); inversion Ho; subst; cbn.
  - now repeat split.
  - repeat split. eexists. split; [|reflexivity]. reflexivity.
Qed.

(** H1: a handle returned by [fs.open] is bound, in the table, to the
    capability of the request. *)
Lemma fs_open_binds (req : Request) (s : State) (resp : Response) (s' : State)
    (handle : string) :
  fs_open pubKey req s = (resp, s') ->
  result_ resp = Some (ResultHandle handle) ->
  exists c entry,
    fst (extractClaims pubKey req (clock s)) = Some c /\
    Get handle (table s') = Some entry /\
    capID entry = ID c.
Proof.
  unfold fs_open. intros Hrun Hres.
  destruct (extractClaims pubKey req (clock s)) as [claims [errResp|]] eqn:Hx.
  { inversion Hrun; subst.
    destruct (extractClaims_error _ _ _ _ Hx) as (_ & Hok & _).
    destruct resp as [? ? ? [r|] ?]; cbn in *; [|discriminate].
    unfold extractClaims in Hx. branches Hx; inversion Hx; subst; discriminate. }
  branches Hrun; inversion Hrun; subst; try discriminate.
  cbn in Hres. inversion Hres; subst.
  match goal with
  | Ho : Open _ _ _ = (inr _, _) |- _ =>
      destruct (Open_inv _ _ _ _ _ Ho) as (_ & _ & _ & _ & _ & _ & entry & Hcap & Hh)
  end.
  exists c, entry. split; [reflexivity|]. unfold Get. rewrite Hh.
  rewrite lookup_insert_eq. now split.
Qed.

(** C3, as amended (handle binding).  A read of an existing handle,
    named by the request, under verified claims whose id is not the one
    stored in the handle entry is refused, performs no operation on the operating system and
    leaves the handle table as it is.  The refusal is
    [PermissionDenied], code 3: from the binding check when
    [Authorize] passes, from [Authorize] when it denies; except that a
    rate limiter out of tokens refuses first, with code 7.  A read
    succeeds only for claims whose id is the one stored in the entry. *)
Theorem handle_binding (req : Request) (s : State) (resp : Response) (s' : State) :
  fs_read pubKey req s = (resp, s') ->
  let claims := fst (extractClaims pubKey req (clock s)) in
  let handle := get_string (Params req) "handle" in
  let decision := policy.Authorize (clock s) claims "fs.read" ∅ (buckets s) in
  (forall (c2 : Capability) (entry : handleEntry),
      claims = Some c2 ->
      handle <> "" ->
      Get handle (table s) = Some entry ->
      ID c2 <> capID entry ->
      OK resp = false /\
      oscalls s' = oscalls s /\
      table s' = table s /\
      (fst decision = None ->
       resp = ErrorResponse (ReqID req) 3 "handle not bound to this capability") /\
      (code_of resp = Some 3 \/
       (code_of resp = Some 7 /\ fst decision = Some policy.exhausted)))
  /\ (OK resp = true ->
      exists c entry,
        claims = Some c /\
        Get handle (table s) = Some entry /\
        capID entry = ID c /\
        IsRevoked (ID c) (table s) = false /\
        fst decision = None).
Proof.
  intros Hrun claims handle decision. subst claims decision.
  unfold fs_read in Hrun. fold handle in Hrun.
  destruct (extractClaims pubKey req (clock s)) as [claims [errResp|]] eqn:Hx;
    cbn [fst snd].
  { inversion Hrun; subst.
    destruct (extractClaims_error _ _ _ _ Hx) as (-> & Hok & _).
    split; [discriminate | congruence]. }
  destruct (policy.Authorize (clock s) claims "fs.read" ∅ (buckets s))
    as [[err|] bs] eqn:Hauth; cbn [fst snd].
  { inversion Hrun; subst. split; [|discriminate].
    intros c2 entry -> _ _ _. repeat split; try discriminate.
    destruct (Authorize_error _ _ _ _ _ _ _ Hauth) as [Hc| ->].
    - left. cbn. now rewrite Hc.
    - right. now split. }
  change (table (set_buckets bs s)) with (table s) in Hrun.
  destruct (String.eqb handle "") eqn:Hh.
  { inversion Hrun; subst. split; [|discriminate].
    intros c2 entry _ Hne. apply String.eqb_eq in Hh. contradiction. }
  destruct (Get handle (table s)) as [entry|] eqn:Hget.
  2:{ inversion Hrun; subst. split; [discriminate | discriminate]. }
  destruct claims as [c|].
  2:{ now destruct (Authorize_None_claims _ _ _ _ _ Hauth). }
  destruct (String.eqb (capID entry) (ID c)) eqn:Hbound; cbn [negb] in Hrun.
  - apply String.eqb_eq in Hbound. split.
    { intros c2 entry' Hc _ He Hne. inversion Hc; inversion He; subst. congruence. }
    destruct (IsRevoked (capID entry) (table s)) eqn:Hrev.
    { inversion Hrun; subst. discriminate. }
    intros _. exists c, entry. rewrite <- Hbound. now repeat split.
  - inversion Hrun; subst. split; [|discriminate].
    intros c2 entry' Hc _ He Hne. repeat split. left. reflexivity.
Qed.

Lemma fs_read_table (req : Request) (s : State) resp s' :
  fs_read pubKey req s = (resp, s') -> table s' = table s /\ clock s' = clock s.
Proof.
  unfold fs_read. intros Hrun. branches Hrun; inversion Hrun; subst; now split.
Qed.

Lemma fs_list_table (req : Request) (s : State) resp s' :
  fs_list pubKey req s = (resp, s') -> table s' = table s /\ clock s' = clock s.
Proof.
  unfold fs_list. intros Hrun. branches Hrun; inversion Hrun; subst; now split.
Qed.

(** What [fs.open] does to the handle table: nothing, or one new entry
    under the next handle id, which is returned. *)
Lemma fs_open_table (req : Request) (s : State) resp s' :
  fs_open pubKey req s = (resp, s') ->
  clock s' = clock s /\
  revoked (table s') = revoked (table s) /\
  ((table s' = table s /\ forall h, result_ resp <> Some (ResultHandle h)) \/
   (exists entry,
       let id := handle_name (nextID_Add1 (nextID (table s))) in
       result_ resp = Some (ResultHandle id) /\
       nextID (table s') = nextID_Add1 (nextID (table s)) /\
       handles (table s') = <[id := entry]> (handles (table s)))).
Proof.
  unfold fs_open. intros Hrun.
  destruct (extractClaims pubKey req (clock s)) as [claims [errResp|]] eqn:Hx.
  { inversion Hrun; subst. repeat split. left. split; [reflexivity|].
    unfold extractClaims in Hx. branches Hx; inversion Hx; subst; discriminate. }
  branches Hrun; inversion Hrun; subst;
    try (repeat split; left; split; [reflexivity | discriminate]);
    match goal with
    | Ho : Open _ _ _ = _ |- _ =>
        destruct (Open_inv _ _ _ _ _ Ho) as (_ & _ & Hclk & Hrev & Hr)
    end; cbn in Hclk, Hrev.
  - repeat split; try assumption. left. split; [exact Hr | discriminate].
  - repeat split; try assumption. left. split; [exact Hr | discriminate].
  - destruct Hr as (-> & Hn & entry & _ & Hh).
    repeat split; try assumption. right. exists entry. now repeat split.
Qed.

(** The revoked set only grows. *)
Lemma step_revoked (e : event) (s : State) (C : string) :
  C ∈ revoked (table s) -> C ∈ revoked (table (step pubKey e s)).
Proof.
  intros HC. destruct e as [req|d]; [|exact HC].
  unfold step, serve.
  destruct (negb _); [exact HC|].
  destruct (String.eqb (Method req) "fs.open").
  { destruct (fs_open pubKey req s) as [resp s'] eqn:Hrun.
    destruct (fs_open_table _ _ _ _ Hrun) as (_ & Hrev & _).
    cbn [snd]. now rewrite Hrev. }
  destruct (String.eqb (Method req) "fs.read").
  { destruct (fs_read pubKey req s) as [resp s'] eqn:Hrun.
    destruct (fs_read_table _ _ _ _ Hrun) as [Ht _]. cbn [snd]. now rewrite Ht. }
  destruct (String.eqb (Method req) "fs.list").
  { destruct (fs_list pubKey req s) as [resp s'] eqn:Hrun.
    destruct (fs_list_table _ _ _ _ Hrun) as [Ht _]. cbn [snd]. now rewrite Ht. }
  destruct (String.eqb (Method req) "fs.revoke"); [|exact HC].
  unfold fs_revoke. destruct (String.eqb _ ""); [exact HC|].
  cbn. set_solver.
Qed.

Lemma run_revoked (es : list event) (s : State) (C : string) :
  C ∈ revoked (table s) -> C ∈ revoked (table (run pubKey es s)).
Proof.
  revert s. induction es as [|e es IH]; intros s HC; [exact HC|].
  cbn [run]. apply IH. now apply step_revoked.
Qed.


Lemma handle_name_inj (a b : Z) : handle_name a = handle_name b -> a = b.
Proof.
  unfold handle_name. cbn. intros Heq. inversion Heq as [Hp].
  exact (pretty_Z_inj _ _ Hp).
Qed.

Lemma nextID_Add1_small (n : Z) :
  0 <= n -> n + 1 < 2 ^ 64 -> nextID_Add1 n = n + 1.
Proof. intros Hn Hlt. unfold nextID_Add1. apply Z.mod_small. lia. Qed.

(** What serving a request does to the handle table, as long as the
    64-bit counter does not wrap: nothing to the handles, or one new
    entry under the name of the incremented counter, which is the
    handle returned. *)
Lemma serve_handles (req : Request) (s : State) resp s' :
  0 <= nextID (table s) -> nextID (table s) + 1 < 2 ^ 64 ->
  serve pubKey req s = (resp, s') ->
  (nextID (table s') = nextID (table s) /\
   handles (table s') = handles (table s) /\
   forall h, result_ resp <> Some (ResultHandle h))
  \/ (exists entry,
         let id := handle_name (nextID (table s) + 1) in
         result_ resp = Some (ResultHandle id) /\
         nextID (table s') = nextID (table s) + 1 /\
         handles (table s') = <[id := entry]> (handles (table s))).
Proof.
  intros Hn Hlt. unfold serve.
  destruct (negb _); [intros Hrun; inversion Hrun; subst; left; now repeat split|].
  destruct (String.eqb (Method req) "fs.open").
  { intros Hrun. destruct (fs_open_table _ _ _ _ Hrun) as (_ & _ & [[Ht Hr]|Hnew]).
    - left. rewrite Ht. now repeat split.
    - right. destruct Hnew as (entry & Hres & Hnext & Hh).
      rewrite nextID_Add1_small in Hres, Hnext, Hh by assumption.
      now exists entry. }
  destruct (String.eqb (Method req) "fs.read").
  { intros Hrun. destruct (fs_read_table _ _ _ _ Hrun) as [Ht _].
    left. rewrite Ht. repeat split. intros h.
    unfold fs_read in Hrun. branches Hrun; inversion Hrun; subst; try discriminate.
    match goal with
    | Hx : extractClaims _ _ _ = (_, Some _) |- _ =>
        rewrite (extractClaims_error_result _ _ _ _ Hx); discriminate
    end. }
  destruct (String.eqb (Method req) "fs.list").
  { intros Hrun. destruct (fs_list_table _ _ _ _ Hrun) as [Ht _].
    left. rewrite Ht. repeat split. intros h.
    unfold fs_list in Hrun. branches Hrun; inversion Hrun; subst; try discriminate.
    match goal with
    | Hx : extractClaims _ _ _ = (_, Some _) |- _ =>
        rewrite (extractClaims_error_result _ _ _ _ Hx); discriminate
    end. }
  destruct (String.eqb (Method req) "fs.revoke").
  { unfold fs_revoke. intros Hrun.
    branches Hrun; inversion Hrun; subst; left; now repeat split. }
  intros Hrun. inversion Hrun; subst. left. now repeat split.
Qed.

(** The handles of a run that starts with the counter at [n], in a
    table whose handles are the names of [1] to [n]: the handles
    issued are the names of the next counter values, in order, the
    table holds the names up to the counter, and no entry present at
    the start is changed. *)
Lemma run_handles (es : list event) :
  forall s : State,
    0 <= nextID (table s) ->
    nextID (table s) + Z.of_nat (length es) < 2 ^ 64 ->
    (forall h, is_Some (handles (table s) !! h) <->
               exists k, 1 <= k <= nextID (table s) /\ h = handle_name k) ->
    let s' := run pubKey es s in
    nextID (table s) <= nextID (table s') /\
    scenario.issued pubKey es s =
      handle_name <$> seqZ (nextID (table s) + 1)
                           (nextID (table s') - nextID (table s)) /\
    (forall h, is_Some (handles (table s') !! h) <->
               exists k, 1 <= k <= nextID (table s') /\ h = handle_name k) /\
    (forall h entry, handles (table s) !! h = Some entry ->
                     handles (table s') !! h = Some entry).
Proof.
  induction es as [|e es IH]; intros s Hn Hlt Hdom.
  - cbn [run scenario.issued]. rewrite Z.sub_diag.
    split; [lia|]. split; [reflexivity|]. split; [exact Hdom | auto].
  - cbn [length] in Hlt. cbn [run scenario.issued].
    destruct e as [req|d].
    + cbn [step]. destruct (serve pubKey req s) as [resp s1] eqn:Hserve.
      cbn [fst snd].
      destruct (serve_handles req s resp s1 Hn ltac:(lia) Hserve)
        as [(Hnext & Hh & Hres)|(entry & Hres & Hnext & Hh)].
      * destruct (IH s1) as (Hle & Hiss & Hdom' & Hkeep).
        { lia. } { lia. } { now rewrite Hnext, Hh. }
        rewrite Hnext in *. rewrite Hh in Hkeep.
        split; [exact Hle|]. split; [|split; [exact Hdom' | exact Hkeep]].
        rewrite Hiss.
        destruct (result_ resp) as [[h| | |]|]; try reflexivity.
        now destruct (Hres h).
      * cbv zeta in Hres, Hh.
        destruct (IH s1) as (Hle & Hiss & Hdom' & Hkeep).
        { lia. } { lia. }
        { intros h. rewrite Hh, Hnext. rewrite lookup_insert_is_Some, Hdom.
          split.
          - intros [<-|[_ (k & Hk & ->)]].
            + exists (nextID (table s) + 1). split; [lia | reflexivity].
            + exists k. split; [lia | reflexivity].
          - intros (k & Hk & ->).
            destruct (Z.eq_dec k (nextID (table s) + 1)) as [->|Hne].
            + now left.
            + right. split.
              * intros Heq. apply handle_name_inj in Heq. lia.
              * exists k. split; [lia | reflexivity]. }
        rewrite Hnext in *.
        split; [lia|]. split; [|split; [exact Hdom'|]].
        -- rewrite Hres, Hiss. cbn [app].
           rewrite (seqZ_cons (nextID (table s) + 1)) by lia.
           rewrite fmap_cons.
           replace (Z.succ (nextID (table s) + 1)) with (nextID (table s) + 1 + 1)
             by lia.
           replace (Z.pred (nextID (table (run pubKey es s1)) - nextID (table s)))
             with (nextID (table (run pubKey es s1)) - (nextID (table s) + 1))
             by lia.
           reflexivity.
        -- intros h e He. apply Hkeep. rewrite Hh.
           rewrite lookup_insert_ne; [exact He|].
           intros <-.
           assert (Hsome : is_Some (handles (table s) !!
                                      handle_name (nextID (table s) + 1)))
             by (now rewrite He).
           apply Hdom in Hsome as (k & Hk & Heq).
           apply handle_name_inj in Heq. lia.
    + cbn [step app].
      destruct (IH (advance d s)) as (Hle & Hiss & Hdom' & Hkeep);
        try assumption; [cbn; lia|].
      change (table (advance d s)) with (table s) in Hle, Hiss, Hkeep.
      split; [exact Hle|]. split; [exact Hiss|].
      split; [exact Hdom' | exact Hkeep].
Qed.

(** C10 (handle-id freshness).  In a run of the service from its
    start that is shorter than the range of the 64-bit counter, the
    handle ids returned so far are pairwise distinct and are the
    handles of the table; the handle that the next request returns, if
    any, is none of them and had no entry in the table, so that no
    entry is overwritten; and every entry of the table is still there,
    with the same binding, after the request. *)
Theorem handle_ids_fresh (t0 : time.Time) (es : list event) (req : Request) :
  Z.of_nat (length es) + 1 < 2 ^ 64 ->
  let s := run pubKey es (initial t0) in
  let earlier := scenario.issued pubKey es (initial t0) in
  NoDup earlier /\
  (forall h, h ∈ earlier <-> is_Some (Get h (table s))) /\
  forall resp s',
    serve pubKey req s = (resp, s') ->
    (forall h, result_ resp = Some (ResultHandle h) ->
               (h ∉ earlier) /\ Get h (table s) = None /\ is_Some (Get h (table s')))
    /\ (forall h entry, Get h (table s) = Some entry ->
                        Get h (table s') = Some entry).
Proof.
  intros Hlen. cbv zeta.
  destruct (run_handles es (initial t0)) as (Hle & Hiss & Hdom & _).
  { cbn. lia. } { cbn. lia. }
  { intros h. cbn. rewrite lookup_empty. split.
    - intros [? Hx]. discriminate.
    - intros (k & Hk & _). lia. }
  change (nextID (table (initial t0))) with 0 in Hle, Hiss.
  set (s := run pubKey es (initial t0)) in *.
  set (earlier := scenario.issued pubKey es (initial t0)) in *.
  assert (Hbound : nextID (table s) <= Z.of_nat (length es)).
  { pose proof (f_equal (@length string) Hiss) as Hl'.
    rewrite length_fmap, length_seqZ in Hl'.
    assert (Hl : (length earlier <= length es)%nat).
    { subst earlier. clear. generalize (initial t0).
      induction es as [|e es IH]; intros s0; [cbn; lia|].
      cbn [scenario.issued length]. rewrite length_app.
      specialize (IH (step pubKey e s0)).
      destruct e as [r|d]; cbn [length]; [|lia].
      destruct (result_ _) as [[?| | |]|]; cbn [length]; lia. }
    lia. }
  assert (Hmem : forall h, h ∈ earlier <-> is_Some (Get h (table s))).
  { intros h. unfold Get. rewrite Hdom, Hiss, list_elem_of_fmap.
    split.
    - intros (k & -> & Hk). apply elem_of_seqZ in Hk. exists k. split; [lia|reflexivity].
    - intros (k & Hk & ->). exists k. split; [reflexivity|].
      apply elem_of_seqZ. lia. }
  split; [|split; [exact Hmem|]].
  - rewrite Hiss. apply NoDup_fmap_2; [|apply NoDup_seqZ].
    intros a b. apply handle_name_inj.
  - intros resp s' Hserve.
    destruct (serve_handles req s resp s' ltac:(lia) ltac:(lia) Hserve)
      as [(Hnext & Hh & Hres)|(entry & Hres & Hnext & Hh)].
    + split; [|unfold Get; now rewrite Hh].
      intros h Hr. now destruct (Hres h).
    + cbv zeta in Hres, Hh.
      assert (Hnew : Get (handle_name (nextID (table s) + 1)) (table s) = None).
      { unfold Get. apply eq_None_not_Some. rewrite Hdom.
        intros (k & Hk & Heq). apply handle_name_inj in Heq. lia. }
      split.
      * intros h Hr. rewrite Hres in Hr. inversion Hr; subst h.
        split; [|split; [exact Hnew|]].
        -- rewrite Hmem, Hnew. intros [? Hx]. discriminate.
        -- unfold Get. rewrite Hh, lookup_insert_eq. eauto.
      * intros h e He. unfold Get in *. rewrite Hh.
        rewrite lookup_insert_ne; [exact He|]. intros <-. congruence.
Qed.

End Service.

(** A listing outside the prefix of the capability is denied by
    [Authorize]; nothing is read and the state stays as it was, except
    for the bucket map (here unchanged as well). *)
Lemma denial_never_touches_resource_witness :
  let req := examples.list_req (examples.token_of examples.cap_tmp) "/etc" in
  let r := @fs_list examples.lib ref.macLib ref.jsonLib ref.osLib examples.node_key
             req examples.start in
  OK (fst r) = false /\
  oscalls (snd r) = oscalls examples.start /\
  table (snd r) = table examples.start /\
  clock (snd r) = clock examples.start.
Proof.
  intros req r.
  destruct (@denial_never_touches_resource examples.lib ref.macLib ref.jsonLib
              ref.osLib examples.node_key req examples.start
              (@fs_list examples.lib ref.macLib ref.jsonLib ref.osLib examples.node_key)
              "fs.list"
              ltac:(right; split; reflexivity)
              ltac:(right; left; vm_compute; eexists; reflexivity)
              (fst r) (snd r) (surjective_pairing r))
    as (Hok & Hos & Htab & Hclock & _).
  split; [exact Hok|]. split; [exact Hos|]. split; [exact Htab | exact Hclock].
Defined.

(** A token without the header is answered with the text of that
    failure. *)
Lemma invalid_token_response_witness :
  @fs_open examples.lib ref.macLib ref.jsonLib ref.osLib examples.node_key
    (examples.open_req "bad" "/tmp/x") examples.start
  = (ErrorResponse "r" 2 "invalid token: invalid token header", examples.start).
Proof.
  apply (@invalid_token_response examples.lib ref.macLib ref.jsonLib ref.osLib
           examples.node_key (examples.open_req "bad" "/tmp/x")
           {| Token := "bad" |} "invalid token header" examples.start
           ltac:(reflexivity) ltac:(discriminate) ltac:(reflexivity)).
Defined.

(** C8 as stated fails: a token without the header, a token that is not
    base64, a token that is too short and a token with a wrong signature
    are answered with four different messages. *)
Lemma invalid_token_messages_differ :
  let message token :=
    message_of (fst (examples.serve (examples.open_req token "/tmp/x") examples.start)) in
  message "bad" = Some "invalid token: invalid token header" /\
  message "v2.public.!" =
    Some "invalid token: decode token: illegal base64 data at input byte 0" /\
  message "v2.public." = Some "invalid token: token too short" /\
  message ("v2.public." +:+ base64.EncodeToString (repeat "A"%char 64)) =
    Some "invalid token: invalid signature" /\
  message "bad" <> message "v2.public.".
Proof.
  evaluate. vm_compute. discriminate.
Qed.

(** A handle opened under [examples.cap_tmp] and read under
    [examples.cap_limited], which also carries the right [fs.read]: the
    read is refused by the binding check. *)
Lemma handle_binding_witness :
  let s1 := snd (examples.serve
                   (examples.open_req (examples.token_of examples.cap_tmp) "/tmp/x")
                   examples.start) in
  let req := examples.read_req (examples.token_of examples.cap_limited) "h1" in
  let r := @fs_read examples.lib ref.macLib ref.jsonLib ref.osLib examples.node_key
             req s1 in
  OK (fst r) = false /\
  oscalls (snd r) = oscalls s1 /\
  table (snd r) = table s1 /\
  fst r = ErrorResponse "r" 3 "handle not bound to this capability".
Proof.
  intros s1 req r.
  destruct (@handle_binding examples.lib ref.macLib ref.jsonLib ref.osLib
              examples.node_key req s1 (fst r) (snd r) (surjective_pairing r))
    as [Hbind _].
  destruct (Hbind examples.cap_limited
              (@Build_handleEntry ref.osLib "/tmp/x" (ID examples.cap_tmp) "/tmp/x" 0))
    as (Hok & Hos & Htab & Hmsg & _).
  - vm_compute. reflexivity.
  - discriminate.
  - vm_compute. reflexivity.
  - discriminate.
  - split; [exact Hok|]. split; [exact Hos|]. split; [exact Htab|].
    apply Hmsg. vm_compute. reflexivity.
Defined.

(** C3 as stated fails: [examples.cap_limited] is limited to one request
    per second; its second read of the handle of [examples.cap_tmp]
    within the same instant is refused with code 7, not code 3. *)
Lemma handle_binding_rate_limited :
  let s1 := snd (examples.serve
                   (examples.open_req (examples.token_of examples.cap_tmp) "/tmp/x")
                   examples.start) in
  let req := examples.read_req (examples.token_of examples.cap_limited) "h1" in
  let s2 := snd (examples.serve req s1) in
  capID <$> Get "h1" (table s2) = Some (ID examples.cap_tmp) /\
  fst (@extractClaims ref.macLib ref.jsonLib examples.node_key req (clock s2))
  = Some examples.cap_limited /\
  ID examples.cap_limited <> ID examples.cap_tmp /\
  policy.hasRight (Rights examples.cap_limited) "fs.read" = true /\
  code_of (fst (examples.serve req s1)) = Some 3 /\
  fst (examples.serve req s2) = ErrorResponse "r" 7 "rate limit exceeded".
Proof.
  evaluate. discriminate.
Qed.



(** After one successful [fs.open], a second one returns another handle
    and leaves the first entry as it is. *)
Lemma handle_ids_fresh_witness :
  let req := examples.open_req (examples.token_of examples.cap_tmp) "/tmp/x" in
  let es := [Serve req] in
  let s := @run examples.lib ref.macLib ref.jsonLib ref.osLib examples.node_key es
             examples.start in
  let earlier := @scenario.issued examples.lib ref.macLib ref.jsonLib ref.osLib
                   examples.node_key es examples.start in
  NoDup earlier /\
  (forall h, h ∈ earlier <-> is_Some (Get h (table s))) /\
  forall resp s',
    examples.serve req s = (resp, s') ->
    (forall h, result_ resp = Some (ResultHandle h) ->
               (h ∉ earlier) /\ Get h (table s) = None /\ is_Some (Get h (table s')))
    /\ (forall h entry, Get h (table s) = Some entry ->
                        Get h (table s') = Some entry).
Proof.
  exact (@handle_ids_fresh examples.lib ref.macLib ref.jsonLib ref.osLib
           examples.node_key 0
           [Serve (examples.open_req (examples.token_of examples.cap_tmp) "/tmp/x")]
           (examples.open_req (examples.token_of examples.cap_tmp) "/tmp/x")
           ltac:(vm_compute; reflexivity)).
Defined.

End fs_facts.

(** ** Frames *)

Module frame_facts.
Import conn frame.

Lemma val_of_byte_of (z : Z) : base64.val_of (base64.byte_of z) = z mod 256.
Proof.
  unfold base64.val_of, base64.byte_of.
  pose proof (Z.mod_pos_bound z 256 ltac:(lia)) as Hz.
  rewrite N_ascii_embedding by lia. lia.
Qed.

(** The four bytes of a header as one number. *)
Lemma Uint32_value (b0 b1 b2 b3 : ascii) :
  Uint32 [b0; b1; b2; b3] =
  base64.val_of b0 * 16777216 + base64.val_of b1 * 65536 +
  base64.val_of b2 * 256 + base64.val_of b3.
Proof.
  pose proof (base64_facts.val_of_range b0). pose proof (base64_facts.val_of_range b1).
  pose proof (base64_facts.val_of_range b2). pose proof (base64_facts.val_of_range b3).
  unfold Uint32. rewrite !Z.shiftl_mul_pow2 by lia.
  change (2 ^ 8) with 256. change (2 ^ 16) with 65536. change (2 ^ 24) with 16777216.
  rewrite (Z.lor_comm (base64.val_of b3)).
  rewrite (base64_facts.lor_add _ (base64.val_of b3) 8);
    [|lia|change (2 ^ 8) with 256; lia|change (2 ^ 8) with 256; apply Z.mod_mul; lia].
  rewrite (Z.lor_comm _ (base64.val_of b1 * 65536)).
  rewrite (base64_facts.lor_add _ (base64.val_of b2 * 256 + base64.val_of b3) 16);
    [|lia|change (2 ^ 16) with 65536; lia|change (2 ^ 16) with 65536; apply Z.mod_mul; lia].
  rewrite (Z.lor_comm _ (base64.val_of b0 * 16777216)).
  rewrite (base64_facts.lor_add _ _ 24);
    [lia|lia|change (2 ^ 24) with 16777216; lia
    |change (2 ^ 24) with 16777216; apply Z.mod_mul; lia].
Qed.

Lemma Uint32_PutUint32 (v : Z) : 0 <= v < 2 ^ 32 -> Uint32 (PutUint32 v) = v.
Proof.
  intros Hv. unfold PutUint32. rewrite Uint32_value, !val_of_byte_of.
  rewrite !Z.shiftr_div_pow2 by lia.
  change (2 ^ 8) with 256. change (2 ^ 16) with 65536. change (2 ^ 24) with 16777216.
  change (2 ^ 32) with 4294967296 in Hv.
  Z.div_mod_to_equations. lia.
Qed.

Lemma PutUint32_Uint32 (b0 b1 b2 b3 : ascii) :
  PutUint32 (Uint32 [b0; b1; b2; b3]) = [b0; b1; b2; b3].
Proof.
  pose proof (base64_facts.val_of_range b0). pose proof (base64_facts.val_of_range b1).
  pose proof (base64_facts.val_of_range b2). pose proof (base64_facts.val_of_range b3).
  rewrite Uint32_value. unfold PutUint32.
  rewrite !Z.shiftr_div_pow2 by lia.
  change (2 ^ 8) with 256. change (2 ^ 16) with 65536. change (2 ^ 24) with 16777216.
  repeat f_equal; apply base64_facts.byte_of_val_of;
    Z.div_mod_to_equations; lia.
Qed.

Lemma Uint32_range (b : list ascii) : 0 <= Uint32 b < 2 ^ 32.
Proof.
  destruct b as [|b0 [|b1 [|b2 [|b3 [|]]]]]; try (cbn; lia).
  pose proof (base64_facts.val_of_range b0). pose proof (base64_facts.val_of_range b1).
  pose proof (base64_facts.val_of_range b2). pose proof (base64_facts.val_of_range b3).
  rewrite Uint32_value. change (2 ^ 32) with 4294967296. lia.
Qed.

Lemma maxFrameSize_value : maxFrameSize = 1048576.
Proof. reflexivity. Qed.

Lemma ReadFull_exact (n : nat) (pre rest : list ascii) (c : Conn) :
  length pre = n ->
  input c = pre ++ rest ->
  ReadFull n c = (Ok pre, {| input := rest; output := output c; broken := broken c |}).
Proof.
  intros Hn Hin. unfold ReadFull. rewrite Hin, length_app, <- Hn.
  destruct (Nat.ltb_spec (length pre + length rest) (length pre)) as [Hlt|_]; [lia|].
  now rewrite take_app_length, drop_app_length.
Qed.

(** [WriteFrame] on a working connection. *)
Lemma WriteFrame_working (data : list ascii) (a : Conn) :
  broken a = None ->
  WriteFrame (Ok data) a =
  (None, {| input := input a; output := output a ++ frame_of data; broken := None |}).
Proof.
  intros Hok. unfold WriteFrame, Write. rewrite Hok. cbn [broken input output].
  unfold frame_of. now rewrite <- app_assoc.
Qed.

(** [ReadFrame] on an input that starts with a whole frame. *)
Lemma ReadFrame_frame (data rest : list ascii) (b : Conn) :
  Z.of_nat (length data) <= maxFrameSize ->
  input b = frame_of data ++ rest ->
  ReadFrame b = (Ok data, {| input := rest; output := output b; broken := broken b |}).
Proof.
  rewrite maxFrameSize_value. intros Hlen Hin.
  assert (Hu : uint32 (Z.of_nat (length data)) = Z.of_nat (length data)).
  { unfold uint32. apply Z.mod_small. change (2 ^ 32) with 4294967296. lia. }
  unfold ReadFrame. unfold frame_of in Hin. rewrite Hu, <- app_assoc in Hin.
  rewrite (ReadFull_exact 4 (PutUint32 (Z.of_nat (length data))) _ b eq_refl Hin).
  rewrite Uint32_PutUint32 by (change (2 ^ 32) with 4294967296; lia).
  rewrite maxFrameSize_value.
  destruct (Z.ltb_spec 1048576 (Z.of_nat (length data))) as [Hlt|_]; [lia|].
  rewrite Nat2Z.id.
  now rewrite (ReadFull_exact (length data) data rest
                 {| input := data ++ rest; output := output b; broken := broken b |}
                 eq_refl eq_refl).
Qed.

(** X1 (frame round trip).  On a working connection [WriteFrame] puts
    the four-byte big-endian length of the payload and then the payload
    on the wire; when the payload has at most [maxFrameSize] bytes,
    [ReadFrame] on an input that starts with these bytes returns the
    payload and leaves what follows it unread. *)
Theorem frame_round_trip (data : list ascii) (a : Conn) :
  Z.of_nat (length data) <= maxFrameSize ->
  broken a = None ->
  WriteFrame (Ok data) a =
  (None, {| input := input a; output := output a ++ frame_of data; broken := None |})
  /\ forall (b : Conn) (rest : list ascii),
       input b = frame_of data ++ rest ->
       ReadFrame b = (Ok data, {| input := rest; output := output b; broken := broken b |}).
Proof.
  intros Hlen Hok. split.
  - now apply WriteFrame_working.
  - intros b rest Hin. now apply ReadFrame_frame.
Qed.

(** What [ReadFrame] has read when it returns a payload. *)
Lemma ReadFrame_inv (c c' : Conn) (data : list ascii) :
  ReadFrame c = (Ok data, c') ->
  input c = PutUint32 (Z.of_nat (length data)) ++ data ++ input c' /\
  Z.of_nat (length data) <= maxFrameSize /\
  output c' = output c /\ broken c' = broken c.
Proof.
  unfold ReadFrame, ReadFull. intros Hr.
  destruct (Nat.ltb_spec (length (input c)) 4) as [Hshort|Hhdr]; [discriminate|].
  cbn [input output broken] in Hr.
  destruct (Z.ltb_spec maxFrameSize (Uint32 (take 4 (input c)))) as [Hbig|Hsize];
    [discriminate|].
  destruct (Nat.ltb_spec (length (drop 4 (input c)))
                         (Z.to_nat (Uint32 (take 4 (input c))))) as [Hcut|Hfull];
    [discriminate|].
  inversion Hr; subst; clear Hr. cbn [input output broken].
  pose proof (Uint32_range (take 4 (input c))) as Hrange.
  assert (Hlen : length (take (Z.to_nat (Uint32 (take 4 (input c)))) (drop 4 (input c)))
                 = Z.to_nat (Uint32 (take 4 (input c)))).
  { rewrite length_take. lia. }
  rewrite Hlen, Z2Nat.id by lia.
  split; [|split; [exact Hsize | now split]].
  rewrite take_drop.
  destruct (input c) as [|b0 [|b1 [|b2 [|b3 tl]]]]; cbn [length] in Hhdr; try lia.
  cbn [take firstn]. rewrite PutUint32_Uint32. reflexivity.
Qed.

(** X2 (accepted frames).  When [ReadFrame] returns a payload, the input
    started with its frame: the big-endian length of the payload, which
    is at most [maxFrameSize], and then the payload; the bytes after it
    are left unread and nothing is written. *)
Theorem ReadFrame_sound (c c' : Conn) (data : list ascii) :
  ReadFrame c = (Ok data, c') ->
  input c = PutUint32 (Z.of_nat (length data)) ++ data ++ input c' /\
  Z.of_nat (length data) <= maxFrameSize /\
  output c' = output c /\ broken c' = broken c.
Proof. apply ReadFrame_inv. Qed.

(** X3 (oversize frames).  [WriteFrame] puts no limit on the payload,
    [ReadFrame] does: a payload of more than [maxFrameSize] bytes (and
    less than [2^32]) is written in full, and the reader refuses it
    when it has read the header, leaving the payload unread on the
    connection. *)
Theorem oversize_frame (data : list ascii) (a : Conn) :
  maxFrameSize < Z.of_nat (length data) < 2 ^ 32 ->
  broken a = None ->
  WriteFrame (Ok data) a =
  (None, {| input := input a; output := output a ++ frame_of data; broken := None |})
  /\ forall (b : Conn) (rest : list ascii),
       input b = frame_of data ++ rest ->
       ReadFrame b =
       (Err ("frame too large: " +:+ pretty (Z.of_nat (length data)) +:+ " bytes"),
        {| input := data ++ rest; output := output b; broken := broken b |}).
Proof.
  rewrite maxFrameSize_value. intros Hlen Hok. split.
  { now apply WriteFrame_working. }
  intros b rest Hin.
  assert (Hu : uint32 (Z.of_nat (length data)) = Z.of_nat (length data)).
  { unfold uint32. apply Z.mod_small. lia. }
  unfold ReadFrame. unfold frame_of in Hin. rewrite Hu, <- app_assoc in Hin.
  rewrite (ReadFull_exact 4 (PutUint32 (Z.of_nat (length data))) _ b eq_refl Hin).
  rewrite Uint32_PutUint32 by lia.
  rewrite maxFrameSize_value.
  destruct (Z.ltb_spec 1048576 (Z.of_nat (length data))) as [_|Hle]; [reflexivity|lia].
Qed.

(** X4 (truncated frames).  When the input ends inside a frame, after
    [k] of its bytes, [ReadFrame] fails: with [io.EOF] when nothing
    arrived, with [io.ErrUnexpectedEOF] inside the header, and with one
    of the two, marked as a payload error, after the header. *)
Theorem truncated_frame (data : list ascii) (k : nat) (b : Conn) :
  Z.of_nat (length data) <= maxFrameSize ->
  (k < 4 + length data)%nat ->
  input b = take k (frame_of data) ->
  ReadFrame b =
  (Err (if (k =? 0)%nat then "EOF"
        else if (k <? 4)%nat then "unexpected EOF"
        else if (k =? 4)%nat then "read payload: EOF"
        else "read payload: unexpected EOF"),
   {| input := []; output := output b; broken := broken b |}).
Proof.
  rewrite maxFrameSize_value. intros Hlen Hk Hin.
  assert (Hu : uint32 (Z.of_nat (length data)) = Z.of_nat (length data)).
  { unfold uint32. apply Z.mod_small. change (2 ^ 32) with 4294967296. lia. }
  unfold frame_of in Hin. rewrite Hu in Hin.
  destruct k as [|[|[|[|k]]]];
    try (unfold ReadFrame, ReadFull; rewrite Hin; reflexivity).
  change (take (S (S (S (S k)))) (PutUint32 (Z.of_nat (length data)) ++ data))
    with (PutUint32 (Z.of_nat (length data)) ++ take k data) in Hin.
  unfold ReadFrame. rewrite (ReadFull_exact 4 (PutUint32 (Z.of_nat (length data))) _ b eq_refl Hin).
  rewrite Uint32_PutUint32 by (change (2 ^ 32) with 4294967296; lia).
  rewrite maxFrameSize_value.
  destruct (Z.ltb_spec 1048576 (Z.of_nat (length data))) as [Hlt|_]; [lia|].
  rewrite Nat2Z.id. unfold ReadFull. cbn [input output broken].
  rewrite length_take.
  destruct (Nat.ltb_spec (k `min` length data) (length data)) as [_|Hge]; [|lia].
  destruct k as [|k]; [reflexivity|].
  destruct data as [|d data]; [cbn [length] in Hk; lia|]. reflexivity.
Qed.

(** A payload of five bytes, written and read back. *)
Lemma frame_round_trip_witness :
  let data := list_ascii_of_string "hello" in
  WriteFrame (Ok data) (receiving []) =
  (None, {| input := []; output := [] ++ frame_of data; broken := None |})
  /\ forall (b : Conn) (rest : list ascii),
       input b = frame_of data ++ rest ->
       ReadFrame b = (Ok data, {| input := rest; output := output b; broken := broken b |}).
Proof.
  apply (frame_round_trip (list_ascii_of_string "hello") (receiving [])
           ltac:(vm_compute; discriminate) eq_refl).
Defined.

(** A frame of two bytes followed by three more bytes. *)
Lemma ReadFrame_sound_witness :
  let c := receiving (frame_of (list_ascii_of_string "hi") ++ list_ascii_of_string "xyz") in
  let data := list_ascii_of_string "hi" in
  let c' := receiving (list_ascii_of_string "xyz") in
  input c = PutUint32 (Z.of_nat (length data)) ++ data ++ input c' /\
  Z.of_nat (length data) <= maxFrameSize /\
  output c' = output c /\ broken c' = broken c.
Proof.
  apply (ReadFrame_sound
           (receiving (frame_of (list_ascii_of_string "hi") ++ list_ascii_of_string "xyz"))
           (receiving (list_ascii_of_string "xyz")) (list_ascii_of_string "hi")
           ltac:(vm_compute; reflexivity)).
Defined.

(** A payload of one byte more than [maxFrameSize]. *)
Lemma oversize_frame_witness :
  let data := replicate (Z.to_nat 1048577) "a"%char in
  WriteFrame (Ok data) (receiving []) =
  (None, {| input := []; output := [] ++ frame_of data; broken := None |})
  /\ forall (b : Conn) (rest : list ascii),
       input b = frame_of data ++ rest ->
       ReadFrame b =
       (Err ("frame too large: " +:+ pretty (Z.of_nat (length data)) +:+ " bytes"),
        {| input := data ++ rest; output := output b; broken := broken b |}).
Proof.
  apply (oversize_frame (replicate (Z.to_nat 1048577) "a"%char) (receiving [])).
  - rewrite length_replicate, Z2Nat.id by lia. rewrite maxFrameSize_value. lia.
  - reflexivity.
Defined.

(** The frame of five bytes, cut after the header and two bytes. *)
Lemma truncated_frame_witness :
  let data := list_ascii_of_string "hello" in
  ReadFrame (receiving (take 6 (frame_of data))) =
  (Err "read payload: unexpected EOF", {| input := []; output := []; broken := None |}).
Proof.
  apply (truncated_frame (list_ascii_of_string "hello") 6
           (receiving (take 6 (frame_of (list_ascii_of_string "hello"))))
           ltac:(vm_compute; discriminate) ltac:(vm_compute; lia) eq_refl).
Defined.

End frame_facts.

(** ** The server loop and the client *)

Module server_facts.
Import conn ipc server.

Section Server.
Context `{WireLib} {S : Type}.
Variable handlers : gmap string (@Handler S).

Lemma ReadRequest_carried (req : Request) (rest : list ascii) (c : Conn) :
  carried req ->
  input c = request_bytes req ++ rest ->
  ReadRequest c = (Ok req, {| input := rest; output := output c; broken := broken c |}).
Proof.
  intros (data & Hm & Hlen & Hu) Hin. unfold request_bytes in Hin. rewrite Hm in Hin.
  unfold ReadRequest. rewrite (frame_facts.ReadFrame_frame data rest c Hlen Hin).
  now rewrite Hu.
Qed.

(** What the loop writes for a response on a working connection. *)
Lemma WriteFrame_response (resp : Response) (c : Conn) :
  broken c = None ->
  snd (frame.WriteFrame (json_Marshal_Response resp) c) =
  {| input := input c; output := output c ++ response_bytes resp; broken := None |}.
Proof.
  intros Hok. unfold response_bytes.
  destruct (json_Marshal_Response resp) as [data|e].
  - now rewrite frame_facts.WriteFrame_working.
  - cbn. rewrite app_nil_r. destruct c; cbn in *. now subst.
Qed.

Lemma WriteFrame_input (m : result (list ascii)) (c : Conn) :
  input (snd (frame.WriteFrame m c)) = input c.
Proof.
  unfold frame.WriteFrame, Write. destruct m as [data|e]; [|reflexivity].
  destruct (broken c); reflexivity.
Qed.

Lemma ReadRequest_consumes (c c' : Conn) (req : Request) :
  ReadRequest c = (Ok req, c') -> (length (input c') < length (input c))%nat.
Proof.
  unfold ReadRequest. intros Hr.
  destruct (frame.ReadFrame c) as [[data|e] c1] eqn:Hf; [|discriminate].
  destruct (json_Unmarshal_Request data); inversion Hr; subst.
  destruct (frame_facts.ReadFrame_inv _ _ _ Hf) as (Hin & _).
  rewrite Hin, !length_app. cbn [frame.PutUint32 length]. lia.
Qed.

(** The loop does not depend on the fuel, once it exceeds the length of
    the input. *)
Lemma handleConn_loop_fuel (fuel : nat) :
  forall (c : Conn) (s : S),
    (length (input c) < fuel)%nat ->
    handleConn_loop handlers fuel c s = handleConn handlers c s.
Proof.
  unfold handleConn.
  induction fuel as [fuel IH] using lt_wf_ind. intros c s Hlt.
  destruct fuel as [|fuel]; [lia|]. cbn [handleConn_loop].
  destruct (ReadRequest c) as [[req|e] c1] eqn:Hr; [|reflexivity].
  pose proof (ReadRequest_consumes _ _ _ Hr) as Hc.
  destruct (dispatch handlers req s) as [resp s1].
  destruct (frame.WriteFrame (json_Marshal_Response resp) c1) as [w c2] eqn:Hw.
  assert (Hin : input c2 = input c1).
  { change c2 with (snd (w, c2)). rewrite <- Hw. apply WriteFrame_input. }
  rewrite <- Hin in Hc.
  rewrite (IH fuel) by lia.
  rewrite (IH (length (input c))) by lia. reflexivity.
Qed.

Lemma handleConn_unfold (c : Conn) (s : S) :
  handleConn handlers c s =
  match ReadRequest c with
  | (Err _, c) => (c, s)
  | (Ok req, c) =>
      let (resp, s) := dispatch handlers req s in
      let (_, c) := frame.WriteFrame (json_Marshal_Response resp) c in
      handleConn handlers c s
  end.
Proof.
  unfold handleConn at 1. cbn [handleConn_loop].
  destruct (ReadRequest c) as [[req|e] c1] eqn:Hr; [|reflexivity].
  pose proof (ReadRequest_consumes _ _ _ Hr) as Hc.
  destruct (dispatch handlers req s) as [resp s1].
  destruct (frame.WriteFrame (json_Marshal_Response resp) c1) as [w c2] eqn:Hw.
  assert (Hin : input c2 = input c1).
  { change c2 with (snd (w, c2)). rewrite <- Hw. apply WriteFrame_input. }
  rewrite <- Hin in Hc.
  apply handleConn_loop_fuel. lia.
Qed.

(** The loop on the frames of a sequence of requests. *)
Lemma handleConn_requests (reqs : list Request) :
  Forall carried reqs ->
  forall (c : Conn) (s : S),
    broken c = None ->
    input c = concat (map request_bytes reqs) ->
    handleConn handlers c s =
    ({| input := [];
        output := output c ++
                  concat (map response_bytes (fst (serve_all handlers reqs s)));
        broken := None |},
     snd (serve_all handlers reqs s)).
Proof.
  intros Hreqs. induction Hreqs as [|req reqs Hreq _ IH]; intros c s Hok Hin.
  - cbn [map concat] in Hin. rewrite handleConn_unfold.
    unfold ReadRequest, frame.ReadFrame, ReadFull. rewrite Hin. cbn.
    rewrite app_nil_r. now rewrite Hok.
  - cbn [map concat] in Hin. rewrite handleConn_unfold.
    rewrite (ReadRequest_carried req _ c Hreq Hin).
    cbn [serve_all]. destruct (dispatch handlers req s) as [resp s1].
    destruct (serve_all handlers reqs s1) as [resps s2] eqn:Hall.
    destruct (frame.WriteFrame (json_Marshal_Response resp) _) as [w c2] eqn:Hw.
    assert (Hc2 : c2 = {| input := concat (map request_bytes reqs);
                          output := output c ++ response_bytes resp; broken := None |}).
    { change c2 with (snd (w, c2)). rewrite <- Hw.
      now rewrite WriteFrame_response by exact Hok. }
    rewrite (IH c2 s1) by (subst c2; reflexivity).
    rewrite Hall, Hc2. cbn [fst snd map concat output]. now rewrite app_assoc.
Qed.

(** [SendRequest] to a socket that [handleConn] serves. *)
Lemma SendRequest_accept (socketPath : string) (req : Request) (s : S)
    (data : list ascii) :
  carried req ->
  json_Marshal_Response (fst (dispatch handlers req s)) = Ok data ->
  Z.of_nat (length data) <= frame.maxFrameSize ->
  json_Unmarshal_Response data = Ok (fst (dispatch handlers req s)) ->
  SendRequest socketPath (Ok (accept handlers)) req s =
  (Ok (fst (dispatch handlers req s)), snd (dispatch handlers req s)).
Proof.
  intros Hreq Hm Hlen Hu.
  pose proof (handleConn_requests [req] (proj2 (Forall_singleton _ _) Hreq)
                (receiving (concat (map request_bytes [req]))) s
                eq_refl eq_refl) as Hserve.
  cbn [map concat serve_all receiving output] in Hserve.
  rewrite app_nil_r in Hserve.
  destruct Hreq as (rdata & Hrm & Hrlen & Hru).
  unfold SendRequest. rewrite Hrm.
  rewrite frame_facts.WriteFrame_working by reflexivity.
  cbn [receiving input output app].
  unfold request_bytes in Hserve. rewrite Hrm in Hserve.
  unfold accept. unfold receiving in Hserve |- *. rewrite Hserve.
  destruct (dispatch handlers req s) as [resp s1].
  cbn [fst snd output app map concat] in *.
  unfold response_bytes. rewrite Hm, app_nil_r.
  rewrite (frame_facts.ReadFrame_frame data [] _ Hlen)
    by (cbn [input]; now rewrite app_nil_r).
  now rewrite Hu.
Qed.

(** X5 (the connection loop).  On a working connection on which the
    frames of a sequence of requests arrive, and then the end of the
    input, [handleConn] writes the frames of the responses, in the order
    of the requests, each response being that of the handler registered
    for the method in the state left by the requests before it; a
    response that cannot be marshalled is dropped.  The number of
    iterations is bounded by the length of the input. *)
Theorem handleConn_serves (reqs : list Request) (c : Conn) (s : S) :
  Forall carried reqs ->
  broken c = None ->
  input c = concat (map request_bytes reqs) ->
  handleConn handlers c s =
  ({| input := [];
      output := output c ++ concat (map response_bytes (fst (serve_all handlers reqs s)));
      broken := None |},
   snd (serve_all handlers reqs s))
  /\ forall fuel, (length (input c) < fuel)%nat ->
                  handleConn_loop handlers fuel c s = handleConn handlers c s.
Proof.
  intros Hreqs Hok Hin. split; [|intros fuel; apply handleConn_loop_fuel].
  now apply handleConn_requests.
Qed.

(** X6 (one request over a socket).  When the socket is served by
    [handleConn], and the request and the response are carried by the
    codec in frames that the readers accept, [SendRequest] returns the
    response that the handler registered for the method gives, and the
    service is left in the state after this request. *)
Theorem SendRequest_served (socketPath : string) (req : Request) (s : S)
    (data : list ascii) :
  carried req ->
  json_Marshal_Response (fst (dispatch handlers req s)) = Ok data ->
  Z.of_nat (length data) <= frame.maxFrameSize ->
  json_Unmarshal_Response data = Ok (fst (dispatch handlers req s)) ->
  SendRequest socketPath (Ok (accept handlers)) req s =
  (Ok (fst (dispatch handlers req s)), snd (dispatch handlers req s)).
Proof. apply SendRequest_accept. Qed.

End Server.

(** Two revocations sent to the FS service of the examples on one
    connection: both are answered, in order. *)
Lemma handleConn_serves_witness :
  let handlers := @fs_main.handlers examples.lib ref.macLib ref.jsonLib ref.osLib
                    examples.node_key in
  let reqs := [examples.revoke_req "c1"; examples.revoke_req "c2"] in
  let c := receiving (concat (map (@request_bytes ref_wire.wireLib) reqs)) in
  @handleConn ref_wire.wireLib _ handlers c examples.start =
  ({| input := [];
      output := output c ++
                concat (map (@response_bytes ref_wire.wireLib)
                          (fst (serve_all handlers reqs examples.start)));
      broken := None |},
   snd (serve_all handlers reqs examples.start))
  /\ forall fuel, (length (input c) < fuel)%nat ->
                  @handleConn_loop ref_wire.wireLib _ handlers fuel c examples.start =
                  @handleConn ref_wire.wireLib _ handlers c examples.start.
Proof.
  apply (@handleConn_serves ref_wire.wireLib _
           (@fs_main.handlers examples.lib ref.macLib ref.jsonLib ref.osLib
              examples.node_key)
           [examples.revoke_req "c1"; examples.revoke_req "c2"]).
  - repeat constructor; eexists; fs_facts.evaluate; vm_compute; discriminate.
  - reflexivity.
  - reflexivity.
Defined.

(** One revocation sent to the FS service of the examples. *)
Lemma SendRequest_served_witness :
  let handlers := @fs_main.handlers examples.lib ref.macLib ref.jsonLib ref.osLib
                    examples.node_key in
  let req := examples.revoke_req "c1" in
  @SendRequest ref_wire.wireLib _ "/run/strata/fs.sock"
    (Ok (@accept ref_wire.wireLib _ handlers)) req examples.start =
  (Ok (fst (dispatch handlers req examples.start)),
   snd (dispatch handlers req examples.start)).
Proof.
  apply (@SendRequest_served ref_wire.wireLib _
           (@fs_main.handlers examples.lib ref.macLib ref.jsonLib ref.osLib
              examples.node_key)
           "/run/strata/fs.sock" (examples.revoke_req "c1") examples.start
           (ref_wire.lines ["revoke-c1"; "status"; "revoked"])).
  - eexists; fs_facts.evaluate; vm_compute; discriminate.
  - vm_compute. reflexivity.
  - vm_compute. discriminate.
  - vm_compute. reflexivity.
Defined.

End server_facts.

(** ** More on the authorization decision *)

Module decision_facts.
Import capability policy.

Lemma cut_dot_app (a b : string) :
  strings.Contains a "." = false ->
  strings.cut_dot (a +:+ "." +:+ b) = Some (a, b).
Proof.
  induction a as [|c a IH]; intros Hc; [reflexivity|].
  rewrite strings_facts.Contains_unfold in Hc.
  apply orb_false_iff in Hc as [Hp Hc].
  unfold strings.HasPrefix in Hp. cbn [String.prefix] in Hp.
  change (String c a +:+ "." +:+ b) with (String c (a +:+ "." +:+ b)).
  cbn [strings.cut_dot].
  destruct (Ascii.eqb_spec c ".") as [->|Hne].
  - destruct (ascii_dec "." "."); [now destruct a|congruence].
  - now rewrite (IH Hc).
Qed.

Section Decision.
Context `{PolicyLib}.

(** X7 (the decision is complete).  A method [service.action], with no
    dot in [service], is authorized for claims of that service that
    list the method among their rights, or the action among their
    actions, once the path-prefix and rate-limit constraints pass:
    nothing else is checked, neither the subject nor the times of
    the claims. *)
Theorem Authorize_grants now (c : Capability) (service action : string)
    (ctx : gmap string any) (bs : gmap string bucket) :
  strings.Contains service "." = false ->
  Service c = service ->
  In (service +:+ "." +:+ action) (Rights c) \/ In action (Actions c) ->
  enforcePathPrefix (PathPrefix (constraints c)) ctx = None ->
  fst (enforceRateLimit now (ID c) (RateLimit (constraints c)) bs) = None ->
  Authorize now (Some c) (service +:+ "." +:+ action) ctx bs =
  (None, snd (enforceRateLimit now (ID c) (RateLimit (constraints c)) bs)).
Proof.
  intros Hdot Hsvc Hperm Hpath Hrate. unfold Authorize, strings.SplitN_dot_2.
  rewrite (cut_dot_app _ _ Hdot), Hsvc, String.eqb_refl. cbn [negb].
  assert (negb (hasRight (Rights c) (service +:+ "." +:+ action))
          && negb (hasAction (Actions c) action) = false) as ->.
  { destruct Hperm as [Hr|Ha].
    - apply policy_facts.hasRight_In in Hr. now rewrite Hr.
    - apply policy_facts.hasAction_In in Ha. rewrite Ha. apply andb_false_r. }
  unfold enforceConstraints. rewrite Hpath.
  destruct (enforceRateLimit _ _ _ _) as [[e|] bs']; [discriminate | reflexivity].
Qed.

(** X8 (denials are not counted).  A request that [Authorize] refuses
    for another reason than the rate limit leaves the bucket map as it
    is: only a request that passes the checks of service, rights and
    path prefix is counted by the rate limiter. *)
Theorem Authorize_denial_keeps_buckets now (claims : option Capability)
    (method : string) (ctx : gmap string any) (bs : gmap string bucket)
    (err : PolicyError) :
  fst (Authorize now claims method ctx bs) = Some err ->
  err <> exhausted ->
  snd (Authorize now claims method ctx bs) = bs.
Proof.
  unfold Authorize, enforceConstraints. intros Ha Hne.
  destruct claims as [c|]; [|reflexivity].
  destruct (strings.SplitN_dot_2 method) as [|service [|action [|]]];
    try reflexivity.
  destruct (negb _); [reflexivity|].
  destruct (_ && _); [reflexivity|].
  destruct (enforcePathPrefix _ ctx); [reflexivity|].
  destruct (enforceRateLimit _ _ _ _) as [[e|] bs1] eqn:Hr; [|discriminate].
  cbn [fst] in Ha. inversion Ha; subst.
  now rewrite (fs_facts.enforceRateLimit_error _ _ _ _ _ _ Hr) in Hne.
Qed.

Lemma enforceRateLimit_other now capID rateLimit bs (k : string) :
  k <> capID ->
  snd (enforceRateLimit now capID rateLimit bs) !! k = bs !! k.
Proof.
  intros Hk. unfold enforceRateLimit.
  destruct (String.eqb rateLimit ""); [reflexivity|].
  destruct (parseRate rateLimit) as [r [|]]; [|reflexivity].
  cbv zeta. destruct (f64.lt _ _); cbn [snd]; now rewrite lookup_insert_ne.
Qed.

(** X9 (buckets are per capability).  Whatever [Authorize] decides for
    the claims of one capability, the buckets of all other capabilities
    are left as they are. *)
Theorem Authorize_bucket_isolation now (c : Capability) (method : string)
    (ctx : gmap string any) (bs : gmap string bucket) (k : string) :
  k <> ID c ->
  snd (Authorize now (Some c) method ctx bs) !! k = bs !! k.
Proof.
  intros Hk. unfold Authorize, enforceConstraints.
  destruct (strings.SplitN_dot_2 method) as [|service [|action [|]]];
    try reflexivity.
  destruct (negb _); [reflexivity|].
  destruct (_ && _); [reflexivity|].
  destruct (enforcePathPrefix _ ctx); [reflexivity|].
  pose proof (enforceRateLimit_other now (ID c) (RateLimit (constraints c)) bs k Hk)
    as Hother.
  destruct (enforceRateLimit _ _ _ _) as [[e|] bs1]; exact Hother.
Qed.

(** X10 (the path-prefix constraint, both ways).  The constraint passes
    exactly when the prefix is empty, or the context names no path (as
    the context of every [fs.read] does), or the path is free of [..]
    and its absolute form is the absolute prefix or lies below it. *)
Theorem enforcePathPrefix_iff (P : string) (ctx : gmap string any) :
  enforcePathPrefix P ctx = None <->
  P = "" \/ get_string ctx "path" = "" \/
  (strings.Contains (get_string ctx "path") ".." = false /\
   exists absQ absP,
     filepath_Abs (get_string ctx "path") = Ok absQ /\
     filepath_Abs P = Ok absP /\
     (absQ = absP \/ exists rest, absQ = (absP +:+ filepath_Separator) +:+ rest)).
Proof.
  unfold enforcePathPrefix.
  destruct (String.eqb_spec P "") as [HP|HP]; [tauto|].
  destruct (String.eqb_spec (get_string ctx "path") "") as [HQ|HQ]; [tauto|].
  destruct (strings.Contains (get_string ctx "path") "..") eqn:Hdots.
  { split; [discriminate|]. intros [?|[?|[? _]]]; congruence. }
  destruct (filepath_Abs (get_string ctx "path")) as [absQ|e] eqn:HaQ.
  2:{ split; [discriminate|].
      intros [?|[?|(_ & ? & ? & ? & _)]]; congruence. }
  destruct (filepath_Abs P) as [absP|e] eqn:HaP.
  2:{ split; [discriminate|].
      intros [?|[?|(_ & ? & ? & _ & ? & _)]]; congruence. }
  destruct (String.eqb_spec absQ absP) as [Heq|Hneq]; cbn [negb andb].
  { split; [|reflexivity]. intros _. right. right. split; [reflexivity|].
    exists absQ, absP. auto. }
  destruct (strings.HasPrefix absQ (absP +:+ filepath_Separator)) eqn:Hpre;
    cbn [negb].
  - split; [|reflexivity]. intros _. right. right. split; [reflexivity|].
    exists absQ, absP. split; [reflexivity|]. split; [reflexivity|]. right.
    now apply strings_facts.HasPrefix_spec.
  - split; [discriminate|].
    intros [?|[?|(_ & q & p & Hq & Hp & Hin)]]; try congruence.
    inversion Hq; inversion Hp; subst q p.
    destruct Hin as [?|Hin]; [congruence|].
    apply strings_facts.HasPrefix_spec in Hin. congruence.
Qed.

End Decision.

(** A listing under [examples.cap_tmp], which names [fs.list] among its
    rights. *)
Lemma Authorize_grants_witness :
  @Authorize examples.lib 5 (Some examples.cap_tmp) ("fs" +:+ "." +:+ "list")
    (examples.ctx_path "/tmp/x") ∅ =
  (None, snd (@enforceRateLimit examples.lib 5 (ID examples.cap_tmp)
                (RateLimit (constraints examples.cap_tmp)) ∅)).
Proof.
  apply (@Authorize_grants examples.lib 5 examples.cap_tmp "fs" "list"
           (examples.ctx_path "/tmp/x") ∅).
  - reflexivity.
  - reflexivity.
  - left. vm_compute. auto.
  - vm_compute. reflexivity.
  - vm_compute. reflexivity.
Defined.

(** A request for another service under [examples.cap_limited]: it is
    refused and no bucket is created. *)
Lemma Authorize_denial_keeps_buckets_witness :
  snd (@Authorize examples.lib 5 (Some examples.cap_limited) "net.open" ∅ ∅) = ∅.
Proof.
  apply (@Authorize_denial_keeps_buckets examples.lib 5 (Some examples.cap_limited)
           "net.open" ∅ ∅
           (denied ("token not valid for service " +:+ ref.Quote "net"))
           ltac:(vm_compute; reflexivity)).
  discriminate.
Defined.

(** A read under [examples.cap_limited] takes a token of its own
    bucket; the bucket of [examples.cap_tmp] is not created. *)
Lemma Authorize_bucket_isolation_witness :
  snd (@Authorize examples.lib 5 (Some examples.cap_limited) "fs.read" ∅ ∅)
    !! ID examples.cap_tmp = (∅ : gmap string bucket) !! ID examples.cap_tmp.
Proof.
  apply (@Authorize_bucket_isolation examples.lib 5 examples.cap_limited "fs.read" ∅ ∅
           (ID examples.cap_tmp)).
  vm_compute. discriminate.
Defined.

End decision_facts.

(** ** The rate limiter over time *)

Module limiter_facts.
Import capability policy limiter.







Section Limiter.
Context `{PolicyLib}.




(** With a rate below one, a bucket of that rate never holds a whole
    token. *)
Lemma calls_starved (capID rateLimit : string) (q : Q) :
  rateLimit <> "" ->
  parseRate rateLimit = (Fin q, true) ->
  (q < 1)%Q ->
  forall (times : list time.Time) (bs : gmap string bucket),
    (bs !! capID = None \/
     exists t lst, bs !! capID = Some {| tokens := Fin t; rate := Fin q; last := lst |}) ->
    Forall (fun r => r = Some exhausted) (fst (calls times capID rateLimit bs)).
Proof.
  intros Hne Hparse Hq. induction times as [|now rest IH]; intros bs Hb.
  - constructor.
  - cbn [calls].
    assert (Hcall : exists t,
               enforceRateLimit now capID rateLimit bs =
               (Some exhausted,
                <[capID := {| tokens := Fin t; rate := Fin q; last := now |}]> bs)).
    { destruct Hb as [Hnone|(t & lst & Hsome)].
      - rewrite (rate_facts.enforceRateLimit_finite now capID rateLimit bs (Fin q) q q now
                   Hne Hparse) by (now rewrite Hnone).
        cbv zeta.
        destruct (Qle_bool 1 _) eqn:E1; [|eauto].
        apply Qle_bool_iff in E1.
        destruct (Qle_bool _ q) eqn:E2 in E1; [apply Qle_bool_iff in E2|]; lra.
      - rewrite (rate_facts.enforceRateLimit_finite now capID rateLimit bs (Fin q) t q lst
                   Hne Hparse) by (now rewrite Hsome).
        cbv zeta.
        destruct (Qle_bool 1 _) eqn:E1; [|eauto].
        apply Qle_bool_iff in E1.
        destruct (Qle_bool _ q) eqn:E2 in E1; [apply Qle_bool_iff in E2|]; lra. }
    destruct Hcall as [t ->].
    specialize (IH (<[capID := {| tokens := Fin t; rate := Fin q; last := now |}]> bs)).
    destruct (calls rest capID rateLimit _) as [rs bs2].
    cbn [fst] in *. constructor; [reflexivity|].
    apply IH. right. exists t, now. apply lookup_insert_eq.
Qed.

(** X12 (rates below one).  A rate limit below one request per second
    grants nothing: the bucket is capped at the rate, so that it never
    holds the whole token that a request takes.  Every call for a
    capability without a bucket yet is refused, whatever the time
    between the calls. *)
Theorem rate_below_one_refuses_all (capID rateLimit : string) (q : Q)
    (times : list time.Time) (bs : gmap string bucket) :
  rateLimit <> "" ->
  parseRate rateLimit = (Fin q, true) ->
  (q < 1)%Q ->
  bs !! capID = None ->
  Forall (fun r => r = Some exhausted) (fst (calls times capID rateLimit bs)).
Proof.
  intros Hne Hparse Hq Hnone. apply (calls_starved capID rateLimit q Hne Hparse Hq).
  now left.
Qed.

(** With a bucket whose token count is NaN, every call is granted and
    leaves the count at NaN. *)
Lemma calls_unlimited (capID rateLimit : string) (r0 : float64) :
  rateLimit <> "" ->
  parseRate rateLimit = (r0, true) ->
  forall (times : list time.Time) (bs : gmap string bucket),
    (exists r lst, bs !! capID = Some {| tokens := NaN; rate := r; last := lst |}) ->
    Forall (fun x => x = None) (fst (calls times capID rateLimit bs)).
Proof.
  intros Hne Hparse. apply String.eqb_neq in Hne.
  induction times as [|now rest IH]; intros bs (r & lst & Hb); [constructor|].
  cbn [calls]. unfold enforceRateLimit. rewrite Hne, Hparse, Hb.
  cbn [tokens rate last f64.add].
  assert (f64.gt NaN r = false) as -> by (destruct r; reflexivity).
  cbn [f64.lt f64.dec f64.add].
  specialize (IH (<[capID := {| tokens := NaN; rate := r; last := now |}]> bs)).
  destruct (calls rest capID rateLimit _) as [rs bs2].
  cbn [fst] in *. constructor; [reflexivity|].
  apply IH. exists r, now. apply lookup_insert_eq.
Qed.

(** X30 (rates that are no numbers).  A rate limit that
    [strconv.ParseFloat] reads as NaN or as positive infinity, such as
    [NaNrps] or [Infrps], is accepted by [parseRate], since the
    comparison [n <= 0] is false for it, and it limits nothing: from
    the first call on the token count of the bucket is no finite
    number, the comparison that refuses a call does not hold for it,
    and every call is granted, however many are made and whenever. *)
Theorem nonfinite_rate_never_limits (capID rateLimit : string) (r : float64)
    (times : list time.Time) (bs : gmap string bucket) :
  rateLimit <> "" ->
  parseRate rateLimit = (r, true) ->
  r = NaN \/ r = Inf false ->
  bs !! capID = None ->
  Forall (fun x => x = None) (fst (calls times capID rateLimit bs)).
Proof.
  intros Hne Hparse Hr Hnone.
  destruct times as [|now rest]; [constructor|].
  cbn [calls]. unfold enforceRateLimit.
  rewrite (proj2 (String.eqb_neq _ _) Hne), Hparse, Hnone.
  cbn [tokens rate last]. rewrite rate_facts.Sub_same.
  assert (Hfirst : exists r', 
             (let refilled := f64.add r (f64.mul (time.Seconds 0) r) in
              let capped := if f64.gt refilled r then r else refilled in
              if f64.lt capped (Fin 1)
              then (Some exhausted,
                    <[capID := {| tokens := capped; rate := r; last := now |}]> bs)
              else (None,
                    <[capID := {| tokens := f64.dec capped; rate := r; last := now |}]>
                      bs))
             = (None, <[capID := {| tokens := NaN; rate := r'; last := now |}]> bs)).
  { destruct Hr as [->| ->]; eexists; reflexivity. }
  destruct Hfirst as [r' Hfirst]. cbv zeta in Hfirst. rewrite Hfirst.
  pose proof (calls_unlimited capID rateLimit r Hne Hparse rest
                (<[capID := {| tokens := NaN; rate := r'; last := now |}]> bs)
                ltac:(exists r', now; apply lookup_insert_eq)) as Hrest.
  destruct (calls rest capID rateLimit _) as [rs bs2].
  cbn [fst] in *. now constructor.
Qed.

End Limiter.


(** With [0.5rps], calls at 0, 10 s and 1000 s are all refused. *)
Lemma rate_below_one_refuses_all_witness :
  Forall (fun r => r = Some exhausted)
         (fst (@calls examples.lib [0; 10000000000; 1000000000000] "c" "0.5rps" ∅)).
Proof.
  apply (@rate_below_one_refuses_all examples.lib "c" "0.5rps" (50 # 100)
           [0; 10000000000; 1000000000000] ∅
           ltac:(discriminate) ltac:(vm_compute; reflexivity) ltac:(reflexivity)
           ltac:(reflexivity)).
Defined.

(** With [NaNrps], four calls at one clock reading are all granted. *)
Lemma nonfinite_rate_never_limits_witness :
  Forall (fun x => x = None)
         (fst (@calls examples.lib [0; 0; 0; 0] "c" "NaNrps" ∅)).
Proof.
  apply (@nonfinite_rate_never_limits examples.lib "c" "NaNrps" NaN [0; 0; 0; 0] ∅
           ltac:(discriminate) ltac:(vm_compute; reflexivity)
           ltac:(left; reflexivity) ltac:(reflexivity)).
Defined.

End limiter_facts.

(** ** More on the FS service *)

Module service_facts.
Import capability ipc fs.

(** Case analysis on the branches of the goal. *)
Ltac goal_branches :=
  repeat match goal with
         | |- context [match ?x with _ => _ end] => destruct x eqn:?
         end.

Section Service.
Context `{PolicyLib} `{Ed25519Lib} `{JsonLib} `{OsLib}.
Variable pubKey : PublicKey.

Lemma set_buckets_same (s : State) : set_buckets (buckets s) s = s.
Proof. now destruct s. Qed.

(** The dispatch of [fs.serve] is that of [handleConn] over the
    handlers that [main] registers. *)
Lemma serve_dispatch (req : Request) (s : State) :
  serve pubKey req s = server.dispatch (fs_main.handlers pubKey) req s.
Proof.
  unfold serve, server.dispatch, fs_main.handlers.
  destruct (negb _); [reflexivity|].
  destruct (String.eqb_spec (Method req) "fs.open") as [->|Hm1].
  { now rewrite lookup_insert_eq. }
  rewrite lookup_insert_ne by congruence.
  destruct (String.eqb_spec (Method req) "fs.read") as [->|Hm2].
  { now rewrite lookup_insert_eq. }
  rewrite lookup_insert_ne by congruence.
  destruct (String.eqb_spec (Method req) "fs.list") as [->|Hm3].
  { now rewrite lookup_insert_eq. }
  rewrite lookup_insert_ne by congruence.
  destruct (String.eqb_spec (Method req) "fs.revoke") as [->|Hm4].
  { now rewrite lookup_singleton_eq. }
  now rewrite lookup_singleton_ne by congruence.
Qed.

Lemma answers_error (req : Request) (code : Z) (msg : string) :
  fs_main.answers req (ErrorResponse (ReqID req) code msg).
Proof. unfold fs_main.answers. cbn. split; [|split]; try reflexivity. right. eauto. Qed.

Lemma answers_success (req : Request) (r : Result) :
  fs_main.answers req (SuccessResponse (ReqID req) r).
Proof. unfold fs_main.answers. cbn. split; [|split]; try reflexivity. left. eauto. Qed.

Lemma extractClaims_answers (req : Request) (now : time.Time) o resp :
  extractClaims pubKey req now = (o, Some resp) -> fs_main.answers req resp.
Proof.
  unfold extractClaims. intros Hx.
  fs_facts.branches Hx; inversion Hx; subst; apply answers_error.
Qed.

Lemma extractClaims_Some_facts (req : Request) (now : time.Time) (c : Capability) :
  extractClaims pubKey req now = (Some c, None) ->
  exists a, auth req = Some a /\ auth.Verify (Token a) pubKey = Ok c /\
            IsExpired now c = false.
Proof.
  intros Hx. destruct (fs_facts.extractClaims_Some _ _ _ _ _ Hx)
    as (_ & a & Ha & _ & Hv & He).
  now exists a.
Qed.

(** X13 (the response envelope).  Whatever the request and the state,
    the FS service answers with protocol version 1 and the id of the
    request, and with either a result and no error, marked [ok], or an
    error and no result, marked not [ok].  A request of another
    protocol version, or for a method that is not registered, is
    refused as invalid, code 1, before its token is looked at, and
    changes nothing. *)
Theorem serve_answers (req : Request) (s : State) :
  fs_main.answers req (fst (serve pubKey req s))
  /\ (V req <> 1 ->
      serve pubKey req s =
      (ErrorResponse (ReqID req) 1 "unsupported protocol version", s))
  /\ (V req = 1 ->
      ~ In (Method req) ["fs.open"; "fs.read"; "fs.list"; "fs.revoke"] ->
      serve pubKey req s =
      (ErrorResponse (ReqID req) 1 ("unknown method: " +:+ Method req), s)).
Proof.
  split; [|split].
  - unfold serve, fs_open, fs_read, fs_list, fs_revoke, policyError, nil_claims_panic.
    destruct (negb _); [apply answers_error|].
    destruct (String.eqb (Method req) "fs.open").
    { destruct (extractClaims pubKey req (clock s)) as [claims [errResp|]] eqn:Hx;
        [exact (extractClaims_answers _ _ _ _ Hx)|].
      goal_branches; cbn [fst]; first [apply answers_error | apply answers_success]. }
    destruct (String.eqb (Method req) "fs.read").
    { destruct (extractClaims pubKey req (clock s)) as [claims [errResp|]] eqn:Hx;
        [exact (extractClaims_answers _ _ _ _ Hx)|].
      goal_branches; cbn [fst]; first [apply answers_error | apply answers_success]. }
    destruct (String.eqb (Method req) "fs.list").
    { destruct (extractClaims pubKey req (clock s)) as [claims [errResp|]] eqn:Hx;
        [exact (extractClaims_answers _ _ _ _ Hx)|].
      goal_branches; cbn [fst]; first [apply answers_error | apply answers_success]. }
    goal_branches; cbn [fst]; first [apply answers_error | apply answers_success].
  - intros HV. unfold serve. apply Z.eqb_neq in HV. now rewrite HV.
  - intros HV Hm. unfold serve. rewrite HV. cbn [Z.eqb Pos.eqb negb].
    cbn [In] in Hm.
    destruct (String.eqb_spec (Method req) "fs.open") as [Heq|_];
      [exfalso; apply Hm; rewrite Heq; auto|].
    destruct (String.eqb_spec (Method req) "fs.read") as [Heq|_];
      [exfalso; apply Hm; rewrite Heq; auto|].
    destruct (String.eqb_spec (Method req) "fs.list") as [Heq|_];
      [exfalso; apply Hm; rewrite Heq; auto|].
    destruct (String.eqb_spec (Method req) "fs.revoke") as [Heq|_];
      [exfalso; apply Hm; rewrite Heq; auto|].
    reflexivity.
Qed.

(** X14 (requests without a token).  A request that carries no token,
    or an empty one, is refused by every handler that needs one, and the
    state of the service stays as it is, the buckets of the rate limiter
    included: [fs.read] answers [token required], code 2; [fs.open] and
    [fs.list] check the path parameter first and answer
    [missing path param], code 1, without it, and [token required]
    with it. *)
Theorem no_token_refused (req : Request) (s : State) :
  auth req = None \/ (exists a, auth req = Some a /\ Token a = "") ->
  let required := ErrorResponse (ReqID req) 2 "token required" in
  let missing := ErrorResponse (ReqID req) 1 "missing path param" in
  let with_path := negb (String.eqb (get_string (Params req) "path") "") in
  fs_read pubKey req s = (required, s) /\
  fs_open pubKey req s = (if with_path then required else missing, s) /\
  fs_list pubKey req s = (if with_path then required else missing, s).
Proof.
  intros Hnone required missing with_path.
  assert (Hx : extractClaims pubKey req (clock s) = (None, None)).
  { unfold extractClaims. destruct Hnone as [->|(a & -> & ->)]; reflexivity. }
  unfold fs_read, fs_open, fs_list. rewrite Hx. subst with_path.
  cbn [policy.Authorize policyError policy.Code policy.Message policy.unauthenticated].
  rewrite set_buckets_same.
  destruct (String.eqb (get_string (Params req) "path") ""); now repeat split.
Qed.

(** X15 (expired tokens).  A token that verifies is refused with
    [token expired], code 2, by every handler once the clock has passed
    the expiry time of its claims, and the state stays as it is; up to
    and at the expiry time the claims are accepted. *)
Theorem expired_token_refused (req : Request) (a : Auth) (c : Capability) (s : State) :
  auth req = Some a ->
  Token a <> "" ->
  auth.Verify (Token a) pubKey = Ok c ->
  (ExpiresAt c < clock s ->
   let expired := ErrorResponse (ReqID req) 2 "token expired" in
   fs_open pubKey req s = (expired, s) /\
   fs_read pubKey req s = (expired, s) /\
   fs_list pubKey req s = (expired, s))
  /\ (clock s <= ExpiresAt c ->
      extractClaims pubKey req (clock s) = (Some c, None)).
Proof.
  intros Hauth Htoken Hverify.
  apply String.eqb_neq in Htoken.
  split.
  - intros Hexp expired.
    assert (Hx : extractClaims pubKey req (clock s) = (None, Some expired)).
    { unfold extractClaims, IsExpired, time.After. rewrite Hauth, Htoken, Hverify.
      destruct (Z.ltb_spec (ExpiresAt c) (clock s)); [reflexivity | lia]. }
    unfold fs_open, fs_read, fs_list. rewrite Hx. now repeat split.
  - intros Hvalid. unfold extractClaims, IsExpired, time.After.
    rewrite Hauth, Htoken, Hverify.
    destruct (Z.ltb_spec (ExpiresAt c) (clock s)); [lia | reflexivity].
Qed.

(** What the claims of an authorized request for [method] hold. *)
Lemma Authorize_fs (now : time.Time) (c : Capability) (action : string)
    (ctx : gmap string any) (bs : gmap string policy.bucket) :
  strings.Contains action "." = false ->
  fst (policy.Authorize now (Some c) ("fs." +:+ action) ctx bs) = None ->
  Service c = "fs" /\
  (In ("fs." +:+ action) (Rights c) \/ In action (Actions c)) /\
  policy.enforcePathPrefix (PathPrefix (constraints c)) ctx = None.
Proof.
  intros _ Hauth.
  destruct (policy_facts.Authorize_None_inv _ _ _ _ _ Hauth)
    as (c' & service & act & Hc & Hsplit & _ & Hsvc & Hperm & Hpath & _).
  inversion Hc; subst c'.
  unfold strings.SplitN_dot_2 in Hsplit.
  change ("fs." +:+ action) with ("fs" +:+ "." +:+ action) in Hsplit.
  rewrite (decision_facts.cut_dot_app "fs" action eq_refl) in Hsplit.
  inversion Hsplit; subst. now repeat split.
Qed.

(** X16 (complete mediation).  Serving a request performs at most one
    operation on the operating system, and only on behalf of a token
    that verifies under the key of the service, is not expired, is not
    revoked, and belongs to the service [fs]: a file is opened, or a
    directory read, only for [fs.open], or [fs.list], at the path of
    the request, which the claims permit and whose path prefix
    contains it; a file is read only for [fs.read], which the claims
    permit, through a handle of the table that is bound to the
    capability of the token.  No file is closed. *)
Theorem os_access_mediated (req : Request) (s : State) :
  let s' := snd (serve pubKey req s) in
  oscalls s' = oscalls s \/
  exists (call : OsCall) (a : Auth) (c : Capability),
    oscalls s' = call :: oscalls s /\
    V req = 1 /\
    auth req = Some a /\
    auth.Verify (Token a) pubKey = Ok c /\
    IsExpired (clock s) c = false /\
    IsRevoked (ID c) (table s) = false /\
    Service c = "fs" /\
    match call with
    | CallOpen p =>
        Method req = "fs.open" /\
        p = get_string (Params req) "path" /\ p <> "" /\
        (In "fs.open" (Rights c) \/ In "open" (Actions c)) /\
        policy.enforcePathPrefix (PathPrefix (constraints c)) {["path" := AString p]}
        = None
    | CallReadDir p =>
        Method req = "fs.list" /\
        p = get_string (Params req) "path" /\ p <> "" /\
        (In "fs.list" (Rights c) \/ In "list" (Actions c)) /\
        policy.enforcePathPrefix (PathPrefix (constraints c)) {["path" := AString p]}
        = None
    | CallReadAt f _ _ =>
        Method req = "fs.read" /\
        (In "fs.read" (Rights c) \/ In "read" (Actions c)) /\
        exists entry,
          Get (get_string (Params req) "handle") (table s) = Some entry /\
          file entry = f /\ capID entry = ID c
    | CallClose _ => False
    end.
Proof.
  cbv zeta. unfold serve.
  destruct (Z.eqb_spec (V req) 1) as [HV|_]; cbn [negb]; [|now left].
  destruct (String.eqb_spec (Method req) "fs.open") as [Hm|_].
  { unfold fs_open.
    destruct (extractClaims pubKey req (clock s)) as [claims [errResp|]] eqn:Hx;
      [now left|].
    destruct (String.eqb_spec (get_string (Params req) "path") "") as [|Hpath];
      [now left|].
    destruct (policy.Authorize _ claims _ _ _) as [[err|] bs] eqn:Hauth; [now left|].
    destruct claims as [c|]; [|now left].
    change (table (set_buckets bs s)) with (table s).
    destruct (IsRevoked (ID c) (table s)) eqn:Hrev; [now left|].
    destruct (extractClaims_Some_facts _ _ _ Hx) as (a & Ha & Hv & Hexp).
    destruct (Authorize_fs (clock s) c "open" _ (buckets s) eq_refl
                (f_equal fst Hauth)) as (Hsvc & Hperm & Hprefix).
    destruct (Open _ (ID c) _) as [r s1] eqn:Ho.
    destruct (fs_facts.Open_inv _ _ _ _ _ Ho) as (Hcalls & _).
    right. exists (CallOpen (get_string (Params req) "path")), a, c.
    split; [destruct r as [err|h]; [destruct (os_IsNotExist err)|]; exact Hcalls|].
    now repeat split. }
  destruct (String.eqb_spec (Method req) "fs.read") as [Hm|_].
  { unfold fs_read.
    destruct (extractClaims pubKey req (clock s)) as [claims [errResp|]] eqn:Hx;
      [now left|].
    destruct (policy.Authorize _ claims _ _ _) as [[err|] bs] eqn:Hauth; [now left|].
    change (table (set_buckets bs s)) with (table s).
    destruct (String.eqb (get_string (Params req) "handle") ""); [now left|].
    destruct (Get _ (table s)) as [entry|] eqn:Hget; [|now left].
    destruct claims as [c|]; [|now left].
    destruct (String.eqb_spec (capID entry) (ID c)) as [Hbound|_]; cbn [negb];
      [|now left].
    destruct (IsRevoked (capID entry) (table s)) eqn:Hrev; [now left|].
    destruct (extractClaims_Some_facts _ _ _ Hx) as (a & Ha & Hv & Hexp).
    destruct (Authorize_fs (clock s) c "read" _ (buckets s) eq_refl
                (f_equal fst Hauth)) as (Hsvc & Hperm & _).
    right. eexists (CallReadAt (file entry) _ _), a, c.
    split; [destruct (file_ReadAt _ _ _); reflexivity|].
    rewrite <- Hbound. repeat split; try assumption. now exists entry. }
  destruct (String.eqb_spec (Method req) "fs.list") as [Hm|_].
  { unfold fs_list.
    destruct (extractClaims pubKey req (clock s)) as [claims [errResp|]] eqn:Hx;
      [now left|].
    destruct (String.eqb_spec (get_string (Params req) "path") "") as [|Hpath];
      [now left|].
    destruct (policy.Authorize _ claims _ _ _) as [[err|] bs] eqn:Hauth; [now left|].
    destruct claims as [c|]; [|now left].
    change (table (set_buckets bs s)) with (table s).
    destruct (IsRevoked (ID c) (table s)) eqn:Hrev; [now left|].
    destruct (extractClaims_Some_facts _ _ _ Hx) as (a & Ha & Hv & Hexp).
    destruct (Authorize_fs (clock s) c "list" _ (buckets s) eq_refl
                (f_equal fst Hauth)) as (Hsvc & Hperm & Hprefix).
    right. exists (CallReadDir (get_string (Params req) "path")), a, c.
    split; [destruct (os_ReadDir _) as [err|es]; [destruct (os_IsNotExist err)|];
            reflexivity|].
    now repeat split. }
  destruct (String.eqb (Method req) "fs.revoke"); [|now left].
  unfold fs_revoke. destruct (String.eqb _ ""); now left.
Qed.

(** X17 (revocation over the socket).  The handler of [fs.revoke] looks
    at no token: every request of protocol version 1 that names a
    capability id is accepted, whoever sends it, and adds this id, and
    nothing else, to the revoked set; the handles, the counter, the
    buckets and the clock stay as they are, and no operation is
    performed on the operating system.  Without a capability id the
    request is refused as invalid and changes nothing. *)
Theorem fs_revoke_unauthenticated (req : Request) (s : State) :
  V req = 1 ->
  Method req = "fs.revoke" ->
  let C := get_string (Params req) "cap_id" in
  let (resp, s') := serve pubKey req s in
  (C = "" -> resp = ErrorResponse (ReqID req) 1 "missing cap_id param" /\ s' = s)
  /\ (C <> "" ->
      resp = SuccessResponse (ReqID req) (ResultStatus "revoked") /\
      (forall id, IsRevoked id (table s') = IsRevoked id (table s) || String.eqb id C) /\
      handles (table s') = handles (table s) /\
      nextID (table s') = nextID (table s) /\
      buckets s' = buckets s /\ clock s' = clock s /\ oscalls s' = oscalls s).
Proof.
  intros HV Hm C. unfold serve. rewrite HV, Hm. cbn [Z.eqb Pos.eqb negb].
  change (String.eqb "fs.revoke" "fs.open") with false.
  change (String.eqb "fs.revoke" "fs.read") with false.
  change (String.eqb "fs.revoke" "fs.list") with false.
  change (String.eqb "fs.revoke" "fs.revoke") with true. cbv iota.
  unfold fs_revoke. fold C.
  destruct (String.eqb_spec C "") as [HC|HC].
  - split; [now split | contradiction].
  - split; [contradiction|]. intros _. cbn. repeat split.
    intros id. unfold IsRevoked.
    change (revoked (Revoke C (table s))) with ({[C]} ∪ revoked (table s)).
    destruct (String.eqb_spec id C) as [->|Hne].
    + rewrite orb_true_r. apply bool_decide_eq_true.
      apply elem_of_union_l. now apply elem_of_singleton.
    + rewrite orb_false_r. apply bool_decide_ext.
      rewrite elem_of_union, elem_of_singleton. tauto.
Qed.

(** X18 (shutdown).  [CloseAll] closes the file of every entry of the
    handle table, once, and empties the table; the revoked set and the
    counter are kept, so that handle ids are not reused.  Every
    [fs.read] served right afterwards is refused, and reads no file. *)
Theorem CloseAll_closes (s : State) :
  let s' := CloseAll s in
  handles (table s') = ∅ /\
  revoked (table s') = revoked (table s) /\
  nextID (table s') = nextID (table s) /\
  (exists closed,
      oscalls s' = closed ++ oscalls s /\
      length closed = base.size (handles (table s)) /\
      forall f, In (CallClose f) closed <->
                exists h entry, handles (table s) !! h = Some entry /\ file entry = f)
  /\ forall req, OK (fst (fs_read pubKey req s')) = false /\
                 oscalls (snd (fs_read pubKey req s')) = oscalls s'.
Proof.
  cbv zeta. split; [reflexivity|]. split; [reflexivity|]. split; [reflexivity|].
  split.
  - exists (rev (map (fun kv => CallClose (file (snd kv)))
                     (map_to_list (handles (table s))))).
    split; [reflexivity|]. split.
    + rewrite length_rev, length_map. apply length_map_to_list.
    + intros f. rewrite <- in_rev, in_map_iff. split.
      * intros ([h entry] & Heq & Hin). inversion Heq; subst.
        exists h, entry. split; [|reflexivity].
        apply elem_of_map_to_list. now apply list_elem_of_In.
      * intros (h & entry & Hl & <-). exists (h, entry). split; [reflexivity|].
        apply list_elem_of_In. now apply elem_of_map_to_list.
  - intros req. unfold fs_read.
    destruct (extractClaims pubKey req (clock (CloseAll s))) as [claims [errResp|]]
      eqn:Hx.
    { cbn [fst snd]. split; [|reflexivity].
      now destruct (fs_facts.extractClaims_error _ _ _ _ _ Hx) as (_ & Hok & _). }
    destruct (policy.Authorize _ claims _ _ _) as [[err|] bs]; [now split|].
    destruct (String.eqb _ ""); [now split|].
    unfold Get. cbn [table set_buckets CloseAll handles].
    rewrite lookup_empty. now split.
Qed.

(** X19 (what [fs.open] does when every check passes).  Under verified
    claims that [Authorize] accepts for the path and that are not
    revoked, [fs.open] opens the path of the request, once.  When the
    operating system refuses, the answer is [file not found], code 4,
    for a file that does not exist, and the error of the operating
    system, code 5, otherwise, and the handle table stays as it is.
    When the file is opened, the counter is incremented, the answer is
    the handle named after the counter, and the table binds this handle
    to the file, the id of the capability, the absolute path and the
    time of the request. *)
Theorem fs_open_serves (req : Request) (s : State) (c : Capability) :
  extractClaims pubKey req (clock s) = (Some c, None) ->
  let path := get_string (Params req) "path" in
  let decision :=
    policy.Authorize (clock s) (Some c) "fs.open" {["path" := AString path]} (buckets s) in
  path <> "" ->
  fst decision = None ->
  IsRevoked (ID c) (table s) = false ->
  let (resp, s') := fs_open pubKey req s in
  oscalls s' = CallOpen path :: oscalls s /\
  buckets s' = snd decision /\ clock s' = clock s /\
  revoked (table s') = revoked (table s) /\
  match os_Open path with
  | inl err =>
      resp = (if os_IsNotExist err
              then ErrorResponse (ReqID req) 4 "file not found"
              else ErrorResponse (ReqID req) 5 (os_error_text err)) /\
      table s' = table s
  | inr f =>
      let n := nextID_Add1 (nextID (table s)) in
      resp = SuccessResponse (ReqID req) (ResultHandle (handle_name n)) /\
      nextID (table s') = n /\
      handles (table s') =
      <[handle_name n :=
          {| file := f; capID := ID c;
             path := match filepath_Abs path with Ok p => p | Err _ => "" end;
             createdAt := clock s |}]> (handles (table s))
  end.
Proof.
  intros Hx path decision Hpath Hauth Hrev. unfold fs_open. rewrite Hx. fold path.
  apply String.eqb_neq in Hpath. rewrite Hpath. fold decision.
  destruct decision as [d bs]. cbn [fst snd] in *. subst d.
  change (table (set_buckets bs s)) with (table s). rewrite Hrev.
  unfold Open. destruct (os_Open path) as [err|f].
  - destruct (os_IsNotExist err); now repeat split.
  - now repeat split.
Qed.


(** X29 (what [fs.list] does when every check passes).  Under verified
    claims that [Authorize] accepts for the path and that are not
    revoked, [fs.list] reads the directory at the path of the request,
    once, and changes nothing but the bucket of the capability.  When
    the operating system refuses, the answer is [directory not found],
    code 4, for a directory that does not exist, and the error of the
    operating system, code 5, otherwise.  Otherwise the answer lists
    the entries in the order of [os.ReadDir], each with its name and
    whether it is a directory, and with its size when, and only when,
    its file information can be read. *)
Theorem fs_list_serves (req : Request) (s : State) (c : Capability) :
  extractClaims pubKey req (clock s) = (Some c, None) ->
  let path := get_string (Params req) "path" in
  let decision :=
    policy.Authorize (clock s) (Some c) "fs.list" {["path" := AString path]} (buckets s) in
  path <> "" ->
  fst decision = None ->
  IsRevoked (ID c) (table s) = false ->
  let (resp, s') := fs_list pubKey req s in
  oscalls s' = CallReadDir path :: oscalls s /\
  buckets s' = snd decision /\ clock s' = clock s /\ table s' = table s /\
  match os_ReadDir path with
  | inl err =>
      resp = (if os_IsNotExist err
              then ErrorResponse (ReqID req) 4 "directory not found"
              else ErrorResponse (ReqID req) 5 (os_error_text err))
  | inr entries =>
      exists items,
        resp = SuccessResponse (ReqID req) (ResultEntries items) /\
        length items = length entries /\
        forall i e, entries !! i = Some e ->
                    exists item, items !! i = Some item /\
                                 name item = entry_Name e /\
                                 is_dir item = entry_IsDir e /\
                                 size item = entry_Info e
  end.
Proof.
  intros Hx path decision Hpath Hauth Hrev. unfold fs_list. rewrite Hx. fold path.
  apply String.eqb_neq in Hpath. rewrite Hpath. fold decision.
  destruct decision as [d bs]. cbn [fst snd] in *. subst d.
  change (table (set_buckets bs s)) with (table s). rewrite Hrev.
  destruct (os_ReadDir path) as [err|entries].
  - destruct (os_IsNotExist err); now repeat split.
  - repeat split. exists (map item_of entries).
    split; [reflexivity|]. split; [apply length_map|].
    intros i e He. exists (item_of e). split; [|now repeat split].
    change (map item_of entries) with (item_of <$> entries).
    now rewrite list_lookup_fmap, He.
Qed.

End Service.

(** A read without a token, and an open without a token, in the
    service of the examples. *)
Lemma no_token_refused_witness :
  let req := {| V := 1; ReqID := "r"; Method := "fs.read"; auth := None;
                Params := {["path" := AString "/tmp/x"]} |} in
  let required := ErrorResponse (ReqID req) 2 "token required" in
  let missing := ErrorResponse (ReqID req) 1 "missing path param" in
  let with_path := negb (String.eqb (get_string (Params req) "path") "") in
  @fs_read examples.lib ref.macLib ref.jsonLib ref.osLib examples.node_key
    req examples.start = (required, examples.start) /\
  @fs_open examples.lib ref.macLib ref.jsonLib ref.osLib examples.node_key
    req examples.start = (if with_path then required else missing, examples.start) /\
  @fs_list examples.lib ref.macLib ref.jsonLib ref.osLib examples.node_key
    req examples.start = (if with_path then required else missing, examples.start).
Proof.
  apply (@no_token_refused examples.lib ref.macLib ref.jsonLib ref.osLib
           examples.node_key
           {| V := 1; ReqID := "r"; Method := "fs.read"; auth := None;
              Params := {["path" := AString "/tmp/x"]} |}
           examples.start).
  left. reflexivity.
Defined.

(** The signed token of [examples.cap_tmp], one nanosecond after its
    expiry. *)
Lemma expired_token_refused_witness :
  let req := examples.open_req examples.signed_token "/tmp/x" in
  let s := @advance ref.osLib 3600000000001 examples.start in
  let expired := ErrorResponse (ReqID req) 2 "token expired" in
  @fs_open examples.lib ref.macLib ref.jsonLib ref.osLib examples.node_key req s
  = (expired, s) /\
  @fs_read examples.lib ref.macLib ref.jsonLib ref.osLib examples.node_key req s
  = (expired, s) /\
  @fs_list examples.lib ref.macLib ref.jsonLib ref.osLib examples.node_key req s
  = (expired, s).
Proof.
  apply (proj1 (@expired_token_refused examples.lib ref.macLib ref.jsonLib ref.osLib
                  examples.node_key
                  (examples.open_req examples.signed_token "/tmp/x")
                  {| Token := examples.signed_token |}
                  examples.cap_tmp
                  (@advance ref.osLib 3600000000001 examples.start)
                  eq_refl
                  ltac:(discriminate)
                  ltac:(vm_compute; reflexivity))).
  reflexivity.
Defined.

(** A revocation sent with a text that is no token. *)
Lemma fs_revoke_unauthenticated_witness :
  let req := examples.request "fs.revoke" "no-token" {["cap_id" := AString "c1"]} in
  let C := get_string (Params req) "cap_id" in
  let (resp, s') := examples.serve req examples.start in
  (C = "" -> resp = ErrorResponse (ReqID req) 1 "missing cap_id param" /\
             s' = examples.start)
  /\ (C <> "" ->
      resp = SuccessResponse (ReqID req) (ResultStatus "revoked") /\
      (forall id, IsRevoked id (table s') =
                  IsRevoked id (table examples.start) || String.eqb id C) /\
      handles (table s') = handles (table examples.start) /\
      nextID (table s') = nextID (table examples.start) /\
      buckets s' = buckets examples.start /\ clock s' = clock examples.start /\
      oscalls s' = oscalls examples.start).
Proof.
  apply (@fs_revoke_unauthenticated examples.lib ref.macLib ref.jsonLib ref.osLib
           examples.node_key
           (examples.request "fs.revoke" "no-token" {["cap_id" := AString "c1"]})
           examples.start eq_refl eq_refl).
Defined.

(** The file [/tmp/x] opened under [examples.cap_tmp]. *)
Lemma fs_open_serves_witness :
  let req := examples.open_req (examples.token_of examples.cap_tmp) "/tmp/x" in
  let s := examples.start in
  let path := get_string (Params req) "path" in
  let decision :=
    @policy.Authorize examples.lib (clock s) (Some examples.cap_tmp) "fs.open"
      {["path" := AString path]} (buckets s) in
  let (resp, s') :=
    @fs_open examples.lib ref.macLib ref.jsonLib ref.osLib examples.node_key req s in
  oscalls s' = CallOpen path :: oscalls s /\
  buckets s' = snd decision /\ clock s' = clock s /\
  revoked (table s') = revoked (table s) /\
  match @os_Open ref.osLib path with
  | inl err =>
      resp = (if os_IsNotExist err
              then ErrorResponse (ReqID req) 4 "file not found"
              else ErrorResponse (ReqID req) 5 (os_error_text err)) /\
      table s' = table s
  | inr f =>
      let n := nextID_Add1 (nextID (table s)) in
      resp = SuccessResponse (ReqID req) (ResultHandle (handle_name n)) /\
      nextID (table s') = n /\
      handles (table s') =
      <[handle_name n :=
          {| file := f; capID := ID examples.cap_tmp;
             path := match @filepath_Abs examples.lib path with
                     | Ok p => p
                     | Err _ => ""
                     end;
             createdAt := clock s |}]> (handles (table s))
  end.
Proof.
  apply (@fs_open_serves examples.lib ref.macLib ref.jsonLib ref.osLib
           examples.node_key
           (examples.open_req (examples.token_of examples.cap_tmp) "/tmp/x")
           examples.start examples.cap_tmp
           ltac:(vm_compute; reflexivity)
           ltac:(vm_compute; discriminate)
           ltac:(vm_compute; reflexivity)
           ltac:(vm_compute; reflexivity)).
Defined.


(** The directory [/tmp] listed under [examples.cap_tmp]. *)
Lemma fs_list_serves_witness :
  let req := examples.list_req (examples.token_of examples.cap_tmp) "/tmp" in
  let s := examples.start in
  let path := get_string (Params req) "path" in
  let decision :=
    @policy.Authorize examples.lib (clock s) (Some examples.cap_tmp) "fs.list"
      {["path" := AString path]} (buckets s) in
  let (resp, s') :=
    @fs_list examples.lib ref.macLib ref.jsonLib ref.osLib examples.node_key req s in
  oscalls s' = CallReadDir path :: oscalls s /\
  buckets s' = snd decision /\ clock s' = clock s /\ table s' = table s /\
  match @os_ReadDir ref.osLib path with
  | inl err =>
      resp = (if os_IsNotExist err
              then ErrorResponse (ReqID req) 4 "directory not found"
              else ErrorResponse (ReqID req) 5 (os_error_text err))
  | inr entries =>
      exists items,
        resp = SuccessResponse (ReqID req) (ResultEntries items) /\
        length items = length entries /\
        forall i e, entries !! i = Some e ->
                    exists item, items !! i = Some item /\
                                 name item = entry_Name e /\
                                 is_dir item = entry_IsDir e /\
                                 size item = entry_Info e
  end.
Proof.
  apply (@fs_list_serves examples.lib ref.macLib ref.jsonLib ref.osLib
           examples.node_key
           (examples.list_req (examples.token_of examples.cap_tmp) "/tmp")
           examples.start examples.cap_tmp
           ltac:(vm_compute; reflexivity)
           ltac:(vm_compute; discriminate)
           ltac:(vm_compute; reflexivity)
           ltac:(vm_compute; reflexivity)).
Defined.

End service_facts.

(** ** More on tokens *)

Module token_facts.
Import capability auth.

Lemma byte_of_eq (x y : Z) :
  base64.byte_of x = base64.byte_of y -> x mod 256 = y mod 256.
Proof.
  intros Heq. apply (f_equal base64.val_of) in Heq.
  now rewrite !frame_facts.val_of_byte_of in Heq.
Qed.

Lemma byte_step (x y : Z) :
  x mod 256 = y mod 256 -> x / 256 = y / 256 -> x = y.
Proof.
  intros Hm Hd. rewrite (Z.div_mod x 256), (Z.div_mod y 256) by lia.
  now rewrite Hm, Hd.
Qed.

Lemma shiftr_step (n k k' : Z) :
  0 <= k -> k' = k + 8 -> Z.shiftr n k' = Z.shiftr n k / 256.
Proof.
  intros Hk ->. rewrite !Z.shiftr_div_pow2 by lia.
  rewrite Z.pow_add_r by lia. change (2 ^ 8) with 256.
  rewrite Z.div_div by lia. reflexivity.
Qed.

(** The eight bytes of a length determine it. *)
Lemma le64_inj (a b : Z) :
  0 <= a < 2 ^ 64 -> 0 <= b < 2 ^ 64 -> le64 a = le64 b -> a = b.
Proof.
  intros Ha Hb Heq. unfold le64 in Heq. cbn [map seq] in Heq.
  inversion Heq as [[H0 H1 H2 H3 H4 H5 H6 H7]]. clear Heq.
  apply byte_of_eq in H0, H1, H2, H3, H4, H5, H6, H7.
  change (8 * Z.of_nat 0) with 0 in H0.
  change (8 * Z.of_nat 1) with 8 in H1.
  change (8 * Z.of_nat 2) with 16 in H2.
  change (8 * Z.of_nat 3) with 24 in H3.
  change (8 * Z.of_nat 4) with 32 in H4.
  change (8 * Z.of_nat 5) with 40 in H5.
  change (8 * Z.of_nat 6) with 48 in H6.
  change (8 * Z.of_nat 7) with 56 in H7.
  assert (H8 : Z.shiftr a 64 = Z.shiftr b 64).
  { rewrite !Z.shiftr_div_pow2 by lia. rewrite !Z.div_small by lia. reflexivity. }
  rewrite (shiftr_step a 56 64), (shiftr_step b 56 64) in H8 by lia.
  apply (byte_step _ _ H7) in H8.
  rewrite (shiftr_step a 48 56), (shiftr_step b 48 56) in H8 by lia.
  apply (byte_step _ _ H6) in H8.
  rewrite (shiftr_step a 40 48), (shiftr_step b 40 48) in H8 by lia.
  apply (byte_step _ _ H5) in H8.
  rewrite (shiftr_step a 32 40), (shiftr_step b 32 40) in H8 by lia.
  apply (byte_step _ _ H4) in H8.
  rewrite (shiftr_step a 24 32), (shiftr_step b 24 32) in H8 by lia.
  apply (byte_step _ _ H3) in H8.
  rewrite (shiftr_step a 16 24), (shiftr_step b 16 24) in H8 by lia.
  apply (byte_step _ _ H2) in H8.
  rewrite (shiftr_step a 8 16), (shiftr_step b 8 16) in H8 by lia.
  apply (byte_step _ _ H1) in H8.
  rewrite (shiftr_step a 0 8), (shiftr_step b 0 8) in H8 by lia.
  apply (byte_step _ _ H0) in H8.
  now rewrite !Z.shiftr_0_r in H8.
Qed.

Lemma pae_pieces_inj (l : list (list ascii)) :
  forall l',
    Forall (fun p => Z.of_nat (length p) < 2 ^ 64) l ->
    Forall (fun p => Z.of_nat (length p) < 2 ^ 64) l' ->
    pae_pieces l = pae_pieces l' -> l = l'.
Proof.
  induction l as [|p l IH]; intros [|p' l'] Hl Hl' Heq.
  - reflexivity.
  - apply (f_equal (@length ascii)) in Heq. cbn [pae_pieces] in Heq.
    rewrite length_app, auth_facts.le64_length in Heq. cbn [length] in Heq. lia.
  - apply (f_equal (@length ascii)) in Heq. cbn [pae_pieces] in Heq.
    rewrite length_app, auth_facts.le64_length in Heq. cbn [length] in Heq. lia.
  - cbn [pae_pieces] in Heq.
    apply Forall_cons in Hl as [Hp Hl]. apply Forall_cons in Hl' as [Hp' Hl'].
    apply app_inj_1 in Heq as [Hlen Heq]; [|now rewrite !auth_facts.le64_length].
    apply le64_inj in Hlen; [|lia|lia].
    apply app_inj_1 in Heq as [-> Heq]; [|lia].
    f_equal. now apply IH.
Qed.

(** X21 (the pre-authentication encoding is injective).  Two lists of
    pieces with the same encoding are the same list, piece by piece:
    no byte can move from one piece to its neighbour, or from the
    message to the footer, without changing the bytes that are signed.
    The lengths are below [2^64], as the encoding stores them in eight
    bytes. *)
Theorem pae_injective (l l' : list (list ascii)) :
  Forall (fun p => Z.of_nat (length p) < 2 ^ 64) l ->
  Forall (fun p => Z.of_nat (length p) < 2 ^ 64) l' ->
  pae l = pae l' -> l = l'.
Proof.
  intros Hl Hl' Heq. unfold pae in Heq.
  apply app_inj_1 in Heq as [_ Heq]; [|now rewrite !auth_facts.le64_length].
  now apply pae_pieces_inj.
Qed.

Section Tokens.
Context `{Ed25519Lib} `{JsonLib}.

(** X22 (what an accepted token is).  A token that [Verify] accepts
    carries the header [v2.public.], and the text after the header
    decodes to a message followed by 64 bytes that are a valid
    signature, under the key, of the pre-authentication encoding of
    the header, the message and the empty footer; the claims returned
    are the message, as the JSON codec reads it. *)
Theorem Verify_sound (token : string) (pk : PublicKey) (c : Capability) :
  Verify token pk = Ok c ->
  exists (rest : string) (message sig : list ascii),
    token = v2PublicHeader +:+ rest /\
    base64.DecodeString rest = Ok (message ++ sig) /\
    length sig = ed25519_SignatureSize /\
    ed25519_Verify pk (pae [list_ascii_of_string v2PublicHeader; message; []]) sig
    = true /\
    json_Unmarshal message = Ok c.
Proof.
  intros Hok.
  destruct (auth_facts.Verify_Ok_header token pk c Hok) as [rest ->].
  rewrite auth_facts.Verify_header in Hok.
  destruct (base64.DecodeString rest) as [decoded|e] eqn:Hdec; [|discriminate].
  destruct (Nat.ltb_spec (length decoded) ed25519_SignatureSize) as [|Hlen];
    [discriminate|].
  cbv zeta in Hok.
  destruct (ed25519_Verify pk (pae [_; firstn _ decoded; _]) _) eqn:Hv;
    [|discriminate].
  cbn [negb] in Hok.
  destruct (json_Unmarshal _) as [c'|e] eqn:Hu; inversion Hok; subst c'.
  exists rest, (firstn (length decoded - ed25519_SignatureSize) decoded),
    (skipn (length decoded - ed25519_SignatureSize) decoded).
  split; [reflexivity|]. split; [now rewrite firstn_skipn|].
  split; [rewrite length_skipn; lia|]. now split.
Qed.

(** A token that [Sign] returns is accepted by [Verify], with the
    claims that were signed, when the codec carries the claims and the
    key pair produces and accepts signatures of 64 bytes. *)
Lemma Sign_Verify (c : Capability) (sk : PrivateKey) (pk : PublicKey)
    (message : list ascii) :
  json_Marshal c = Ok message ->
  json_Unmarshal message = Ok c ->
  length (ed25519_Sign sk (pae [list_ascii_of_string v2PublicHeader; message; []]))
  = ed25519_SignatureSize ->
  ed25519_Verify pk (pae [list_ascii_of_string v2PublicHeader; message; []])
    (ed25519_Sign sk (pae [list_ascii_of_string v2PublicHeader; message; []])) = true ->
  exists token, Sign c sk = Ok token /\ Verify token pk = Ok c.
Proof.
  intros Hm Hu Hlen Hvalid.
  set (sig := ed25519_Sign sk (pae [list_ascii_of_string v2PublicHeader; message; []]))
    in *.
  exists (v2PublicHeader +:+ base64.EncodeToString (message ++ sig)). split.
  - unfold Sign. rewrite Hm. cbv zeta. fold sig.
    now rewrite auth_facts.copy_sig_full.
  - rewrite auth_facts.Verify_header, base64_facts.DecodeString_EncodeToString.
    rewrite length_app, Hlen.
    destruct (Nat.ltb_spec (length message + ed25519_SignatureSize)
                           ed25519_SignatureSize) as [Hlt|_]; [lia|].
    replace (length message + ed25519_SignatureSize - ed25519_SignatureSize)%nat
      with (length message) by lia.
    cbv zeta. rewrite take_app_length, drop_app_length.
    fold sig. rewrite Hvalid. cbn [negb]. now rewrite Hu.
Qed.

End Tokens.

(** The signed material of a token, against the same header and footer
    with a message of one more byte. *)
Lemma pae_injective_witness :
  let pieces := [list_ascii_of_string v2PublicHeader; examples.cap_tmp_message; []] in
  pieces = pieces.
Proof.
  apply (pae_injective
           [list_ascii_of_string v2PublicHeader; examples.cap_tmp_message; []]
           [list_ascii_of_string v2PublicHeader; examples.cap_tmp_message; []]).
  - repeat constructor; vm_compute; reflexivity.
  - repeat constructor; vm_compute; reflexivity.
  - reflexivity.
Defined.

(** The signed token of [examples.cap_tmp]. *)
Lemma Verify_sound_witness :
  exists (rest : string) (message sig : list ascii),
    examples.signed_token = v2PublicHeader +:+ rest /\
    base64.DecodeString rest = Ok (message ++ sig) /\
    length sig = ed25519_SignatureSize /\
    @ed25519_Verify examples.signer examples.node_key
      (pae [list_ascii_of_string v2PublicHeader; message; []]) sig = true /\
    @json_Unmarshal ref.jsonLib message = Ok examples.cap_tmp.
Proof.
  apply (@Verify_sound examples.signer ref.jsonLib examples.signed_token
           examples.node_key examples.cap_tmp).
  vm_compute. reflexivity.
Defined.

End token_facts.

(** ** The revocation list *)

Module revocation_facts.
Import revocation.

Lemma IsRevoked_fold (ids : list string) (id : string) :
  forall rl : RevocationList,
    IsRevoked id (fold_left (fun rl i => Revoke i rl) ids rl) = true <->
    In id ids \/ id ∈ rl.
Proof.
  unfold IsRevoked. induction ids as [|i ids IH]; intros rl; cbn [fold_left In].
  - rewrite bool_decide_eq_true. tauto.
  - rewrite IH. unfold Revoke. rewrite elem_of_union, elem_of_singleton.
    split; [intros [?|[?|?]] | intros [[?|?]|?]]; auto.
Qed.

(** X23 (the revocation list).  After any sequence of calls of
    [Revoke] on a new list, [IsRevoked] holds for the ids that were
    revoked, and for no other: the list starts empty, and an id, once
    revoked, stays revoked whatever is revoked after it. *)
Theorem revoked_iff (ids : list string) (id : string) :
  IsRevoked id (fold_left (fun rl i => Revoke i rl) ids NewRevocationList) = true
  <-> In id ids.
Proof.
  rewrite IsRevoked_fold. unfold NewRevocationList.
  split; [intros [?|Hin]; [assumption | now apply not_elem_of_empty in Hin] | auto].
Qed.

End revocation_facts.

(** ** The identity service *)

Module identity_facts.
Import capability.

Lemma hex_length (bs : list ascii) :
  String.length (hex.EncodeToString bs) = (2 * length bs)%nat.
Proof.
  induction bs as [|b bs IH]; [reflexivity|].
  cbn [hex.EncodeToString String.length length]. rewrite IH. lia.
Qed.

Lemma wrap_small (z : Z) : - 2 ^ 63 <= z < 2 ^ 63 -> int64.wrap z = z.
Proof.
  intros Hz. unfold int64.wrap. rewrite Z.mod_small; lia.
Qed.

Section Service.
Context `{PolicyLib} `{Ed25519Lib} `{JsonLib} `{OsLib} `{WireLib} `{ConvLib}.
Variable privKey : PrivateKey.
Variable pubKey : PublicKey.
Variable fsSock : string.

(** X24 (requests that [identity.issue] refuses).  A request that names
    no service, or whose [actions] and [rights] hold no string (they
    are missing, are no arrays, or hold other values only), is refused
    as invalid, code 1, and the answer holds no token. *)
Theorem issue_refuses (req : identity.Request) (now : time.Time) (rnd : list ascii) :
  identity.get_string (identity.Params req) "service" = "" \/
  (identity.get_strings (identity.Params req) "actions" = [] /\
   identity.get_strings (identity.Params req) "rights" = []) ->
  identity.issue privKey req now rnd =
  identity.ErrorResponse (identity.ReqID req) 1
    (if String.eqb (identity.get_string (identity.Params req) "service") ""
     then "missing service param" else "actions or rights required").
Proof.
  intros Hbad. unfold identity.issue.
  destruct (String.eqb_spec (identity.get_string (identity.Params req) "service") "")
    as [_|Hsvc]; [reflexivity|].
  destruct Hbad as [?|[-> ->]]; [contradiction | reflexivity].
Qed.

(** X25 (an issued token verifies).  For a request that names a service
    and at least one action or right, when the JSON codec carries the
    claims and the key pair produces and accepts a signature of 64
    bytes for them: [identity.issue] answers with a token, the id of
    the capability and its expiry in seconds; the token verifies under
    the public key and yields the claims of the request: its service,
    the strings of its [actions] and [rights], its path prefix and rate
    limit, issued at the time of the request; and the FS service
    accepts the token up to and at its expiry time. *)
Theorem issued_token_verifies (req : identity.Request) (now : time.Time)
    (rnd message : list ascii) :
  identity.get_string (identity.Params req) "service" <> "" ->
  identity.get_strings (identity.Params req) "actions" <> [] \/
  identity.get_strings (identity.Params req) "rights" <> [] ->
  let cap := identity.claims_of req now rnd in
  let m2 := auth.pae [list_ascii_of_string auth.v2PublicHeader; message; []] in
  json_Marshal cap = Ok message ->
  json_Unmarshal message = Ok cap ->
  length (ed25519_Sign privKey m2) = ed25519_SignatureSize ->
  ed25519_Verify pubKey m2 (ed25519_Sign privKey m2) = true ->
  exists token,
    identity.issue privKey req now rnd =
    identity.SuccessResponse (identity.ReqID req)
      (identity.ResultIssued token (ID cap) (issuing.Unix (ExpiresAt cap))) /\
    auth.Verify token pubKey = Ok cap /\
    (Service cap = identity.get_string (identity.Params req) "service" /\
     Actions cap = identity.get_strings (identity.Params req) "actions" /\
     Rights cap = identity.get_strings (identity.Params req) "rights" /\
     PathPrefix (constraints cap) = identity.get_string (identity.Params req) "path_prefix" /\
     RateLimit (constraints cap) = identity.get_string (identity.Params req) "rate_limit" /\
     IssuedAt cap = now) /\
    forall (fsreq : ipc.Request) (t : time.Time),
      ipc.auth fsreq = Some {| ipc.Token := token |} ->
      t <= ExpiresAt cap ->
      fs.extractClaims pubKey fsreq t = (Some cap, None).
Proof.
  intros Hsvc Hperm cap m2 Hm Hu Hlen Hvalid.
  destruct (token_facts.Sign_Verify cap privKey pubKey message Hm Hu Hlen Hvalid)
    as (token & Hsign & Hverify).
  exists token. split; [|split; [exact Hverify|split; [now repeat split|]]].
  - unfold identity.issue. apply String.eqb_neq in Hsvc. rewrite Hsvc.
    assert (Hany : Nat.eqb (length (identity.get_strings (identity.Params req) "actions")) 0
                   && Nat.eqb (length (identity.get_strings (identity.Params req) "rights")) 0
                   = false).
    { destruct Hperm as [Hp|Hp].
      - destruct (identity.get_strings _ "actions"); [contradiction | reflexivity].
      - destruct (identity.get_strings _ "rights"); [contradiction|].
        apply andb_false_r. }
    rewrite Hany. fold cap. now rewrite Hsign.
  - intros fsreq t Hauth Ht. unfold fs.extractClaims. rewrite Hauth. cbn [ipc.Token].
    destruct (auth_facts.Verify_Ok_header token pubKey cap Hverify) as [rest ->].
    cbn [String.eqb auth.v2PublicHeader String.append Ascii.eqb Bool.eqb].
    change (String "v" (String "2" (String "."
              (String "p" (String "u" (String "b" (String "l" (String "i"
                 (String "c" (String "." rest))))))))))
      with (auth.v2PublicHeader +:+ rest).
    rewrite Hverify. unfold IsExpired, time.After.
    destruct (Z.ltb_spec (ExpiresAt cap) t); [lia | reflexivity].
Qed.

(** X26 (the expiry of an issued capability).  The claims expire
    [ttl_seconds] after the time of the request, the fraction of
    [ttl_seconds] being discarded; when [ttl_seconds] is missing, no
    number, zero or negative they expire after 3600 seconds; and the
    id of the capability has 32 characters, two for each of the 16
    bytes that were drawn. *)
Theorem issued_expiry (req : identity.Request) (now : time.Time) (rnd : list ascii) :
  let ttl := identity.get_float64 (identity.Params req) "ttl_seconds" in
  let cap := identity.claims_of req now rnd in
  (f64.le ttl (Fin 0) = true -> ExpiresAt cap = now + 3600 * time.Second)
  /\ (forall q : Q,
        ttl = Fin q -> (0 < q)%Q ->
        let seconds := Z.quot (Qnum q) (Z.pos (Qden q)) in
        seconds * time.Second < 2 ^ 63 ->
        ExpiresAt cap = now + seconds * time.Second)
  /\ String.length (ID cap) = 32%nat.
Proof.
  cbv zeta. unfold identity.claims_of, issuing.NewCapability, time.Add.
  cbn [ExpiresAt ID]. split; [|split].
  - intros ->. reflexivity.
  - intros q -> Hq Hbound.
    assert (Hle : f64.le (Fin q) (Fin 0) = false).
    { cbn. apply not_true_is_false. rewrite Qle_bool_iff. lra. }
    rewrite Hle. unfold int64.of_float64, int64.mul, int64.in_range.
    assert (Hpos : 0 <= Z.quot (Qnum q) (Z.pos (Qden q))).
    { apply Z.quot_pos; [|lia]. unfold Qlt in Hq. cbn in Hq. lia. }
    unfold time.Second in *.
    destruct (Z.leb_spec (- 2 ^ 63) (Z.quot (Qnum q) (Z.pos (Qden q)))); [|lia].
    destruct (Z.ltb_spec (Z.quot (Qnum q) (Z.pos (Qden q))) (2 ^ 63)); [|lia].
    cbn [andb]. rewrite wrap_small by lia. reflexivity.
  - rewrite hex_length, length_take, length_app, repeat_length. lia.
Qed.

(** The notification, as the FS service serves it. *)
Lemma notification_served (capID : string) (s : fs.State) :
  capID <> "" ->
  server.dispatch (fs_main.handlers pubKey) (identity.notification capID) s =
  (ipc.SuccessResponse ("revoke-" +:+ capID) (ipc.ResultStatus "revoked"),
   fs.set_table (fs.Revoke capID (fs.table s)) s).
Proof.
  intros Hne. rewrite <- service_facts.serve_dispatch.
  unfold fs.serve, fs.fs_revoke, identity.notification. cbn [ipc.V ipc.Method ipc.Params].
  cbn [Z.eqb Pos.eqb negb].
  change (String.eqb "fs.revoke" "fs.open") with false.
  change (String.eqb "fs.revoke" "fs.read") with false.
  change (String.eqb "fs.revoke" "fs.list") with false.
  change (String.eqb "fs.revoke" "fs.revoke") with true. cbv iota.
  unfold get_string. rewrite lookup_singleton_eq.
  apply String.eqb_neq in Hne. now rewrite Hne.
Qed.

(** A request under a revoked capability is refused by the three
    handlers that take a token. *)
Lemma revoked_refused (C : string) (s : fs.State) (req : ipc.Request) (c : Capability) :
  C ∈ fs.revoked (fs.table s) ->
  fst (fs.extractClaims pubKey req (fs.clock s)) = Some c ->
  ID c = C ->
  Forall (fun handler : ipc.Request -> fs.State -> ipc.Response * fs.State =>
            ipc.OK (fst (handler req s)) = false /\
            fs.oscalls (snd (handler req s)) = fs.oscalls s)
         [fs.fs_open pubKey; fs.fs_read pubKey; fs.fs_list pubKey].
Proof.
  intros Hin Hclaims HC.
  assert (Hrev : fs.IsRevoked (ID c) (fs.table s) = true).
  { unfold fs.IsRevoked. apply bool_decide_eq_true. now rewrite HC. }
  destruct (fs.extractClaims pubKey req (fs.clock s)) as [claims o] eqn:Hx.
  cbn [fst] in Hclaims. subst claims.
  destruct (fs_facts.extractClaims_Some _ _ _ _ _ Hx) as [-> _].
  repeat constructor.
  - unfold fs.fs_open. rewrite Hx. destruct (String.eqb _ ""); [reflexivity|].
    destruct (policy.Authorize _ _ _ _ _) as [[err|] bs]; [reflexivity|].
    change (fs.table (fs.set_buckets bs s)) with (fs.table s). now rewrite Hrev.
  - unfold fs.fs_open. rewrite Hx. destruct (String.eqb _ ""); [reflexivity|].
    destruct (policy.Authorize _ _ _ _ _) as [[err|] bs]; [reflexivity|].
    change (fs.table (fs.set_buckets bs s)) with (fs.table s). now rewrite Hrev.
  - unfold fs.fs_read. rewrite Hx.
    destruct (policy.Authorize _ _ _ _ _) as [[err|] bs]; [reflexivity|].
    change (fs.table (fs.set_buckets bs s)) with (fs.table s).
    destruct (String.eqb _ ""); [reflexivity|].
    destruct (fs.Get _ _) as [entry|]; [|reflexivity].
    destruct (String.eqb_spec (fs.capID entry) (ID c)) as [->|]; [|reflexivity].
    now rewrite Hrev.
  - unfold fs.fs_read. rewrite Hx.
    destruct (policy.Authorize _ _ _ _ _) as [[err|] bs]; [reflexivity|].
    change (fs.table (fs.set_buckets bs s)) with (fs.table s).
    destruct (String.eqb _ ""); [reflexivity|].
    destruct (fs.Get _ _) as [entry|]; [|reflexivity].
    destruct (String.eqb_spec (fs.capID entry) (ID c)) as [->|]; [|reflexivity].
    now rewrite Hrev.
  - unfold fs.fs_list. rewrite Hx. destruct (String.eqb _ ""); [reflexivity|].
    destruct (policy.Authorize _ _ _ _ _) as [[err|] bs]; [reflexivity|].
    change (fs.table (fs.set_buckets bs s)) with (fs.table s). now rewrite Hrev.
  - unfold fs.fs_list. rewrite Hx. destruct (String.eqb _ ""); [reflexivity|].
    destruct (policy.Authorize _ _ _ _ _) as [[err|] bs]; [reflexivity|].
    change (fs.table (fs.set_buckets bs s)) with (fs.table s). now rewrite Hrev.
Qed.

(** X27 (a revocation that reaches the FS service).  When the socket
    of the FS service is served and the codec carries the notification
    and its acknowledgement, [identity.revoke] for a capability id
    records the id in the revocation list, has the FS service add it
    to its revoked set, and answers [revoked]; from then on, whatever
    the FS service serves and however much time passes, the FS service
    refuses every [fs.open], [fs.read] and [fs.list] under verified
    claims with this id, and performs no operation on the operating
    system for them. *)
Theorem revoke_reaches_fs (req : identity.Request) (rl : revocation.RevocationList)
    (fs_state : fs.State) (data : list ascii) :
  let capID := identity.get_string (identity.Params req) "cap_id" in
  let ack := ipc.SuccessResponse ("revoke-" +:+ capID) (ipc.ResultStatus "revoked") in
  capID <> "" ->
  server.carried (identity.notification capID) ->
  json_Marshal_Response ack = Ok data ->
  Z.of_nat (length data) <= frame.maxFrameSize ->
  json_Unmarshal_Response data = Ok ack ->
  let '(resp, rl', s') :=
    identity.revoke fsSock req (Ok (server.accept (fs_main.handlers pubKey)))
      rl fs_state in
  resp = identity.SuccessResponse (identity.ReqID req) (identity.ResultStatus "revoked") /\
  revocation.IsRevoked capID rl' = true /\
  s' = fs.set_table (fs.Revoke capID (fs.table fs_state)) fs_state /\
  forall (es : list fs.event) (fsreq : ipc.Request) (c : Capability),
    let s := fs.run pubKey es s' in
    fst (fs.extractClaims pubKey fsreq (fs.clock s)) = Some c ->
    ID c = capID ->
    Forall (fun handler : ipc.Request -> fs.State -> ipc.Response * fs.State =>
              ipc.OK (fst (handler fsreq s)) = false /\
              fs.oscalls (snd (handler fsreq s)) = fs.oscalls s)
           [fs.fs_open pubKey; fs.fs_read pubKey; fs.fs_list pubKey].
Proof.
  intros capID ack Hne Hreq Hm Hlen Hu.
  pose proof (notification_served capID fs_state Hne) as Hserved.
  unfold identity.revoke. fold capID.
  apply String.eqb_neq in Hne. rewrite Hne.
  rewrite (server_facts.SendRequest_accept (fs_main.handlers pubKey) fsSock
             (identity.notification capID) fs_state data Hreq)
    by (rewrite ?Hserved; assumption).
  rewrite Hserved. cbn [snd].
  split; [reflexivity|]. split.
  { unfold revocation.IsRevoked, revocation.Revoke. apply bool_decide_eq_true.
    apply elem_of_union_l. now apply elem_of_singleton. }
  split; [reflexivity|].
  intros es fsreq c. cbv zeta. intros Hclaims HC.
  apply (revoked_refused capID _ fsreq c); try assumption.
  apply fs_facts.run_revoked. cbn.
  apply elem_of_union_l. now apply elem_of_singleton.
Qed.

(** X28 (revocation is best effort).  [identity.revoke] for a
    capability id answers [revoked] and records the id in its own
    list whatever becomes of the notification: the socket of the FS
    service not being served, the peer answering anything or nothing.
    When the socket cannot be dialled the FS service is left as it is,
    and keeps serving the capability. *)
Theorem revoke_best_effort {T : Type} (req : identity.Request)
    (dial : result (list ascii -> T -> list ascii * T))
    (rl : revocation.RevocationList) (t : T) :
  let capID := identity.get_string (identity.Params req) "cap_id" in
  capID <> "" ->
  fst (identity.revoke fsSock req dial rl t) =
  (identity.SuccessResponse (identity.ReqID req) (identity.ResultStatus "revoked"),
   revocation.Revoke capID rl)
  /\ (forall e, dial = Err e -> snd (identity.revoke fsSock req dial rl t) = t).
Proof.
  intros capID Hne. unfold identity.revoke. fold capID.
  apply String.eqb_neq in Hne. rewrite Hne. split.
  - destruct (server.SendRequest _ _ _ _). reflexivity.
  - intros e ->. reflexivity.
Qed.

End Service.

(** A request whose [actions] hold a number and a boolean, and whose
    [rights] are a string instead of an array. *)
Lemma issue_refuses_witness :
  @identity.issue ref.macLib ref.jsonLib identity_examples.convLib examples.node_key
    identity_examples.bad_issue_req 5 identity_examples.drawn =
  identity.ErrorResponse "i2" 1 "actions or rights required".
Proof.
  apply (@issue_refuses ref.macLib ref.jsonLib identity_examples.convLib
           examples.node_key identity_examples.bad_issue_req 5 identity_examples.drawn).
  right. split; reflexivity.
Defined.

(** The capability issued for [identity_examples.issue_req] at time 5. *)
Lemma issued_token_verifies_witness :
  let req := identity_examples.issue_req in
  let cap := identity_examples.issued_claims in
  exists token,
    @identity.issue ref.macLib ref.jsonLib identity_examples.convLib examples.node_key
      req 5 identity_examples.drawn =
    identity.SuccessResponse (identity.ReqID req)
      (identity.ResultIssued token (ID cap) (issuing.Unix (ExpiresAt cap))) /\
    @auth.Verify ref.macLib ref.jsonLib token examples.node_key = Ok cap /\
    (Service cap = identity.get_string (identity.Params req) "service" /\
     Actions cap = identity.get_strings (identity.Params req) "actions" /\
     Rights cap = identity.get_strings (identity.Params req) "rights" /\
     PathPrefix (constraints cap) = identity.get_string (identity.Params req) "path_prefix" /\
     RateLimit (constraints cap) = identity.get_string (identity.Params req) "rate_limit" /\
     IssuedAt cap = 5) /\
    forall (fsreq : ipc.Request) (t : time.Time),
      ipc.auth fsreq = Some {| ipc.Token := token |} ->
      t <= ExpiresAt cap ->
      @fs.extractClaims ref.macLib ref.jsonLib examples.node_key fsreq t
      = (Some cap, None).
Proof.
  apply (@issued_token_verifies ref.macLib ref.jsonLib identity_examples.convLib
           examples.node_key examples.node_key
           identity_examples.issue_req 5 identity_examples.drawn
           identity_examples.issued_message
           ltac:(vm_compute; discriminate)
           ltac:(left; vm_compute; discriminate)
           ltac:(vm_compute; reflexivity)
           ltac:(vm_compute; reflexivity)
           ltac:(vm_compute; reflexivity)
           ltac:(vm_compute; reflexivity)).
Defined.

(** The revocation of [c1], with the FS service of the examples behind
    the socket. *)
Lemma revoke_reaches_fs_witness :
  let req := identity_examples.revoke_req "c1" in
  let '(resp, rl', s') :=
    @identity.revoke ref_wire.wireLib "/run/strata/fs.sock" examples.State req
      (Ok (@server.accept ref_wire.wireLib _ identity_examples.fs_handlers))
      revocation.NewRevocationList examples.start in
  resp = identity.SuccessResponse (identity.ReqID req) (identity.ResultStatus "revoked") /\
  revocation.IsRevoked "c1" rl' = true /\
  s' = fs.set_table (fs.Revoke "c1" (fs.table examples.start)) examples.start /\
  forall (es : list fs.event) (fsreq : ipc.Request) (c : Capability),
    let s := @fs.run examples.lib ref.macLib ref.jsonLib ref.osLib examples.node_key
               es s' in
    fst (@fs.extractClaims ref.macLib ref.jsonLib examples.node_key fsreq (fs.clock s))
    = Some c ->
    ID c = "c1" ->
    Forall (fun handler : ipc.Request -> examples.State -> ipc.Response * examples.State =>
              ipc.OK (fst (handler fsreq s)) = false /\
              fs.oscalls (snd (handler fsreq s)) = fs.oscalls s)
           [@fs.fs_open examples.lib ref.macLib ref.jsonLib ref.osLib examples.node_key;
            @fs.fs_read examples.lib ref.macLib ref.jsonLib ref.osLib examples.node_key;
            @fs.fs_list examples.lib ref.macLib ref.jsonLib ref.osLib examples.node_key].
Proof.
  apply (@revoke_reaches_fs examples.lib ref.macLib ref.jsonLib ref.osLib
           ref_wire.wireLib examples.node_key "/run/strata/fs.sock"
           (identity_examples.revoke_req "c1") revocation.NewRevocationList
           examples.start (ref_wire.lines ["revoke-c1"; "status"; "revoked"])
           ltac:(vm_compute; discriminate)).
  - eexists; fs_facts.evaluate; vm_compute; discriminate.
  - vm_compute. reflexivity.
  - vm_compute. discriminate.
  - vm_compute. reflexivity.
Defined.

(** The revocation of [c1] while the socket of the FS service refuses
    connections. *)
Lemma revoke_best_effort_witness :
  let req := identity_examples.revoke_req "c1" in
  let dial : result (list ascii -> examples.State -> list ascii * examples.State) :=
    Err "connect: connection refused" in
  fst (@identity.revoke ref_wire.wireLib "/run/strata/fs.sock" examples.State req dial
         revocation.NewRevocationList examples.start) =
  (identity.SuccessResponse (identity.ReqID req) (identity.ResultStatus "revoked"),
   revocation.Revoke "c1" revocation.NewRevocationList)
  /\ (forall e, dial = Err e ->
                snd (@identity.revoke ref_wire.wireLib "/run/strata/fs.sock"
                       examples.State req dial
                       revocation.NewRevocationList examples.start) = examples.start).
Proof.
  apply (@revoke_best_effort ref_wire.wireLib "/run/strata/fs.sock" examples.State
           (identity_examples.revoke_req "c1")
           (Err "connect: connection refused")
           revocation.NewRevocationList examples.start).
  vm_compute. discriminate.
Defined.

End identity_facts.
